(** * Flappy Bird: the per-frame simulation, embedded and verified

  The repository holds two variants of the same game:
  - [Enhanced]: the rotation-enabled variant (bird tilt, wing animation,
    incremental [addPoints]);
  - [Basic]: the plain variant of [game.js] ([jump] instead of [flap],
    no rotation, score saved at game end only).

  JavaScript numbers are IEEE 754 binary64 values; they are modelled by
  Rocq's primitive floats, which are the same format, so that the
  definitions below compute what the program computes, rounding included.
  The mutable global [gameState] is threaded explicitly through a small
  state-and-log monad; the log records the calls the game makes on its
  collaborators (the rewards manager, the DOM, the frame scheduler).  In
  [Enhanced] and [Basic] such a call is taken to return.  For the manager
  of [game.js] that is always so; for the manager of the rotation-enabled
  variant it is so exactly when the SDK object exists, since [addPoints]
  reads [this.ogp.ui] without a guard.  What the environment supplies is
  an argument: the value of [Math.random()], the handle that
  [requestAnimationFrame] returns, the outcome of a save.

  After the two variants come whole sessions, from the page's load on
  ([EnhancedSession], [BasicSession]), and the rewards manager
  [OGPManager] with the calls it makes on the SDK ([EnhancedSdk],
  [BasicSdk]).  There the manager's methods are inlined in the game and a
  handler may end with an exception; [EnhancedSdk.session] is the session
  of a page whose frames may throw, and it is the one of [EnhancedSession]
  when the SDK object exists. *)

From Stdlib Require Import Floats ZArith List Bool Lia.
From Stdlib Require Import Reals Lra.
Import ListNotations.

#[local] Open Scope float_scope.
#[local] Set Warnings "-inexact-float".

(** ** ECMAScript number operations *)

Module JS.

(** [x < y], [x > y], [x >= y] on numbers: false whenever an operand is NaN. *)
Definition lt (x y : float) : bool := x <? y.
Definition gt (x y : float) : bool := y <? x.
Definition ge (x y : float) : bool := y <=? x.

Definition is_pos_zero (x : float) : bool :=
  match classify x with PZero => true | _ => false end.
Definition is_neg_zero (x : float) : bool :=
  match classify x with NZero => true | _ => false end.

(** [Math.min(x, y)]: NaN if an argument is NaN; [-0] counts as smaller
    than [+0]. *)
Definition Math_min (x y : float) : float :=
  if is_nan x then nan
  else if is_nan y then nan
  else if is_neg_zero y && is_pos_zero x then y
  else if y <? x then y
  else x.

(** [Math.max(x, y)]: NaN if an argument is NaN; [+0] counts as larger
    than [-0]. *)
Definition Math_max (x y : float) : float :=
  if is_nan x then nan
  else if is_nan y then nan
  else if is_pos_zero y && is_neg_zero x then y
  else if x <? y then y
  else x.

Definition Math_PI : float := 3.141592653589793.

(** [x === y] on numbers. *)
Definition strict_eq (x y : float) : bool := x =? y.

(** Truthiness of a value that is [null] or a frame handle. *)
Definition truthy_handle (h : option Z) : bool :=
  match h with
  | None => false
  | Some id => negb (Z.eqb id 0)
  end.

End JS.

(** ** The rotation-enabled variant *)

Module Enhanced.

Import JS.

Module CONFIG.
Definition gravity : float := 0.05.
Definition flapStrength : float := 3.
Definition maxVelocity : float := 5.
Definition birdInitialY : float := 300.
Definition birdWidth : float := 30.
Definition birdHeight : float := 30.
Definition birdX : float := 50.
Definition obstacleWidth : float := 50.
Definition obstacleSpeed : float := 2.
Definition gapSize : float := 150.
Definition canvasWidth : float := 400.
Definition canvasHeight : float := 600.
Definition animationFrameInterval : float := 10.
Definition rotationFriction : float := 0.4.
Definition rotationSensitivity : float := 0.3.
Definition maxRotation : float := Math_PI / 4.
End CONFIG.

(** The global [gameState] object (its canvas context [ctx] is a constant
    reference and is left out). *)
Record gameState : Type := mkGameState {
  birdY : float;
  birdVelocity : float;
  birdRotation : float;
  birdRotationVelocity : float;
  obstacleX : float;
  gap : float;
  obstacleHeight : float;
  score : float;
  ogpPoints : float;
  gameRunning : bool;
  animationFrameId : option Z;
  animationFrame : float;
  animationCounter : float
}.

(** Field assignments [gameState.f = v]. *)
Definition set_birdY v g :=
  mkGameState v (birdVelocity g) (birdRotation g) (birdRotationVelocity g)
    (obstacleX g) (gap g) (obstacleHeight g) (score g) (ogpPoints g)
    (gameRunning g) (animationFrameId g) (animationFrame g) (animationCounter g).
Definition set_birdVelocity v g :=
  mkGameState (birdY g) v (birdRotation g) (birdRotationVelocity g)
    (obstacleX g) (gap g) (obstacleHeight g) (score g) (ogpPoints g)
    (gameRunning g) (animationFrameId g) (animationFrame g) (animationCounter g).
Definition set_birdRotation v g :=
  mkGameState (birdY g) (birdVelocity g) v (birdRotationVelocity g)
    (obstacleX g) (gap g) (obstacleHeight g) (score g) (ogpPoints g)
    (gameRunning g) (animationFrameId g) (animationFrame g) (animationCounter g).
Definition set_birdRotationVelocity v g :=
  mkGameState (birdY g) (birdVelocity g) (birdRotation g) v
    (obstacleX g) (gap g) (obstacleHeight g) (score g) (ogpPoints g)
    (gameRunning g) (animationFrameId g) (animationFrame g) (animationCounter g).
Definition set_obstacleX v g :=
  mkGameState (birdY g) (birdVelocity g) (birdRotation g) (birdRotationVelocity g)
    v (gap g) (obstacleHeight g) (score g) (ogpPoints g)
    (gameRunning g) (animationFrameId g) (animationFrame g) (animationCounter g).
Definition set_obstacleHeight v g :=
  mkGameState (birdY g) (birdVelocity g) (birdRotation g) (birdRotationVelocity g)
    (obstacleX g) (gap g) v (score g) (ogpPoints g)
    (gameRunning g) (animationFrameId g) (animationFrame g) (animationCounter g).
Definition set_score v g :=
  mkGameState (birdY g) (birdVelocity g) (birdRotation g) (birdRotationVelocity g)
    (obstacleX g) (gap g) (obstacleHeight g) v (ogpPoints g)
    (gameRunning g) (animationFrameId g) (animationFrame g) (animationCounter g).
Definition set_gameRunning v g :=
  mkGameState (birdY g) (birdVelocity g) (birdRotation g) (birdRotationVelocity g)
    (obstacleX g) (gap g) (obstacleHeight g) (score g) (ogpPoints g)
    v (animationFrameId g) (animationFrame g) (animationCounter g).
Definition set_animationFrameId v g :=
  mkGameState (birdY g) (birdVelocity g) (birdRotation g) (birdRotationVelocity g)
    (obstacleX g) (gap g) (obstacleHeight g) (score g) (ogpPoints g)
    (gameRunning g) v (animationFrame g) (animationCounter g).
Definition set_animationFrame v g :=
  mkGameState (birdY g) (birdVelocity g) (birdRotation g) (birdRotationVelocity g)
    (obstacleX g) (gap g) (obstacleHeight g) (score g) (ogpPoints g)
    (gameRunning g) (animationFrameId g) v (animationCounter g).
Definition set_animationCounter v g :=
  mkGameState (birdY g) (birdVelocity g) (birdRotation g) (birdRotationVelocity g)
    (obstacleX g) (gap g) (obstacleHeight g) (score g) (ogpPoints g)
    (gameRunning g) (animationFrameId g) (animationFrame g) v.

(** The module-level initial value of [gameState]. *)
Definition initialGameState : gameState :=
  {| birdY := CONFIG.birdInitialY;
     birdVelocity := 0;
     birdRotation := 0;
     birdRotationVelocity := 0;
     obstacleX := CONFIG.canvasWidth;
     gap := CONFIG.gapSize;
     obstacleHeight := 0;
     score := 0;
     ogpPoints := 0;
     gameRunning := false;
     animationFrameId := None;
     animationFrame := 0;
     animationCounter := 0 |}.

(** Calls on the collaborators, in the order they are made. *)
Inductive effect : Type :=
| OgpAddPoints (points : float)        (* this.ogpManager.addPoints(points) *)
| OgpSaveScore (points : float)        (* this.ogpManager.saveScore(points) *)
| CancelAnimationFrame (id : Z)        (* cancelAnimationFrame(id) *)
| RequestAnimationFrame                (* requestAnimationFrame(() => this.gameLoop()) *)
| DomRoundScore (text : float)         (* DOM.roundScore.textContent = ... *)
| DomShowGameOverScreen                (* DOM.gameOverScreen.style.display = 'block' *)
| DomHideScreens                       (* start and game-over screens hidden *)
| Render (snapshot : gameState)        (* drawBird(); drawObstacle() *)
| ConsoleLog                           (* console.log('Points saved:', response) *)
| ConsoleError.                        (* console.error('Failed to save points:', error) *)

(** State-and-log monad over [gameState]. *)
Definition M (A : Type) : Type := gameState -> A * gameState * list effect.

Definition ret {A} (a : A) : M A := fun g => (a, g, []).
Definition bind {A B} (m : M A) (k : A -> M B) : M B :=
  fun g =>
    let '(a, g1, l1) := m g in
    let '(b, g2, l2) := k a g1 in
    (b, g2, l1 ++ l2).
Definition modify (f : gameState -> gameState) : M unit := fun g => (tt, f g, []).
Definition call (e : effect) : M unit := fun g => (tt, g, [e]).
Definition branch {A} (c : gameState -> bool) (m1 m2 : M A) : M A :=
  fun g => if c g then m1 g else m2 g.
Definition skip : M unit := ret tt.

Notation "m1 ;; m2" := (bind m1 (fun _ => m2))
  (at level 61, right associativity).

Definition state_of {A} (r : A * gameState * list effect) : gameState := snd (fst r).
Definition log_of {A} (r : A * gameState * list effect) : list effect := snd r.

(** *** FlappyBirdGame *)

(** [resetObstacle]; [rnd] is the value [Math.random()] returns. *)
Definition resetObstacle (rnd : float) : M unit :=
  modify (set_obstacleX CONFIG.canvasWidth) ;;
  modify (fun g =>
    set_obstacleHeight (rnd * (CONFIG.canvasHeight - gap g - 100) + 50) g).

Definition updateBirdPosition : M unit :=
  modify (fun g =>
    set_birdVelocity (Math_min (birdVelocity g + CONFIG.gravity) CONFIG.maxVelocity) g) ;;
  modify (fun g => set_birdY (birdY g + birdVelocity g) g).

Definition updateBirdRotation : M unit :=
  fun g =>
    let targetRotation :=
      Math_max (- CONFIG.maxRotation)
        (Math_min CONFIG.maxRotation (birdVelocity g * CONFIG.rotationSensitivity)) in
    let rotationDifference := targetRotation - birdRotation g in
    (modify (fun g => set_birdRotationVelocity
               (birdRotationVelocity g + rotationDifference * 0.1) g) ;;
     modify (fun g => set_birdRotationVelocity
               (birdRotationVelocity g * CONFIG.rotationFriction) g) ;;
     modify (fun g => set_birdRotation (birdRotation g + birdRotationVelocity g) g)) g.

Definition updateObstaclePosition : M unit :=
  modify (fun g => set_obstacleX (obstacleX g - CONFIG.obstacleSpeed) g).

Definition obstaclePassed (g : gameState) : bool :=
  lt (obstacleX g) (- CONFIG.obstacleWidth).

(** [updateObstaclePassed].  The call [this.ogpManager.addPoints(1)] is
    recorded here as a call that returns, which it does when the manager
    holds the SDK object.  When [this.ogp] is [null] the call throws and
    the frame ends there: [EnhancedSdk.updateObstaclePassed] is the method
    with the manager's [addPoints] inlined. *)
Definition updateObstaclePassed (rnd : float) : M unit :=
  branch obstaclePassed
    (resetObstacle rnd ;;
     modify (fun g => set_score (score g + 1) g) ;;
     call (OgpAddPoints 1))
    skip.

Definition updateAnimationFrame : M unit :=
  branch (fun g => gt (birdRotation g) 0)
    (modify (set_animationFrame 0))
    (modify (fun g =>
       set_animationFrame (if strict_eq (animationFrame g) 0 then 1 else 0) g)) ;;
  modify (set_animationCounter 0).

Definition updateAnimation : M unit :=
  modify (fun g => set_animationCounter (animationCounter g + 1) g) ;;
  branch (fun g => ge (animationCounter g) CONFIG.animationFrameInterval)
    updateAnimationFrame
    skip.

Definition endGame : M unit :=
  modify (set_gameRunning false) ;;
  branch (fun g => truthy_handle (animationFrameId g))
    (fun g =>
       (match animationFrameId g with
        | Some id => call (CancelAnimationFrame id)
        | None => skip
        end ;;
        modify (set_animationFrameId None)) g)
    skip ;;
  (fun g => call (DomRoundScore (score g)) g) ;;
  call DomShowGameOverScreen ;;
  branch (fun g => gt (score g) 0)
    (fun g => call (OgpSaveScore (score g)) g)
    skip.

(** The two tests of [checkCollisions]: "bird hit the ground or ceiling"
    and "bird hit an obstacle". *)
Definition hitGroundOrCeiling (g : gameState) : bool :=
  lt (birdY g) 0 || gt (birdY g + CONFIG.birdHeight) CONFIG.canvasHeight.

Definition hitObstacle (g : gameState) : bool :=
  let birdRight := CONFIG.birdX + CONFIG.birdWidth in
  let birdBottom := birdY g + CONFIG.birdHeight in
  let obstacleRight := obstacleX g + CONFIG.obstacleWidth in
  gt birdRight (obstacleX g)
  && lt CONFIG.birdX obstacleRight
  && (lt (birdY g) (obstacleHeight g)
      || gt birdBottom (obstacleHeight g + gap g)).

Definition checkCollisions : M unit :=
  branch hitGroundOrCeiling
    endGame                               (* this.endGame(); return; *)
    (branch hitObstacle endGame skip).

Definition update (rnd : float) : M unit :=
  updateBirdPosition ;;
  updateBirdRotation ;;
  updateObstaclePosition ;;
  updateObstaclePassed rnd ;;
  updateAnimation ;;
  checkCollisions.

Definition render : M unit := fun g => call (Render g) g.

(** [gameLoop]; [handle] is the value [requestAnimationFrame] returns. *)
Definition gameLoop (rnd : float) (handle : Z) : M unit :=
  branch (fun g => negb (gameRunning g))
    skip
    (update rnd ;;
     render ;;
     call RequestAnimationFrame ;;
     modify (set_animationFrameId (Some handle))).

(** The assignments of [startGame], up to and including its
    [resetObstacle] call: the state a round starts from. *)
Definition resetRound (rnd : float) : M unit :=
  call DomHideScreens ;;
  modify (set_birdY CONFIG.birdInitialY) ;;
  modify (set_birdVelocity 0) ;;
  modify (set_birdRotation 0) ;;
  modify (set_birdRotationVelocity 0) ;;
  modify (set_obstacleX CONFIG.canvasWidth) ;;
  modify (set_score 0) ;;
  modify (set_gameRunning true) ;;
  modify (set_animationFrame 0) ;;
  modify (set_animationCounter 0) ;;
  resetObstacle rnd.

Definition startGame (rnd0 rnd : float) (handle : Z) : M unit :=
  resetRound rnd0 ;;
  gameLoop rnd handle.

Definition flap : M unit :=
  branch gameRunning
    (modify (set_birdVelocity (- CONFIG.flapStrength)) ;;
     updateAnimationFrame)
    skip.

(** *** OGPManager.saveScore, seen from the game

    [saveScore] returns a promise that the game drops.  When the SDK call
    settles, the handlers attached in [saveScore] run; they take the
    outcome and only write to the console. *)
Inductive outcome : Type :=
| Resolved
| Rejected.

Definition saveScore_settled (o : outcome) : M unit :=
  match o with
  | Resolved => call ConsoleLog
  | Rejected => call ConsoleError
  end.

(** *** The event wiring of [setupEventListeners] and the frame scheduler *)

Inductive event : Type :=
| FrameTick (rnd : float) (handle : Z)         (* the frame callback: gameLoop() *)
| FlapInput                                    (* click, touchstart or space: flap() *)
| StartButton (rnd0 rnd : float) (handle : Z)  (* start / play again: startGame() *)
| SaveSettled (o : outcome).                   (* the savePoints promise settles *)

Definition dispatch (e : event) : M unit :=
  match e with
  | FrameTick rnd handle => gameLoop rnd handle
  | FlapInput => flap
  | StartButton rnd0 rnd handle => startGame rnd0 rnd handle
  | SaveSettled o => saveScore_settled o
  end.

Fixpoint run (es : list event) : M unit :=
  match es with
  | [] => skip
  | e :: es' => dispatch e ;; run es'
  end.

(** [n] frame callbacks in a row with no input in between; [ticks k] holds
    what [Math.random] and [requestAnimationFrame] return in frame [k]. *)
Fixpoint frames (ticks : nat -> float * Z) (n : nat) : M unit :=
  match n with
  | O => skip
  | S k => frames ticks k ;; gameLoop (fst (ticks k)) (snd (ticks k))
  end.

(** The [saveScore] and [addPoints] calls of a log, with their arguments. *)
Definition saveScore_calls (l : list effect) : list float :=
  flat_map (fun e => match e with OgpSaveScore p => [p] | _ => [] end) l.
Definition addPoints_calls (l : list effect) : list float :=
  flat_map (fun e => match e with OgpAddPoints p => [p] | _ => [] end) l.

(** *** Notions used in the statements below *)

(** The state [update] hands to [checkCollisions]. *)
Definition beforeCollisionCheck (rnd : float) (g : gameState) : gameState :=
  state_of ((updateBirdPosition ;; updateBirdRotation ;; updateObstaclePosition ;;
             updateObstaclePassed rnd ;; updateAnimation) g).

(** The rotation step as the specification words it (section 4.1, step 2):
    clamp, spring force, friction, integration, in this order.  [clamp] is
    the usual one: [lo] below [lo], [hi] above [hi], [x] in between. *)
Definition clamp (x lo hi : float) : float :=
  if lt x lo then lo else if gt x hi then hi else x.

Definition spec_rotation_step
    (sensitivity maxRotation springConstant friction : float)
    (birdVelocity rotation rotationVelocity : float) : float * float :=
  let target := clamp (birdVelocity * sensitivity) (- maxRotation) maxRotation in
  let rotationVelocity := rotationVelocity + (target - rotation) * springConstant in
  let rotationVelocity := rotationVelocity * friction in
  let rotation := rotation + rotationVelocity in
  (rotation, rotationVelocity).

(** The same three updates with friction applied before the spring force. *)
Definition friction_first_rotation_step
    (sensitivity maxRotation springConstant friction : float)
    (birdVelocity rotation rotationVelocity : float) : float * float :=
  let target := clamp (birdVelocity * sensitivity) (- maxRotation) maxRotation in
  let rotationVelocity := rotationVelocity * friction in
  let rotationVelocity := rotationVelocity + (target - rotation) * springConstant in
  let rotation := rotation + rotationVelocity in
  (rotation, rotationVelocity).

(** Where a regenerated obstacle is [k] frames after [resetObstacle]. *)
Definition obstacleAfter (k : nat) : float :=
  Nat.iter k (fun x => x - CONFIG.obstacleSpeed) CONFIG.canvasWidth.

Definition is_restart (e : event) : bool :=
  match e with StartButton _ _ _ => true | _ => false end.

(** States of a round: the state [startGame] sets up, and whatever the
    events lead to from there, the calls on the manager returning. *)
Inductive reachable : gameState -> Prop :=
| reach_reset rnd g0 : reachable (state_of (resetRound rnd g0))
| reach_event e g : reachable g -> reachable (state_of (dispatch e g)).

(** The bird is inside the canvas, as [checkCollisions] tests it. *)
Definition in_bounds (g : gameState) : Prop :=
  (0 <=? birdY g) = true /\
  (birdY g + CONFIG.birdHeight <=? CONFIG.canvasHeight) = true.

Definition flight_invariant (g : gameState) : Prop :=
  is_nan (birdVelocity g) = false /\ (gameRunning g = true -> in_bounds g).

End Enhanced.

(** ** The plain variant ([game.js]) *)

Module Basic.

Import JS.

Module CONFIG.
Definition gravity : float := 0.05.
Definition jumpStrength : float := 3.
Definition maxVelocity : float := 5.
Definition birdInitialY : float := 300.
Definition birdWidth : float := 30.
Definition birdHeight : float := 30.
Definition birdX : float := 50.
Definition obstacleWidth : float := 50.
Definition obstacleSpeed : float := 2.
Definition gapSize : float := 150.
Definition canvasWidth : float := 400.
Definition canvasHeight : float := 600.
End CONFIG.

Record gameState : Type := mkGameState {
  birdY : float;
  birdVelocity : float;
  obstacleX : float;
  gap : float;
  obstacleHeight : float;
  score : float;
  ogpPoints : float;
  gameRunning : bool;
  animationFrameId : option Z
}.

Definition set_birdY v g :=
  mkGameState v (birdVelocity g) (obstacleX g) (gap g) (obstacleHeight g)
    (score g) (ogpPoints g) (gameRunning g) (animationFrameId g).
Definition set_birdVelocity v g :=
  mkGameState (birdY g) v (obstacleX g) (gap g) (obstacleHeight g)
    (score g) (ogpPoints g) (gameRunning g) (animationFrameId g).
Definition set_obstacleX v g :=
  mkGameState (birdY g) (birdVelocity g) v (gap g) (obstacleHeight g)
    (score g) (ogpPoints g) (gameRunning g) (animationFrameId g).
Definition set_obstacleHeight v g :=
  mkGameState (birdY g) (birdVelocity g) (obstacleX g) (gap g) v
    (score g) (ogpPoints g) (gameRunning g) (animationFrameId g).
Definition set_score v g :=
  mkGameState (birdY g) (birdVelocity g) (obstacleX g) (gap g) (obstacleHeight g)
    v (ogpPoints g) (gameRunning g) (animationFrameId g).
Definition set_ogpPoints v g :=
  mkGameState (birdY g) (birdVelocity g) (obstacleX g) (gap g) (obstacleHeight g)
    (score g) v (gameRunning g) (animationFrameId g).
Definition set_gameRunning v g :=
  mkGameState (birdY g) (birdVelocity g) (obstacleX g) (gap g) (obstacleHeight g)
    (score g) (ogpPoints g) v (animationFrameId g).
Definition set_animationFrameId v g :=
  mkGameState (birdY g) (birdVelocity g) (obstacleX g) (gap g) (obstacleHeight g)
    (score g) (ogpPoints g) (gameRunning g) v.

Definition initialGameState : gameState :=
  {| birdY := CONFIG.birdInitialY;
     birdVelocity := 0;
     obstacleX := CONFIG.canvasWidth;
     gap := CONFIG.gapSize;
     obstacleHeight := 0;
     score := 0;
     ogpPoints := 0;
     gameRunning := false;
     animationFrameId := None |}.

Inductive effect : Type :=
| OgpSaveScore (points : float)        (* this.ogpManager.saveScore(points) *)
| CancelAnimationFrame (id : Z)        (* cancelAnimationFrame(id) *)
| RequestAnimationFrame                (* requestAnimationFrame(() => this.gameLoop()) *)
| DomFinalScore (text : float)         (* DOM.finalScore.textContent = ... *)
| DomOgpPoints (text : float)          (* DOM.ogpPointsDisplay.textContent = ... *)
| DomShowGameOverScreen                (* DOM.gameOverScreen.style.display = 'block' *)
| DomHideScreens                       (* start and game-over screens hidden *)
| Render (snapshot : gameState)        (* render() *)
| OgpGetPoints                         (* this.ogp.getPoints() *)
| ConsoleLog
| ConsoleError.

Definition M (A : Type) : Type := gameState -> A * gameState * list effect.

Definition ret {A} (a : A) : M A := fun g => (a, g, []).
Definition bind {A B} (m : M A) (k : A -> M B) : M B :=
  fun g =>
    let '(a, g1, l1) := m g in
    let '(b, g2, l2) := k a g1 in
    (b, g2, l1 ++ l2).
Definition modify (f : gameState -> gameState) : M unit := fun g => (tt, f g, []).
Definition call (e : effect) : M unit := fun g => (tt, g, [e]).
Definition branch {A} (c : gameState -> bool) (m1 m2 : M A) : M A :=
  fun g => if c g then m1 g else m2 g.
Definition skip : M unit := ret tt.

Notation "m1 ;; m2" := (bind m1 (fun _ => m2))
  (at level 61, right associativity).

Definition state_of {A} (r : A * gameState * list effect) : gameState := snd (fst r).
Definition log_of {A} (r : A * gameState * list effect) : list effect := snd r.

Definition resetObstacle (rnd : float) : M unit :=
  modify (set_obstacleX CONFIG.canvasWidth) ;;
  modify (fun g =>
    set_obstacleHeight (rnd * (CONFIG.canvasHeight - gap g - 100) + 50) g).

Definition endGame : M unit :=
  modify (set_gameRunning false) ;;
  branch (fun g => truthy_handle (animationFrameId g))
    (fun g =>
       (match animationFrameId g with
        | Some id => call (CancelAnimationFrame id)
        | None => skip
        end ;;
        modify (set_animationFrameId None)) g)
    skip ;;
  (fun g => call (DomFinalScore (score g)) g) ;;
  (fun g => call (DomOgpPoints (ogpPoints g)) g) ;;
  call DomShowGameOverScreen ;;
  branch (fun g => gt (score g) 0)
    (fun g => call (OgpSaveScore (score g)) g)
    skip.

(** The two tests of [checkCollisions]: "bird hit the ground or ceiling"
    and "bird hit an obstacle". *)
Definition hitGroundOrCeiling (g : gameState) : bool :=
  lt (birdY g) 0 || gt (birdY g + CONFIG.birdHeight) CONFIG.canvasHeight.

Definition hitObstacle (g : gameState) : bool :=
  let birdRight := CONFIG.birdX + CONFIG.birdWidth in
  let birdBottom := birdY g + CONFIG.birdHeight in
  let obstacleRight := obstacleX g + CONFIG.obstacleWidth in
  gt birdRight (obstacleX g)
  && lt CONFIG.birdX obstacleRight
  && (lt (birdY g) (obstacleHeight g)
      || gt birdBottom (obstacleHeight g + gap g)).

Definition checkCollisions : M unit :=
  branch hitGroundOrCeiling
    endGame                               (* this.endGame(); return; *)
    (branch hitObstacle endGame skip).

Definition obstaclePassed (g : gameState) : bool :=
  lt (obstacleX g) (- CONFIG.obstacleWidth).

Definition update (rnd : float) : M unit :=
  modify (fun g =>
    set_birdVelocity (Math_min (birdVelocity g + CONFIG.gravity) CONFIG.maxVelocity) g) ;;
  modify (fun g => set_birdY (birdY g + birdVelocity g) g) ;;
  modify (fun g => set_obstacleX (obstacleX g - CONFIG.obstacleSpeed) g) ;;
  branch obstaclePassed
    (resetObstacle rnd ;;
     modify (fun g => set_score (score g + 1) g))
    skip ;;
  checkCollisions.

Definition render : M unit := fun g => call (Render g) g.

Definition gameLoop (rnd : float) (handle : Z) : M unit :=
  branch (fun g => negb (gameRunning g))
    skip
    (update rnd ;;
     render ;;
     call RequestAnimationFrame ;;
     modify (set_animationFrameId (Some handle))).

Definition resetRound (rnd : float) : M unit :=
  call DomHideScreens ;;
  modify (set_birdY CONFIG.birdInitialY) ;;
  modify (set_birdVelocity 0) ;;
  modify (set_obstacleX CONFIG.canvasWidth) ;;
  modify (set_score 0) ;;
  modify (set_gameRunning true) ;;
  resetObstacle rnd.

Definition startGame (rnd0 rnd : float) (handle : Z) : M unit :=
  resetRound rnd0 ;;
  gameLoop rnd handle.

Definition jump : M unit :=
  branch gameRunning
    (modify (set_birdVelocity (- CONFIG.jumpStrength)))
    skip.

(** The handlers attached in [OGPManager.saveScore]: console output only. *)
Inductive outcome : Type :=
| Resolved
| Rejected.

Definition saveScore_settled (o : outcome) : M unit :=
  match o with
  | Resolved => call ConsoleLog          (* console.log('Points saved:', response) *)
  | Rejected => call ConsoleError
  end.

(** The listener of the SDK's [SavePointsSuccess] event, registered by
    [setupListeners]: it writes to the console and calls
    [updateTotalOgpPoints].  The listener exists only once [isInitialized]
    is set, so that one passes its guard and asks the SDK for the total;
    when the answer arrives, [getPoints_resolved] stores it in
    [gameState.ogpPoints] and shows it. *)
Definition onSavePointsSuccess : M unit :=
  call ConsoleLog ;;                     (* console.log('OGP points saved successfully') *)
  call OgpGetPoints.

Definition getPoints_resolved (response : float) : M unit :=
  call ConsoleLog ;;
  modify (set_ogpPoints response) ;;
  (fun g => call (DomOgpPoints (ogpPoints g)) g).

Inductive event : Type :=
| FrameTick (rnd : float) (handle : Z)
| JumpInput
| StartButton (rnd0 rnd : float) (handle : Z)
| SaveSettled (o : outcome)              (* the savePoints promise settles *)
| PointsFetched (response : float)       (* the getPoints promise resolves *)
| SavePointsSuccess.                     (* the SDK raises 'SavePointsSuccess' *)

Definition dispatch (e : event) : M unit :=
  match e with
  | FrameTick rnd handle => gameLoop rnd handle
  | JumpInput => jump
  | StartButton rnd0 rnd handle => startGame rnd0 rnd handle
  | SaveSettled o => saveScore_settled o
  | PointsFetched response => getPoints_resolved response
  | SavePointsSuccess => onSavePointsSuccess
  end.

Fixpoint run (es : list event) : M unit :=
  match es with
  | [] => skip
  | e :: es' => dispatch e ;; run es'
  end.

Fixpoint frames (ticks : nat -> float * Z) (n : nat) : M unit :=
  match n with
  | O => skip
  | S k => frames ticks k ;; gameLoop (fst (ticks k)) (snd (ticks k))
  end.

Definition saveScore_calls (l : list effect) : list float :=
  flat_map (fun e => match e with OgpSaveScore p => [p] | _ => [] end) l.

(** *** Notions used in the statements below *)

(** The state [update] hands to [checkCollisions]. *)
Definition beforeCollisionCheck (rnd : float) (g : gameState) : gameState :=
  state_of ((modify (fun g =>
               set_birdVelocity (Math_min (birdVelocity g + CONFIG.gravity) CONFIG.maxVelocity) g) ;;
             modify (fun g => set_birdY (birdY g + birdVelocity g) g) ;;
             modify (fun g => set_obstacleX (obstacleX g - CONFIG.obstacleSpeed) g) ;;
             branch obstaclePassed
               (resetObstacle rnd ;;
                modify (fun g => set_score (score g + 1) g))
               skip) g).

Definition obstacleAfter (k : nat) : float :=
  Nat.iter k (fun x => x - CONFIG.obstacleSpeed) CONFIG.canvasWidth.

Definition is_restart (e : event) : bool :=
  match e with StartButton _ _ _ => true | _ => false end.

Inductive reachable : gameState -> Prop :=
| reach_reset rnd g0 : reachable (state_of (resetRound rnd g0))
| reach_event e g : reachable g -> reachable (state_of (dispatch e g)).

Definition in_bounds (g : gameState) : Prop :=
  (0 <=? birdY g) = true /\
  (birdY g + CONFIG.birdHeight <=? CONFIG.canvasHeight) = true.

Definition flight_invariant (g : gameState) : Prop :=
  is_nan (birdVelocity g) = false /\ (gameRunning g = true -> in_bounds g).

End Basic.

(** ** A session of the rotation-enabled variant

    From the page's load on: [new FlappyBirdGame(ogpManager)] runs the
    constructor, and from then on the browser delivers the events of
    [dispatch] in some order.  Every order is allowed here, also those a
    browser would not produce, so that what holds for every session below
    holds for the real ones.  The calls on the manager are those of
    [Enhanced], which return; [EnhancedSdk.session] further down is the
    session of a page on which [addPoints] may throw, and the two agree
    when the SDK object exists. *)

Module EnhancedSession.

Import JS Enhanced.

(** The [FlappyBirdGame] constructor: [setupEventListeners()] attaches the
    handlers that [dispatch] runs, then [resetObstacle()] is called on the
    module-level [gameState]. *)
Definition constructor (rnd : float) : M unit := resetObstacle rnd.

(** [Math.random()] returns a number in [0, 1). *)
Definition in_unit_interval (r : float) : bool := (0 <=? r) && (r <? 1).

Definition random_ok (e : event) : bool :=
  match e with
  | FrameTick rnd _ => in_unit_interval rnd
  | StartButton rnd0 rnd _ => in_unit_interval rnd0 && in_unit_interval rnd
  | _ => true
  end.

(** The state once the page has loaded and the events [es] have been
    handled, and the calls made while handling them. *)
Definition session (rnd0 : float) (es : list event) : gameState :=
  state_of (run es (state_of (constructor rnd0 initialGameState))).

(** A round played with flaps: [startGame], then for each number in
    [gaps] that many frames, with a flap between two groups of frames. *)
Fixpoint frames_and_flaps (gaps : list nat) : list event :=
  match gaps with
  | [] => []
  | [n] => repeat (FrameTick 0.5 1) n
  | n :: rest => repeat (FrameTick 0.5 1) n ++ FlapInput :: frames_and_flaps rest
  end.

Definition StartButton_then (gaps : list nat) : list event :=
  StartButton 0.5 0.5 1 :: frames_and_flaps gaps.

(** The [cancelAnimationFrame] calls of a log, with their arguments. *)
Definition cancel_calls (l : list effect) : list Z :=
  flat_map (fun e => match e with CancelAnimationFrame id => [id] | _ => [] end) l.

(** The obstacle is at one of the 226 places a regenerated obstacle passes
    through. *)
Definition on_track (g : gameState) : Prop :=
  exists k, (k <= 225)%nat /\ obstacleX g = obstacleAfter k.

(** The velocity [k] frames after it was set to [v0]. *)
Definition velocityAfter (v0 : float) (k : nat) : float :=
  Nat.iter k (fun v => Math_min (v + CONFIG.gravity) CONFIG.maxVelocity) v0.

(** The velocity is what [k] frames of gravity make of the velocity of a
    start or of a flap; after 161 frames at the latest it is
    [maxVelocity]. *)
Definition velocity_on_track (g : gameState) : Prop :=
  exists k, (k <= 161)%nat /\
    (birdVelocity g = velocityAfter 0 k \/
     birdVelocity g = velocityAfter (- CONFIG.flapStrength) k).

(** The gap is the configured one and its top edge is where
    [resetObstacle] may put it. *)
Definition gap_top_ok (g : gameState) : Prop :=
  gap g = CONFIG.gapSize /\
  (50 <=? obstacleHeight g) = true /\
  (obstacleHeight g <=? CONFIG.canvasHeight - CONFIG.gapSize - 50) = true.

(** A running game has passed both tests of [checkCollisions]. *)
Definition clear_of_obstacle (g : gameState) : Prop :=
  gameRunning g = true -> hitObstacle g = false.

(** Console output, the only thing the handlers of a settled save do. *)
Definition is_console (e : effect) : Prop := e = ConsoleLog \/ e = ConsoleError.

(** The wing animation is in one of its twenty states: frame 0 or 1,
    counter 0 to 9. *)
Definition animation_ok (g : gameState) : Prop :=
  (animationFrame g = 0 \/ animationFrame g = 1) /\
  In (animationCounter g) [0; 1; 2; 3; 4; 5; 6; 7; 8; 9].

End EnhancedSession.

(** ** The rewards manager of the rotation-enabled variant

    [OGPManager] wraps the Open Game Protocol SDK.  The SDK is outside the
    repository; what is modelled is which of its methods the manager calls,
    in which order and under which guards.  The SDK's methods are taken to
    return normally, except where the source itself provides for a failure:
    inside the [try] block of [initialize] and in the promise chain of
    [ogp.init].  Reading a property of [this.ogp] while it is [null] throws
    a TypeError, as in every JavaScript program. *)

Module EnhancedSdk.

Import JS Enhanced.

(** The object [new OpenGameSDK(...)] returns. *)
Inductive OpenGameSDK : Type := sdk_object.

(** The fields of an [OGPManager]; [ogp] is [null] or the SDK object. *)
Record OGPManager : Type := mkOGPManager {
  ogp : option OpenGameSDK;
  isInitialized : bool
}.

(** What the manager and the game do to the outside, in order. *)
Inductive action : Type :=
| Game (e : effect)                 (* a call of the game, as in [Enhanced] *)
| SdkConstruct                      (* new OpenGameSDK({...}) *)
| SdkInit                           (* this.ogp.init({...}) *)
| SdkGameReadyToPlay                (* this.ogp.gameReadyToPlay() *)
| SdkOnReadyListener                (* this.ogp.on('OnReady', ...) *)
| SdkUiAddPoints (points : float)   (* this.ogp.ui.addPoints(points) *)
| SdkSavePoints (points : float)    (* this.ogp.savePoints(points) *)
| LogInfo                           (* console.log(...) *)
| LogError                          (* console.error(...) *)
| DomShowStartScreen.               (* DOM.startScreen.style.display = 'block' *)

(** How a method ends: it returns, or an exception leaves it. *)
Inductive completion : Type :=
| Returned
| Thrown.

(** *** OGPManager *)

Definition handleInitError : list action := [DomShowStartScreen].

(** The first call inside the [try] block of [initialize] that throws, if
    one does. *)
Inductive sdk_failure : Type :=
| NoFailure
| ConstructorThrows
| InitThrows
| GameReadyToPlayThrows.

(** [initialize]: the [try] block runs up to the call that throws; the
    [catch] block logs the error and calls [handleInitError]. *)
Definition initialize (f : sdk_failure) (m : OGPManager) : OGPManager * list action :=
  match f with
  | ConstructorThrows =>
      (m, [LogInfo; SdkConstruct; LogError] ++ handleInitError)
  | InitThrows =>
      (mkOGPManager (Some sdk_object) (isInitialized m),
       [LogInfo; SdkConstruct; SdkInit; LogError] ++ handleInitError)
  | GameReadyToPlayThrows =>
      (mkOGPManager (Some sdk_object) (isInitialized m),
       [LogInfo; SdkConstruct; SdkInit; SdkGameReadyToPlay; LogError] ++ handleInitError)
  | NoFailure =>
      (mkOGPManager (Some sdk_object) (isInitialized m),
       [LogInfo; SdkConstruct; SdkInit; SdkGameReadyToPlay])
  end.

(** The handlers [.then(...).catch(...)] are attached once [ogp.init] has
    returned its promise. *)
Definition init_chained (f : sdk_failure) : bool :=
  match f with
  | NoFailure | GameReadyToPlayThrows => true
  | ConstructorThrows | InitThrows => false
  end.

(** [setupListeners]; [on_throws] tells whether [ogp.on] throws. *)
Definition setupListeners (on_throws : bool) (m : OGPManager) : completion * list action :=
  match ogp m with
  | None => (Thrown, [])
  | Some _ => (if on_throws then Thrown else Returned, [SdkOnReadyListener])
  end.

(** How the promise of [ogp.init] settles. *)
Inductive init_outcome : Type :=
| InitResolved (on_throws : bool)
| InitRejected.

(** The handlers of the promise chain: the [then] handler on success, and
    the [catch] handler on rejection or when the [then] handler throws. *)
Definition init_settled (o : init_outcome) (m : OGPManager) : OGPManager * list action :=
  match o with
  | InitResolved on_throws =>
      let m1 := mkOGPManager (ogp m) true in
      (m1,
       [LogInfo] ++ snd (setupListeners on_throws m1)
       ++ match fst (setupListeners on_throws m1) with
          | Returned => []
          | Thrown => [LogError] ++ handleInitError
          end)
  | InitRejected => (m, [LogError] ++ handleInitError)
  end.

(** The listener of the SDK's [OnReady] event. *)
Definition onReady : list action := [LogInfo; DomShowStartScreen].

(** [new OGPManager()], and the promise of [ogp.init] settling afterwards
    ([None]: it has not settled). *)
Definition constructor (f : sdk_failure) : OGPManager * list action :=
  initialize f (mkOGPManager None false).

Definition page_load (f : sdk_failure) (o : option init_outcome) : OGPManager * list action :=
  match o with
  | Some o' =>
      if init_chained f
      then (fst (init_settled o' (fst (constructor f))),
            snd (constructor f) ++ snd (init_settled o' (fst (constructor f))))
      else constructor f
  | None => constructor f
  end.

(** Initialization failed: a call threw, or the promise was rejected. *)
Definition init_failed (f : sdk_failure) (o : option init_outcome) : bool :=
  match f with
  | NoFailure =>
      match o with
      | Some (InitResolved on_throws) => on_throws
      | Some InitRejected => true
      | None => false
      end
  | _ => true
  end.

Definition addPoints (m : OGPManager) (points : float) : completion * list action :=
  match ogp m with
  | None => (Thrown, [LogInfo])                  (* this.ogp.ui: this.ogp is null *)
  | Some _ => (Returned, [LogInfo; SdkUiAddPoints points])
  end.

Definition saveScore (m : OGPManager) (points : float) : completion * list action :=
  if negb (isInitialized m) || (points <=? 0)
  then (Returned, [])                            (* return Promise.resolve() *)
  else match ogp m with
       | None => (Thrown, [])
       | Some _ => (Returned, [SdkSavePoints points])
       end.

(** *** FlappyBirdGame, with the manager it was constructed with

    The methods that reach the manager, written again over computations
    that may throw; the others are those of [Enhanced]. *)

Definition X : Type := gameState -> completion * gameState * list action.

Definition lift (m : M unit) : X :=
  fun g => (Returned, state_of (m g), map Game (log_of (m g))).

Definition and_then (x1 x2 : X) : X :=
  fun g =>
    match x1 g with
    | (Returned, g1, l1) => let '(c, g2, l2) := x2 g1 in (c, g2, l1 ++ l2)
    | (Thrown, g1, l1) => (Thrown, g1, l1)
    end.

Definition on_manager (r : completion * list action) : X :=
  fun g => (fst r, g, snd r).

Definition when (c : gameState -> bool) (x1 x2 : X) : X :=
  fun g => if c g then x1 g else x2 g.

Notation "x1 >> x2" := (and_then x1 x2) (at level 61, right associativity).

Definition completion_of (r : completion * gameState * list action) : completion :=
  fst (fst r).
Definition final_state (r : completion * gameState * list action) : gameState :=
  snd (fst r).
Definition actions_of (r : completion * gameState * list action) : list action := snd r.

Definition updateObstaclePassed (m : OGPManager) (rnd : float) : X :=
  when obstaclePassed
    (lift (resetObstacle rnd) >>
     lift (modify (fun g => set_score (score g + 1) g)) >>
     on_manager (addPoints m 1))
    (lift skip).

Definition endGame (m : OGPManager) : X :=
  lift (modify (set_gameRunning false)) >>
  lift (branch (fun g => truthy_handle (animationFrameId g))
          (fun g =>
             (match animationFrameId g with
              | Some id => call (CancelAnimationFrame id)
              | None => skip
              end ;;
              modify (set_animationFrameId None)) g)
          skip) >>
  lift (fun g => call (DomRoundScore (score g)) g) >>
  lift (call DomShowGameOverScreen) >>
  when (fun g => gt (score g) 0)
    (fun g => on_manager (saveScore m (score g)) g)
    (lift skip).

Definition checkCollisions (m : OGPManager) : X :=
  when hitGroundOrCeiling
    (endGame m)
    (when hitObstacle (endGame m) (lift skip)).

Definition update (m : OGPManager) (rnd : float) : X :=
  lift updateBirdPosition >>
  lift updateBirdRotation >>
  lift updateObstaclePosition >>
  updateObstaclePassed m rnd >>
  lift updateAnimation >>
  checkCollisions m.

Definition gameLoop (m : OGPManager) (rnd : float) (handle : Z) : X :=
  when (fun g => negb (gameRunning g))
    (lift skip)
    (update m rnd >>
     lift render >>
     lift (call RequestAnimationFrame) >>
     lift (modify (set_animationFrameId (Some handle)))).

Definition startGame (m : OGPManager) (rnd0 rnd : float) (handle : Z) : X :=
  lift (resetRound rnd0) >>
  gameLoop m rnd handle.

(** *** The page

    An event of the page is an event of the game, handled by a listener
    of [setupEventListeners] or by the frame callback, or the settling of
    the promise of [ogp.init], whose handlers change the manager.  That
    promise exists if [ogp.init] has returned it, and it settles once.
    (The SDK's [OnReady] event, whose listener shows the start screen, is
    left out: it touches neither the manager nor [gameState].)

    An exception that leaves a handler ends that handler and nothing
    else: [gameState] keeps what the handler had assigned, and the next
    event is handled from there. *)
Definition dispatch (m : OGPManager) (e : event) : X :=
  match e with
  | FrameTick rnd handle => gameLoop m rnd handle
  | FlapInput => lift flap
  | StartButton rnd0 rnd handle => startGame m rnd0 rnd handle
  | SaveSettled o => lift (saveScore_settled o)
  end.

Inductive page_event : Type :=
| OfGame (e : event)
| InitSettled (o : init_outcome).

Record page : Type := mkPage {
  manager : OGPManager;            (* the [ogpManager] of the load handler *)
  init_pending : bool;             (* the promise of [ogp.init] has not settled *)
  state : gameState                (* the global [gameState] *)
}.

(** The load handler: [new OGPManager()], then
    [new FlappyBirdGame(ogpManager)]. *)
Definition loaded (f : sdk_failure) (rnd : float) : page :=
  mkPage (fst (constructor f)) (init_chained f)
    (state_of (EnhancedSession.constructor rnd initialGameState)).

Definition on_event (e : page_event) (p : page) : page * list action :=
  match e with
  | OfGame e' =>
      let r := dispatch (manager p) e' (state p) in
      (mkPage (manager p) (init_pending p) (final_state r), actions_of r)
  | InitSettled o =>
      if init_pending p
      then let s := init_settled o (manager p) in
           (mkPage (fst s) false (state p), snd s)
      else (p, [])
  end.

Fixpoint run (es : list page_event) (p : page) : page * list action :=
  match es with
  | [] => (p, [])
  | e :: es' =>
      let r := on_event e p in
      let r' := run es' (fst r) in
      (fst r', snd r ++ snd r')
  end.

(** The page once it has loaded and the events [es] have been handled. *)
Definition session (f : sdk_failure) (rnd0 : float) (es : list page_event) : page :=
  fst (run es (loaded f rnd0)).

(** *** Notions used in the statements below *)

(** The events of the game among the events of a page. *)
Definition game_events (es : list page_event) : list event :=
  flat_map (fun e => match e with OfGame e' => [e'] | InitSettled _ => [] end) es.

(** The manager of a page on which [new OpenGameSDK(...)] threw:
    [this.ogp] is still [null]. *)
Definition manager_without_sdk : OGPManager := fst (page_load ConstructorThrows None).

(** The manager of a page on which the initialization succeeded. *)
Definition manager_with_sdk : OGPManager :=
  fst (page_load NoFailure (Some (InitResolved false))).

(** Two rounds of 225 frames, which end as the first obstacle reaches
    [-obstacleWidth].  In the first the player flaps before the frames 59
    and 61 and then lets the bird fall: it passes the gap and is just
    above the ground.  In the second the player flaps before the frames
    30, 82, 157, 164 and 205: the bird passes the gap and is just below
    the top edge of the canvas.  ([Math.random()] returns 0.8 and 0 in
    [startGame].) *)
Definition round_to_the_ground : list event :=
  StartButton 0.8 0.5 1
  :: EnhancedSession.frames_and_flaps [57; 2; 165]%nat.

Definition round_to_the_ceiling : list event :=
  StartButton 0 0.5 1
  :: EnhancedSession.frames_and_flaps [28; 52; 75; 7; 41; 21]%nat.

(** The state the events [es] of the game leave on a page whose SDK
    constructor threw, and on a page whose initialization succeeded before
    the first of them. *)
Definition played (es : list event) : gameState :=
  state (session ConstructorThrows 0.5 (map OfGame es)).

Definition played_with_sdk (es : list event) : gameState :=
  state (session NoFailure 0.5 (InitSettled (InitResolved false) :: map OfGame es)).

(** A manager as [page_load] leaves it: initialized only with an SDK object. *)
Definition manager_ok (m : OGPManager) : Prop :=
  isInitialized m = true -> ogp m = Some sdk_object.

(** A page as the load handler and the events leave it: the promise of
    [ogp.init] is pending only with an SDK object. *)
Definition page_ok (p : page) : Prop :=
  manager_ok (manager p) /\
  (init_pending p = true -> ogp (manager p) = Some sdk_object).

(** The calls of a log of [Enhanced], with each call on the manager
    replaced by what the manager does on it. *)
Definition manager_calls (m : OGPManager) (e : effect) : list action :=
  match e with
  | OgpAddPoints p => snd (addPoints m p)
  | OgpSaveScore p => snd (saveScore m p)
  | _ => [Game e]
  end.

Definition expand (m : OGPManager) (l : list effect) : list action :=
  flat_map (manager_calls m) l.

(** The [ogp.savePoints] calls of a log, with their arguments. *)
Definition savePoints_calls (l : list action) : list float :=
  flat_map (fun c => match c with SdkSavePoints p => [p] | _ => [] end) l.

(** The state in which [addPoints] is called when the obstacle has
    passed: the bird and the obstacle have moved, the obstacle has been
    regenerated and the score incremented. *)
Definition atAddPoints (rnd : float) (g : gameState) : gameState :=
  state_of ((updateBirdPosition ;; updateBirdRotation ;; updateObstaclePosition ;;
             resetObstacle rnd ;; modify (fun g => set_score (score g + 1) g)) g).

End EnhancedSdk.

(** ** A session of the plain variant *)

Module BasicSession.

Import JS Basic.

(** The [FlappyBirdGame] constructor of [game.js]: the listeners, then
    [resetObstacle()]. *)
Definition constructor (rnd : float) : M unit := resetObstacle rnd.

Definition in_unit_interval (r : float) : bool := (0 <=? r) && (r <? 1).

Definition random_ok (e : event) : bool :=
  match e with
  | FrameTick rnd _ => in_unit_interval rnd
  | StartButton rnd0 rnd _ => in_unit_interval rnd0 && in_unit_interval rnd
  | _ => true
  end.

Definition session (rnd0 : float) (es : list event) : gameState :=
  state_of (run es (state_of (constructor rnd0 initialGameState))).

Definition cancel_calls (l : list effect) : list Z :=
  flat_map (fun e => match e with CancelAnimationFrame id => [id] | _ => [] end) l.

Definition on_track (g : gameState) : Prop :=
  exists k, (k <= 225)%nat /\ obstacleX g = obstacleAfter k.

Definition velocityAfter (v0 : float) (k : nat) : float :=
  Nat.iter k (fun v => Math_min (v + CONFIG.gravity) CONFIG.maxVelocity) v0.

Definition velocity_on_track (g : gameState) : Prop :=
  exists k, (k <= 161)%nat /\
    (birdVelocity g = velocityAfter 0 k \/
     birdVelocity g = velocityAfter (- CONFIG.jumpStrength) k).

Definition gap_top_ok (g : gameState) : Prop :=
  gap g = CONFIG.gapSize /\
  (50 <=? obstacleHeight g) = true /\
  (obstacleHeight g <=? CONFIG.canvasHeight - CONFIG.gapSize - 50) = true.

Definition clear_of_obstacle (g : gameState) : Prop :=
  gameRunning g = true -> hitObstacle g = false.

(** The total of the last answer to [getPoints] among the events [es],
    or [d] if there is none. *)
Definition last_total (es : list event) (d : float) : float :=
  fold_left (fun acc e => match e with PointsFetched response => response | _ => acc end)
    es d.

(** What the handlers of the rewards promises do to the outside: console
    output, a request for the total, and the display of the total. *)
Definition is_rewards_output (e : effect) : Prop :=
  match e with
  | ConsoleLog | ConsoleError | OgpGetPoints | DomOgpPoints _ => True
  | _ => False
  end.

(** *** What [render] draws

    The calls of [render()] on the canvas context, for the state it
    reads. *)
Inductive colour : Type :=
| birdColor               (* CONFIG.birdColor *)
| obstacleColor           (* CONFIG.obstacleColor *)
| white.                  (* 'white' *)

Inductive canvas_call : Type :=
| ClearRect (x y w h : float)
| FillStyle (c : colour)
| FillRect (x y w h : float)
| Font                                  (* ctx.font = '24px Arial' *)
| TextAlignLeft                         (* ctx.textAlign = 'left' *)
| FillScore (score x y : float).        (* ctx.fillText(`Score: ${score}`, x, y) *)

Definition render_calls (g : gameState) : list canvas_call :=
  [ClearRect 0 0 CONFIG.canvasWidth CONFIG.canvasHeight;
   FillStyle birdColor;
   FillRect CONFIG.birdX (birdY g) CONFIG.birdWidth CONFIG.birdHeight;
   FillStyle obstacleColor;
   FillRect (obstacleX g) 0 CONFIG.obstacleWidth (obstacleHeight g);
   FillRect (obstacleX g) (obstacleHeight g + gap g) CONFIG.obstacleWidth
     (CONFIG.canvasHeight - obstacleHeight g - gap g);
   FillStyle white;
   Font;
   TextAlignLeft;
   FillScore (score g) 10 30].

(** Rectangles [(x, y, w, h)], as [clearRect] and [fillRect] take them. *)
Record rect : Type := mkRect { rx : float; ry : float; rw : float; rh : float }.

Definition filled (l : list canvas_call) : list rect :=
  flat_map (fun c => match c with FillRect x y w h => [mkRect x y w h] | _ => [] end) l.

Definition cleared (l : list canvas_call) : list rect :=
  flat_map (fun c => match c with ClearRect x y w h => [mkRect x y w h] | _ => [] end) l.

(** Two rectangles have a point in common (edges do not count). *)
Definition overlap (a b : rect) : bool :=
  lt (rx a) (rx b + rw b) && lt (rx b) (rx a + rw a)
  && lt (ry a) (ry b + rh b) && lt (ry b) (ry a + rh a).

(** [a] does not stick out of [b] above or below. *)
Definition within_height (a b : rect) : bool :=
  (ry b <=? ry a) && (ry a + rh a <=? ry b + rh b).

End BasicSession.

(** ** The rewards manager of the plain variant

    As for the other variant, with the two differences of [game.js]: the
    manager has no [addPoints], and it fetches the player's total with
    [updateTotalOgpPoints], once the initialization has succeeded and after
    every successful save. *)

Module BasicSdk.

Import JS Basic.

Inductive OpenGameSDK : Type := sdk_object.

Record OGPManager : Type := mkOGPManager {
  ogp : option OpenGameSDK;
  isInitialized : bool
}.

Inductive action : Type :=
| Game (e : effect)                 (* a call of the game, as in [Basic] *)
| SdkConstruct                      (* new OpenGameSDK({...}) *)
| SdkInit                           (* this.ogp.init({...}) *)
| SdkGameReadyToPlay                (* this.ogp.gameReadyToPlay() *)
| SdkOnReadyListener                (* this.ogp.on('OnReady', ...) *)
| SdkOnSavePointsSuccessListener    (* this.ogp.on('SavePointsSuccess', ...) *)
| SdkSavePoints (points : float)    (* this.ogp.savePoints(points) *)
| SdkGetPoints                      (* this.ogp.getPoints() *)
| LogInfo                           (* console.log(...) *)
| LogError                          (* console.error(...) *)
| DomShowStartScreen.               (* DOM.startScreen.style.display = 'block' *)

Inductive completion : Type :=
| Returned
| Thrown.

Definition handleInitError : list action := [DomShowStartScreen].

Inductive sdk_failure : Type :=
| NoFailure
| ConstructorThrows
| InitThrows
| GameReadyToPlayThrows.

Definition initialize (f : sdk_failure) (m : OGPManager) : OGPManager * list action :=
  match f with
  | ConstructorThrows =>
      (m, [LogInfo; SdkConstruct; LogError] ++ handleInitError)
  | InitThrows =>
      (mkOGPManager (Some sdk_object) (isInitialized m),
       [LogInfo; SdkConstruct; SdkInit; LogError] ++ handleInitError)
  | GameReadyToPlayThrows =>
      (mkOGPManager (Some sdk_object) (isInitialized m),
       [LogInfo; SdkConstruct; SdkInit; SdkGameReadyToPlay; LogError] ++ handleInitError)
  | NoFailure =>
      (mkOGPManager (Some sdk_object) (isInitialized m),
       [LogInfo; SdkConstruct; SdkInit; SdkGameReadyToPlay])
  end.

Definition init_chained (f : sdk_failure) : bool :=
  match f with
  | NoFailure | GameReadyToPlayThrows => true
  | ConstructorThrows | InitThrows => false
  end.

(** The [ogp.on] call of [setupListeners] that throws, if one does. *)
Inductive listener_failure : Type :=
| NoListenerFailure
| OnReadyThrows
| OnSavePointsSuccessThrows.

Definition setupListeners (lf : listener_failure) (m : OGPManager)
    : completion * list action :=
  match ogp m with
  | None => (Thrown, [])
  | Some _ =>
      match lf with
      | OnReadyThrows => (Thrown, [SdkOnReadyListener])
      | OnSavePointsSuccessThrows =>
          (Thrown, [SdkOnReadyListener; SdkOnSavePointsSuccessListener])
      | NoListenerFailure =>
          (Returned, [SdkOnReadyListener; SdkOnSavePointsSuccessListener])
      end
  end.

Definition saveScore (m : OGPManager) (points : float) : completion * list action :=
  if negb (isInitialized m) || (points <=? 0)
  then (Returned, [])                            (* return Promise.resolve() *)
  else match ogp m with
       | None => (Thrown, [])
       | Some _ => (Returned, [SdkSavePoints points])
       end.

Definition updateTotalOgpPoints (m : OGPManager) : completion * list action :=
  if negb (isInitialized m)
  then (Returned, [])                            (* return Promise.resolve() *)
  else match ogp m with
       | None => (Thrown, [])
       | Some _ => (Returned, [SdkGetPoints])
       end.

Inductive init_outcome : Type :=
| InitResolved (lf : listener_failure)
| InitRejected.

(** The [then] handler sets [isInitialized], sets up the listeners and
    asks for the total; the [catch] handler runs on rejection and when the
    [then] handler throws. *)
Definition init_settled (o : init_outcome) (m : OGPManager) : OGPManager * list action :=
  match o with
  | InitResolved lf =>
      let m1 := mkOGPManager (ogp m) true in
      (m1,
       [LogInfo] ++ snd (setupListeners lf m1)
       ++ match fst (setupListeners lf m1) with
          | Returned =>
              snd (updateTotalOgpPoints m1)
              ++ match fst (updateTotalOgpPoints m1) with
                 | Returned => []
                 | Thrown => [LogError] ++ handleInitError
                 end
          | Thrown => [LogError] ++ handleInitError
          end)
  | InitRejected => (m, [LogError] ++ handleInitError)
  end.

(** The listeners of the SDK's events. *)
Definition onReady : list action := [LogInfo; DomShowStartScreen].

Definition onSavePointsSuccess (m : OGPManager) : completion * list action :=
  (fst (updateTotalOgpPoints m), [LogInfo] ++ snd (updateTotalOgpPoints m)).

Definition constructor (f : sdk_failure) : OGPManager * list action :=
  initialize f (mkOGPManager None false).

Definition page_load (f : sdk_failure) (o : option init_outcome) : OGPManager * list action :=
  match o with
  | Some o' =>
      if init_chained f
      then (fst (init_settled o' (fst (constructor f))),
            snd (constructor f) ++ snd (init_settled o' (fst (constructor f))))
      else constructor f
  | None => constructor f
  end.

(** *** FlappyBirdGame, with the manager it was constructed with *)

Definition X : Type := gameState -> completion * gameState * list action.

Definition lift (m : M unit) : X :=
  fun g => (Returned, state_of (m g), map Game (log_of (m g))).

Definition and_then (x1 x2 : X) : X :=
  fun g =>
    match x1 g with
    | (Returned, g1, l1) => let '(c, g2, l2) := x2 g1 in (c, g2, l1 ++ l2)
    | (Thrown, g1, l1) => (Thrown, g1, l1)
    end.

Definition on_manager (r : completion * list action) : X :=
  fun g => (fst r, g, snd r).

Definition when (c : gameState -> bool) (x1 x2 : X) : X :=
  fun g => if c g then x1 g else x2 g.

Notation "x1 >> x2" := (and_then x1 x2) (at level 61, right associativity).

Definition completion_of (r : completion * gameState * list action) : completion :=
  fst (fst r).
Definition final_state (r : completion * gameState * list action) : gameState :=
  snd (fst r).
Definition actions_of (r : completion * gameState * list action) : list action := snd r.

Definition endGame (m : OGPManager) : X :=
  lift (modify (set_gameRunning false)) >>
  lift (branch (fun g => truthy_handle (animationFrameId g))
          (fun g =>
             (match animationFrameId g with
              | Some id => call (CancelAnimationFrame id)
              | None => skip
              end ;;
              modify (set_animationFrameId None)) g)
          skip) >>
  lift (fun g => call (DomFinalScore (score g)) g) >>
  lift (fun g => call (DomOgpPoints (ogpPoints g)) g) >>
  lift (call DomShowGameOverScreen) >>
  when (fun g => gt (score g) 0)
    (fun g => on_manager (saveScore m (score g)) g)
    (lift skip).

Definition checkCollisions (m : OGPManager) : X :=
  when hitGroundOrCeiling
    (endGame m)
    (when hitObstacle (endGame m) (lift skip)).

Definition update (m : OGPManager) (rnd : float) : X :=
  lift (modify (fun g =>
    set_birdVelocity (Math_min (birdVelocity g + CONFIG.gravity) CONFIG.maxVelocity) g)) >>
  lift (modify (fun g => set_birdY (birdY g + birdVelocity g) g)) >>
  lift (modify (fun g => set_obstacleX (obstacleX g - CONFIG.obstacleSpeed) g)) >>
  lift (branch obstaclePassed
          (resetObstacle rnd ;;
           modify (fun g => set_score (score g + 1) g))
          skip) >>
  checkCollisions m.

Definition gameLoop (m : OGPManager) (rnd : float) (handle : Z) : X :=
  when (fun g => negb (gameRunning g))
    (lift skip)
    (update m rnd >>
     lift render >>
     lift (call RequestAnimationFrame) >>
     lift (modify (set_animationFrameId (Some handle)))).

(** *** Notions used in the statements below *)

Definition manager_ok (m : OGPManager) : Prop :=
  isInitialized m = true -> ogp m = Some sdk_object.

Definition manager_calls (m : OGPManager) (e : effect) : list action :=
  match e with
  | OgpSaveScore p => snd (saveScore m p)
  | _ => [Game e]
  end.

Definition expand (m : OGPManager) (l : list effect) : list action :=
  flat_map (manager_calls m) l.

Definition savePoints_calls (l : list action) : list float :=
  flat_map (fun c => match c with SdkSavePoints p => [p] | _ => [] end) l.

End BasicSdk.

(** Real values of mantissa-exponent pairs, to compare what rounding
    returns with the exact result. *)
Definition bpow (e : Z) : R := powerRZ 2 e.
Definition F2R (m e : Z) : R := (IZR m * bpow e)%R.

(** The value kept by a finite or zero result, sign apart. *)
Definition SFmag (x : spec_float) : R :=
  match x with
  | S754_finite _ m e => F2R (Z.pos m) e
  | _ => 0%R
  end.

(** A finite number: a zero, a subnormal or a normal value. *)
Definition SFis_finite (x : spec_float) : bool :=
  match x with S754_zero _ | S754_finite _ _ _ => true | _ => false end.

(** ** Facts about binary64 arithmetic

    Derived from the specification of the primitive operations
    ([SpecFloat]): comparison is a total order away from NaN, and a rounded
    sum is never NaN unless an operand is NaN or two infinities cancel. *)

Section FloatFacts.

Lemma SFcompare_antisym x y :
  SFcompare y x = option_map CompOpp (SFcompare x y).
Proof.
  destruct x as [sx|sx| |sx mx ex], y as [sy|sy| |sy my ey]; simpl; try reflexivity;
    try (destruct sx; reflexivity); try (destruct sy; reflexivity);
    try (destruct sx, sy; reflexivity).
  destruct sx, sy; simpl; try reflexivity.
  - rewrite (Z.compare_antisym ex ey).
    destruct (ex ?= ey)%Z; simpl; try reflexivity.
    now rewrite (Pos.compare_cont_antisym mx my Eq).
  - rewrite (Z.compare_antisym ex ey).
    destruct (ex ?= ey)%Z; simpl; try reflexivity.
    rewrite (Pos.compare_cont_antisym mx my Eq). simpl.
    now destruct (Pos.compare_cont Eq my mx).
Qed.

Lemma SFcompare_refl x : x <> S754_nan -> SFcompare x x = Some Eq.
Proof.
  destruct x as [s|s| |s m e]; simpl; intros H; try congruence.
  - now destruct s.
  - rewrite Z.compare_refl. fold (Pos.compare m m). rewrite Pos.compare_refl. now destruct s.
Qed.

Lemma SFcompare_nan_iff x y :
  SFcompare x y = None <-> x = S754_nan \/ y = S754_nan.
Proof.
  destruct x as [sx|sx| |sx mx ex], y as [sy|sy| |sy my ey]; simpl; split; intros H;
   try discriminate; try reflexivity; try (now left); try (now right); try (destruct H; discriminate).
Qed.

Lemma iter_pos_invariant {A} (P : A -> Prop) (f : A -> A) :
  (forall x, P x -> P (f x)) -> forall p x, P x -> P (SpecFloat.iter_pos f p x).
Proof.
  intros Hf. induction p as [p IH|p IH|]; simpl; intros x Hx; auto.
Qed.

Lemma shr_1_nonneg mrs : (0 <= shr_m mrs)%Z -> (0 <= shr_m (shr_1 mrs))%Z.
Proof.
  destruct mrs as [[|[p|p|]|p] r s]; simpl; lia.
Qed.

Lemma shr_nonneg mrs e n :
  (0 <= shr_m mrs)%Z -> (0 <= shr_m (fst (shr mrs e n)))%Z.
Proof.
  intros H. destruct n as [|p|p]; simpl; auto.
  apply (iter_pos_invariant (fun r => (0 <= shr_m r)%Z)); auto using shr_1_nonneg.
Qed.

Lemma shr_record_of_loc_m m l : shr_m (shr_record_of_loc m l) = m.
Proof. destruct l as [|[| |]]; reflexivity. Qed.

Lemma round_nearest_even_nonneg m l :
  (0 <= m)%Z -> (0 <= round_nearest_even m l)%Z.
Proof.
  intros H. destruct l as [|[| |]]; simpl; try lia.
  destruct (Z.even m); lia.
Qed.

Lemma binary_round_aux_not_nan s m e l :
  (0 <= m)%Z -> binary_round_aux prec emax s m e l <> S754_nan.
Proof.
  intros Hm. unfold binary_round_aux.
  destruct (shr_fexp prec emax m e l) as [mrs' e'] eqn:E1.
  destruct (shr_fexp prec emax (round_nearest_even (shr_m mrs') (loc_of_shr_record mrs')) e' loc_Exact)
    as [mrs'' e''] eqn:E2.
  assert (H1 : (0 <= shr_m mrs')%Z).
  { change mrs' with (fst (mrs', e')). rewrite <- E1. unfold shr_fexp.
    apply shr_nonneg. now rewrite shr_record_of_loc_m. }
  assert (H2 : (0 <= shr_m mrs'')%Z).
  { change mrs'' with (fst (mrs'', e'')). rewrite <- E2. unfold shr_fexp.
    apply shr_nonneg. rewrite shr_record_of_loc_m.
    now apply round_nearest_even_nonneg. }
  destruct (shr_m mrs'') as [|p|p]; try discriminate.
  - destruct (e'' <=? emax - prec)%Z; discriminate.
  - lia.
Qed.

Lemma binary_normalize_not_nan m e sz :
  binary_normalize prec emax m e sz <> S754_nan.
Proof.
  destruct m as [|p|p]; simpl; try discriminate; unfold binary_round;
    destruct (shl_align _ _ _) as [mz ez]; apply binary_round_aux_not_nan; lia.
Qed.

Lemma SF64add_not_nan_l x y :
  x <> S754_nan -> SFis_finite y = true -> SF64add x y <> S754_nan.
Proof.
  intros Hx Hy. unfold SF64add, SFadd.
  destruct x as [sx|sx| |sx mx ex], y as [sy|sy| |sy my ey]; try discriminate; try congruence.
  - destruct sx, sy; discriminate.
  - apply binary_normalize_not_nan.
Qed.

Lemma SF64add_not_nan_r x y :
  SFis_finite x = true -> y <> S754_nan -> SF64add x y <> S754_nan.
Proof.
  intros Hx Hy. unfold SF64add, SFadd.
  destruct x as [sx|sx| |sx mx ex], y as [sy|sy| |sy my ey]; try discriminate; try congruence.
  - destruct sx, sy; discriminate.
  - apply binary_normalize_not_nan.
Qed.

(** The same facts on primitive floats. *)
Lemma is_nan_spec x : is_nan x = true <-> Prim2SF x = S754_nan.
Proof.
  unfold is_nan. rewrite FloatAxioms.eqb_spec. unfold SFeqb.
  destruct (Prim2SF x) as [s|s| |s m e] eqn:E.
  - simpl. split; discriminate.
  - destruct s; simpl; split; discriminate.
  - simpl. split; reflexivity.
  - rewrite SFcompare_refl by discriminate. simpl. split; discriminate.
Qed.

Lemma is_nan_false x : is_nan x = false <-> Prim2SF x <> S754_nan.
Proof.
  rewrite <- is_nan_spec. destruct (is_nan x); split; congruence.
Qed.

Lemma leb_not_nan x y : (x <=? y) = true -> is_nan x = false /\ is_nan y = false.
Proof.
  rewrite FloatAxioms.leb_spec. unfold SFleb. intros H.
  rewrite !is_nan_false.
  destruct (SFcompare (Prim2SF x) (Prim2SF y)) eqn:E; try discriminate.
  split; intros C; rewrite C in E.
  - discriminate.
  - destruct (Prim2SF x); discriminate.
Qed.

Lemma ltb_leb x y : (x <? y) = true -> (x <=? y) = true.
Proof.
  rewrite FloatAxioms.ltb_spec, FloatAxioms.leb_spec. unfold SFltb, SFleb.
  now destruct (SFcompare (Prim2SF x) (Prim2SF y)) as [[| |]|].
Qed.

Lemma ltb_false_leb x y :
  is_nan x = false -> is_nan y = false -> (x <? y) = false -> (y <=? x) = true.
Proof.
  rewrite !is_nan_false, FloatAxioms.ltb_spec, FloatAxioms.leb_spec. unfold SFltb, SFleb.
  intros Hx Hy. rewrite (SFcompare_antisym (Prim2SF x) (Prim2SF y)).
  destruct (SFcompare (Prim2SF x) (Prim2SF y)) as [[| |]|] eqn:E; simpl; try congruence.
  apply SFcompare_nan_iff in E. tauto.
Qed.

Lemma leb_ltb_false x y : (x <=? y) = true -> (y <? x) = false.
Proof.
  rewrite FloatAxioms.ltb_spec, FloatAxioms.leb_spec. unfold SFltb, SFleb.
  rewrite (SFcompare_antisym (Prim2SF x) (Prim2SF y)).
  now destruct (SFcompare (Prim2SF x) (Prim2SF y)) as [[| |]|].
Qed.

Lemma leb_refl x : is_nan x = false -> (x <=? x) = true.
Proof.
  rewrite is_nan_false, FloatAxioms.leb_spec. unfold SFleb. intros H.
  now rewrite SFcompare_refl.
Qed.

Lemma add_not_nan_l x y :
  is_nan x = false -> SFis_finite (Prim2SF y) = true -> is_nan (x + y) = false.
Proof.
  rewrite !is_nan_false, add_spec. apply SF64add_not_nan_l.
Qed.

Lemma add_not_nan_r x y :
  SFis_finite (Prim2SF x) = true -> is_nan y = false -> is_nan (x + y) = false.
Proof.
  rewrite !is_nan_false, add_spec. apply SF64add_not_nan_r.
Qed.

Lemma is_nan_eq x : is_nan x = true -> x = nan.
Proof.
  intros H. apply is_nan_spec in H. apply Prim2SF_inj. now rewrite H.
Qed.

Lemma finite_not_nan c s m e : Prim2SF c = S754_finite s m e -> is_nan c = false.
Proof. intros H. apply is_nan_false. rewrite H. discriminate. Qed.

Lemma ltb_nan_l x y : is_nan x = true -> (x <? y) = false.
Proof.
  intros H. apply is_nan_spec in H. rewrite FloatAxioms.ltb_spec, H. reflexivity.
Qed.

Lemma ltb_nan_r x y : is_nan y = true -> (x <? y) = false.
Proof.
  intros H. apply is_nan_spec in H. rewrite FloatAxioms.ltb_spec, H.
  unfold SFltb. now destruct (Prim2SF x).
Qed.

Lemma ltb_asym x y : (x <? y) = true -> (y <? x) = false.
Proof. intros H. apply leb_ltb_false. now apply ltb_leb. Qed.

(** Two numbers neither of which is smaller, one of them finite and not
    zero, are the same number. *)
Lemma ltb_neither_eq x c s m e :
  is_nan x = false ->
  Prim2SF c = S754_finite s m e ->
  (x <? c) = false -> (c <? x) = false -> x = c.
Proof.
  intros Hx Hc H1 H2. apply is_nan_false in Hx.
  rewrite FloatAxioms.ltb_spec in H1, H2. unfold SFltb in H1, H2.
  rewrite (SFcompare_antisym (Prim2SF x) (Prim2SF c)) in H2.
  apply Prim2SF_inj. rewrite Hc in *.
  destruct (Prim2SF x) as [sx|sx| |sx mx ex]; try congruence.
  - destruct s; discriminate.
  - destruct sx; discriminate.
  - cbn [SFcompare option_map] in H1, H2.
    destruct sx, s; try discriminate.
    + destruct (Z.compare_spec ex e); try discriminate. subst ex.
      change (Pos.compare_cont Eq mx m) with (Pos.compare mx m) in *.
      destruct (Pos.compare_spec mx m); try discriminate. now subst.
    + destruct (Z.compare_spec ex e); try discriminate. subst ex.
      change (Pos.compare_cont Eq mx m) with (Pos.compare mx m) in *.
      destruct (Pos.compare_spec mx m); try discriminate. now subst.
Qed.

End FloatFacts.

(** ** Rounding is monotone

    What the properties below need of binary64 rounding: a product or a sum that is
    exactly below (above) a representable bound stays below (above) it
    after rounding.  The reals serve to state the exact results. *)

Section Rounding.

#[local] Open Scope R_scope.

(** The number of binary digits of a mantissa. *)
Lemma digits2_pos_size p : digits2_pos p = Pos.size p.
Proof. induction p; simpl; congruence. Qed.

Lemma digits2_bounds p :
  (2 ^ (Z.pos (digits2_pos p) - 1) <= Z.pos p < 2 ^ Z.pos (digits2_pos p))%Z.
Proof.
  rewrite digits2_pos_size. split.
  - pose proof (Pos.size_le p) as H.
    assert (H' : (2 ^ Z.pos (Pos.size p) <= 2 * Z.pos p)%Z).
    { rewrite <- Pos2Z.inj_pow. change (2 * Z.pos p)%Z with (Z.pos p~0). now apply Pos2Z.pos_le_pos. }
    replace (Z.pos (Pos.size p)) with (Z.succ (Z.pos (Pos.size p) - 1)) in H' by lia.
    rewrite Z.pow_succ_r in H' by lia. lia.
  - pose proof (Pos.size_gt p) as H.
    rewrite <- Pos2Z.inj_pow. now apply Pos2Z.pos_lt_pos.
Qed.

Lemma shr_1_m mrs : (0 <= shr_m mrs)%Z -> shr_m (shr_1 mrs) = (shr_m mrs / 2)%Z.
Proof.
  destruct mrs as [[|[p|p|]|p] r s]; simpl; intros H; try lia.
  - reflexivity.
  - rewrite Pos2Z.inj_xI. apply (Z.div_unique _ 2 _ 1); lia.
  - rewrite Pos2Z.inj_xO. apply (Z.div_unique _ 2 _ 0); lia.
  - reflexivity.
Qed.

Lemma iter_shr_1_m p : forall mrs,
  (0 <= shr_m mrs)%Z ->
  (0 <= shr_m (SpecFloat.iter_pos shr_1 p mrs))%Z /\
  shr_m (SpecFloat.iter_pos shr_1 p mrs) = (shr_m mrs / 2 ^ Z.pos p)%Z.
Proof.
  induction p as [p IH|p IH|]; intros mrs H; cbn [SpecFloat.iter_pos].
  - pose proof (shr_1_nonneg mrs H) as H1.
    destruct (IH (shr_1 mrs) H1) as [H2 E2].
    destruct (IH _ H2) as [H3 E3].
    split; [exact H3|].
    rewrite E3, E2, shr_1_m by assumption.
    rewrite !Z.div_div by lia. f_equal.
    replace (Z.pos p~1) with (Z.pos p + Z.pos p + 1)%Z by lia.
    rewrite !Z.pow_add_r by lia. ring.
  - destruct (IH mrs H) as [H2 E2].
    destruct (IH _ H2) as [H3 E3].
    split; [exact H3|].
    rewrite E3, E2.
    rewrite !Z.div_div by lia. f_equal.
    replace (Z.pos p~0) with (Z.pos p + Z.pos p)%Z by lia.
    rewrite Z.pow_add_r by lia. ring.
  - split; [now apply shr_1_nonneg|].
    rewrite shr_1_m by assumption. reflexivity.
Qed.

(** shr_fexp: a floor division by a power of two *)
Lemma shr_fexp_spec m e l :
  (0 <= m)%Z ->
  let k := Z.max 0 (fexp prec emax (Zdigits2 m + e) - e) in
  shr_m (fst (shr_fexp prec emax m e l)) = (m / 2 ^ k)%Z /\
  snd (shr_fexp prec emax m e l) = (e + k)%Z.
Proof.
  intros Hm k. unfold shr_fexp, shr. subst k.
  destruct (fexp prec emax (Zdigits2 m + e) - e)%Z as [|p|p] eqn:E; simpl fst; simpl snd.
  - rewrite shr_record_of_loc_m. simpl. rewrite Z.div_1_r. split; [reflexivity|lia].
  - pose proof (iter_shr_1_m p (shr_record_of_loc m l)) as H.
    rewrite shr_record_of_loc_m in H. destruct (H Hm) as [_ H']. rewrite H'.
    rewrite Z.max_r by lia. split; reflexivity.
  - rewrite shr_record_of_loc_m. rewrite Z.max_l by lia. simpl. rewrite Z.div_1_r.
    split; [reflexivity|lia].
Qed.

Lemma round_nearest_even_bounds m l :
  (m <= round_nearest_even m l <= m + 1)%Z.
Proof.
  destruct l as [|[| |]]; simpl; try lia. destruct (Z.even m); lia.
Qed.

Lemma bpow_gt_0 e : 0 < bpow e.
Proof. apply powerRZ_lt. lra. Qed.

Lemma bpow_add a b : bpow (a + b) = bpow a * bpow b.
Proof. apply powerRZ_add. lra. Qed.

Lemma bpow_IZR k : (0 <= k)%Z -> bpow k = IZR (2 ^ k).
Proof.
  intros Hk. unfold bpow. rewrite <- (Z2Nat.id k Hk) at 1 2.
  rewrite <- pow_powerRZ, pow_IZR. reflexivity.
Qed.

Lemma bpow_le a b : (a <= b)%Z -> bpow a <= bpow b.
Proof.
  intros H. replace b with (a + (b - a))%Z by lia.
  rewrite bpow_add, (bpow_IZR (b - a)) by lia.
  pose proof (bpow_gt_0 a).
  assert (1 <= IZR (2 ^ (b - a))).
  { apply IZR_le. pose proof (Z.pow_pos_nonneg 2 (b - a)). lia. }
  nra.
Qed.

Lemma bpow_lt a b : (a < b)%Z -> bpow a < bpow b.
Proof.
  intros H. replace b with (a + (b - a))%Z by lia.
  rewrite bpow_add, (bpow_IZR (b - a)) by lia.
  pose proof (bpow_gt_0 a).
  assert (2 <= IZR (2 ^ (b - a))).
  { apply IZR_le. replace (b - a)%Z with (Z.succ (b - a - 1)) by lia.
    rewrite Z.pow_succ_r by lia. pose proof (Z.pow_pos_nonneg 2 (b - a - 1)). lia. }
  nra.
Qed.

(** Re-scaling a mantissa to a smaller exponent. *)
Lemma F2R_rescale m e e' :
  (e' <= e)%Z -> F2R m e = F2R (m * 2 ^ (e - e')) e'.
Proof.
  intros H. unfold F2R. rewrite mult_IZR, <- bpow_IZR by lia.
  replace e with (e - e' + e')%Z at 1 by lia. rewrite bpow_add. ring.
Qed.

Lemma F2R_le_iff m1 m2 e : F2R m1 e <= F2R m2 e <-> (m1 <= m2)%Z.
Proof.
  unfold F2R. pose proof (bpow_gt_0 e). split; intros H1.
  - apply le_IZR. nra.
  - apply IZR_le in H1. nra.
Qed.

Lemma F2R_lt_iff m1 m2 e : F2R m1 e < F2R m2 e <-> (m1 < m2)%Z.
Proof.
  unfold F2R. pose proof (bpow_gt_0 e). split; intros H1.
  - apply lt_IZR. nra.
  - apply IZR_lt in H1. nra.
Qed.

(** Canonical mantissas *)
Lemma bounded_spec m e :
  SpecFloat.bounded prec emax m e = true ->
  (-1074 <= e <= 971)%Z /\
  (Z.pos (digits2_pos m) <= 53)%Z /\
  ((-1074 < e)%Z -> Z.pos (digits2_pos m) = 53%Z).
Proof.
  unfold SpecFloat.bounded, canonical_mantissa, fexp, emin, prec, emax.
  rewrite andb_true_iff, Z.eqb_eq, Z.leb_le. lia.
Qed.

Lemma pos_lt_pow2_digits m : (Z.pos m < 2 ^ Z.pos (digits2_pos m))%Z.
Proof. apply digits2_bounds. Qed.

Lemma bounded_lt_bpow m e :
  SpecFloat.bounded prec emax m e = true -> F2R (Z.pos m) e < bpow (e + 53).
Proof.
  intros H. apply bounded_spec in H. destruct H as (_ & Hd & _).
  rewrite Z.add_comm, bpow_add, (bpow_IZR 53) by lia.
  unfold F2R. pose proof (bpow_gt_0 e).
  assert (IZR (Z.pos m) < IZR (2 ^ 53)).
  { apply IZR_lt. pose proof (pos_lt_pow2_digits m).
    pose proof (Z.pow_le_mono_r 2 (Z.pos (digits2_pos m)) 53). lia. }
  nra.
Qed.

Lemma bounded_ge_bpow m e :
  SpecFloat.bounded prec emax m e = true -> (-1074 < e)%Z -> bpow (e + 52) <= F2R (Z.pos m) e.
Proof.
  intros H He. apply bounded_spec in H. destruct H as (_ & _ & Hd). specialize (Hd He).
  rewrite Z.add_comm, bpow_add, (bpow_IZR 52) by lia.
  unfold F2R. pose proof (bpow_gt_0 e).
  assert (IZR (2 ^ 52) <= IZR (Z.pos m)).
  { apply IZR_le. pose proof (digits2_bounds m) as Hb. rewrite Hd in Hb.
    change (53 - 1)%Z with 52%Z in Hb. lia. }
  nra.
Qed.

(** One [shr_fexp] keeps a representable lower bound. *)
Lemma shr_fexp_lower m e l mc ec :
  (0 < m)%Z ->
  SpecFloat.bounded prec emax mc ec = true ->
  F2R (Z.pos mc) ec <= F2R m e ->
  F2R (Z.pos mc) ec
  <= F2R (shr_m (fst (shr_fexp prec emax m e l))) (snd (shr_fexp prec emax m e l)).
Proof.
  intros Hm Hc Hle.
  destruct (shr_fexp_spec m e l ltac:(lia)) as [Em Ee].
  rewrite Em, Ee. clear Em Ee.
  set (k := Z.max 0 (fexp prec emax (Zdigits2 m + e) - e)).
  assert (Hk : (0 <= k)%Z) by (unfold k; lia).
  destruct (Z.eq_dec k 0) as [Hk0|Hk0].
  { rewrite Hk0. rewrite Z.pow_0_r, Z.div_1_r, Z.add_0_r. exact Hle. }
  pose proof (bounded_spec mc ec Hc) as (Hec & Hdc & _).
  destruct m as [|p|p]; try lia. cbn [Zdigits2] in k.
  set (d := Z.pos (digits2_pos p)) in *.
  assert (He' : (e + k = fexp prec emax (d + e))%Z) by (unfold k; lia).
  destruct (Z_le_gt_dec (e + k) ec) as [Hcase|Hcase].
  - (* the bound is a multiple of the new unit *)
    rewrite (F2R_rescale (Z.pos mc) ec (e + k)) in * by lia.
    apply F2R_le_iff. apply Z.div_le_lower_bound; [apply Z.pow_pos_nonneg; lia|].
    apply (F2R_le_iff _ _ e).
    rewrite (F2R_rescale _ (e + k) e) in Hle by lia.
    replace (e + k - e)%Z with k in Hle by lia.
    replace (2 ^ k * (Z.pos mc * 2 ^ (ec - (e + k))))%Z
      with (Z.pos mc * 2 ^ (ec - (e + k)) * 2 ^ k)%Z by ring.
    exact Hle.
  - (* the result has a full mantissa one binade above the bound *)
    assert (Hkd : (k = d - 53)%Z).
    { unfold fexp, emin, prec, emax in He'. lia. }
    assert (Hq : (2 ^ 52 <= Z.pos p / 2 ^ k)%Z).
    { apply Z.div_le_lower_bound; [apply Z.pow_pos_nonneg; lia|].
      rewrite <- Z.pow_add_r by lia. replace (k + 52)%Z with (d - 1)%Z by lia.
      apply digits2_bounds. }
    apply Rle_trans with (bpow (ec + 53)).
    + left. now apply bounded_lt_bpow.
    + apply Rle_trans with (F2R (2 ^ 52) (e + k)).
      * unfold F2R. rewrite <- bpow_IZR, <- bpow_add by lia. apply bpow_le. lia.
      * now apply F2R_le_iff.
Qed.

(** One [shr_fexp] never increases the value. *)
Lemma shr_fexp_floor m e l :
  (0 <= m)%Z ->
  (0 <= shr_m (fst (shr_fexp prec emax m e l)))%Z /\
  F2R (shr_m (fst (shr_fexp prec emax m e l))) (snd (shr_fexp prec emax m e l)) <= F2R m e.
Proof.
  intros Hm.
  destruct (shr_fexp_spec m e l Hm) as [Em Ee].
  rewrite Em, Ee. clear Em Ee.
  set (k := Z.max 0 (fexp prec emax (Zdigits2 m + e) - e)).
  assert (Hk : (0 <= k)%Z) by (unfold k; lia).
  assert (Hp : (0 < 2 ^ k)%Z) by (apply Z.pow_pos_nonneg; lia).
  split; [apply Z.div_pos; lia|].
  rewrite (F2R_rescale _ (e + k) e) by lia.
  apply F2R_le_iff. replace (e + k - e)%Z with k by lia.
  rewrite Z.mul_comm. apply Z.mul_div_le. exact Hp.
Qed.

(** The first shift and the rounding step stay below a representable
    bound that the exact value is strictly below. *)
Lemma shr_round_upper m e mc ec :
  (0 < m)%Z ->
  SpecFloat.bounded prec emax mc ec = true ->
  F2R m e < F2R (Z.pos mc) ec ->
  let r := shr_fexp prec emax m e loc_Exact in
  F2R (round_nearest_even (shr_m (fst r)) (loc_of_shr_record (fst r))) (snd r)
  <= F2R (Z.pos mc) ec.
Proof.
  intros Hm Hc Hlt r.
  destruct (shr_fexp_spec m e loc_Exact ltac:(lia)) as [Em Ee]. fold r in Em, Ee.
  set (k := Z.max 0 (fexp prec emax (Zdigits2 m + e) - e)) in *.
  assert (Hk : (0 <= k)%Z) by (unfold k; lia).
  destruct (Z.eq_dec k 0) as [Hk0|Hk0].
  { (* nothing is shifted out: the value is kept *)
    assert (Hr : fst r = shr_record_of_loc m loc_Exact /\ snd r = e).
    { unfold r, shr_fexp, shr. 
      destruct (fexp prec emax (Zdigits2 m + e) - e)%Z eqn:E; try (split; reflexivity).
      subst k. try rewrite E in Hk0. lia. }
    destruct Hr as [Hr1 Hr2]. rewrite Hr1, Hr2. cbn. lra. }
  pose proof (bounded_spec mc ec Hc) as (Hec & Hdc & _).
  destruct m as [|p|p]; try lia. cbn [Zdigits2] in k.
  set (d := Z.pos (digits2_pos p)) in *.
  assert (He' : (e + k = fexp prec emax (d + e))%Z) by (unfold k; lia).
  assert (Hcase : (e + k <= ec)%Z).
  { destruct (Z_le_gt_dec (e + k) ec) as [H|H]; [exact H|exfalso].
    assert (Hkd : (k = d - 53)%Z).
    { unfold fexp, emin, prec, emax in He'. lia. }
    assert (Hlow : bpow (ec + 53) <= F2R (Z.pos p) e).
    { apply Rle_trans with (F2R (2 ^ (d - 1)) e).
      - unfold F2R. rewrite <- bpow_IZR, <- bpow_add by lia. apply bpow_le. lia.
      - apply F2R_le_iff. apply digits2_bounds. }
    pose proof (bounded_lt_bpow mc ec Hc). lra. }
  rewrite Ee.
  apply Rle_trans with (F2R (shr_m (fst r) + 1) (e + k)).
  { apply F2R_le_iff. apply round_nearest_even_bounds. }
  rewrite (F2R_rescale (Z.pos mc) ec (e + k)) in * by lia.
  apply F2R_le_iff. rewrite Em.
  assert (Z.pos p / 2 ^ k < Z.pos mc * 2 ^ (ec - (e + k)))%Z; [|lia].
  apply Z.div_lt_upper_bound; [apply Z.pow_pos_nonneg; lia|].
  apply (F2R_lt_iff _ _ e).
  rewrite (F2R_rescale _ (e + k) e) in Hlt by lia.
  replace (e + k - e)%Z with k in Hlt by lia.
  replace (2 ^ k * (Z.pos mc * 2 ^ (ec - (e + k))))%Z
    with (Z.pos mc * 2 ^ (ec - (e + k)) * 2 ^ k)%Z by ring.
  exact Hlt.
Qed.

(** Rounding a positive exact value that is strictly below a
    representable bound: the result is a zero or a finite number that is
    not above the bound. *)
Lemma binary_round_aux_upper s m e mc ec :
  (0 < m)%Z ->
  SpecFloat.bounded prec emax mc ec = true ->
  F2R m e < F2R (Z.pos mc) ec ->
  F2R (Z.pos mc) ec < bpow 972 ->
  let x := binary_round_aux prec emax s m e loc_Exact in
  (x = S754_zero s \/ exists m' e', x = S754_finite s m' e') /\
  SFmag x <= F2R (Z.pos mc) ec.
Proof.
  intros Hm Hc Hlt Hsmall x. subst x. unfold binary_round_aux.
  pose proof (shr_round_upper m e mc ec Hm Hc Hlt) as H1. cbv zeta in H1.
  pose proof (shr_fexp_floor m e loc_Exact ltac:(lia)) as [H0 _].
  destruct (shr_fexp prec emax m e loc_Exact) as [mrs' e'] eqn:E1.
  cbn [fst snd] in H1, H0.
  set (m1 := round_nearest_even (shr_m mrs') (loc_of_shr_record mrs')) in *.
  assert (Hm1 : (0 <= m1)%Z).
  { pose proof (round_nearest_even_bounds (shr_m mrs') (loc_of_shr_record mrs')).
    fold m1 in H. lia. }
  pose proof (shr_fexp_floor m1 e' loc_Exact Hm1) as [H2 H3].
  destruct (shr_fexp prec emax m1 e' loc_Exact) as [mrs'' e''] eqn:E2.
  cbn [fst snd] in H2, H3.
  destruct (shr_m mrs'') as [|p|p] eqn:Em; try lia.
  - split; [now left|]. cbn. pose proof (bpow_gt_0 ec). unfold F2R.
    assert (0 < IZR (Z.pos mc)) by (apply IZR_lt; lia). nra.
  - destruct (e'' <=? emax - prec)%Z eqn:Ee.
    + split; [right; eauto|]. cbn. lra.
    + exfalso. apply Z.leb_gt in Ee. unfold emax, prec in Ee.
      assert (bpow 972 <= F2R (Z.pos p) e''); [|lra].
      apply Rle_trans with (bpow e'').
      * apply bpow_le. lia.
      * unfold F2R. pose proof (bpow_gt_0 e'').
        assert (1 <= IZR (Z.pos p)) by (apply IZR_le; lia). nra.
Qed.

(** Rounding a positive exact value that is not below a representable
    bound: the result is an infinity or a finite number not below it. *)
Lemma binary_round_aux_lower s m e mc ec :
  (0 < m)%Z ->
  SpecFloat.bounded prec emax mc ec = true ->
  F2R (Z.pos mc) ec <= F2R m e ->
  let x := binary_round_aux prec emax s m e loc_Exact in
  x = S754_infinity s \/
  exists m' e', x = S754_finite s m' e' /\ F2R (Z.pos mc) ec <= F2R (Z.pos m') e'.
Proof.
  intros Hm Hc Hle x. subst x. unfold binary_round_aux.
  assert (Hcpos : 0 < F2R (Z.pos mc) ec).
  { unfold F2R. pose proof (bpow_gt_0 ec).
    assert (0 < IZR (Z.pos mc)) by (apply IZR_lt; lia). nra. }
  pose proof (shr_fexp_lower m e loc_Exact mc ec Hm Hc Hle) as H1.
  destruct (shr_fexp prec emax m e loc_Exact) as [mrs' e'] eqn:E1.
  cbn [fst snd] in H1.
  set (m1 := round_nearest_even (shr_m mrs') (loc_of_shr_record mrs')) in *.
  assert (Hb : (shr_m mrs' <= m1)%Z).
  { pose proof (round_nearest_even_bounds (shr_m mrs') (loc_of_shr_record mrs')).
    fold m1 in H. lia. }
  assert (H1' : F2R (Z.pos mc) ec <= F2R m1 e').
  { apply Rle_trans with (1 := H1). now apply F2R_le_iff. }
  assert (Hm1 : (0 < m1)%Z).
  { apply (F2R_lt_iff 0 m1 e'). unfold F2R at 1. rewrite Rmult_0_l. lra. }
  pose proof (shr_fexp_lower m1 e' loc_Exact mc ec Hm1 Hc H1') as H2.
  destruct (shr_fexp prec emax m1 e' loc_Exact) as [mrs'' e''] eqn:E2.
  cbn [fst snd] in H2.
  assert (Hm2 : (0 < shr_m mrs'')%Z).
  { apply (F2R_lt_iff 0 _ e''). unfold F2R at 1. rewrite Rmult_0_l. lra. }
  destruct (shr_m mrs'') as [|p|p] eqn:Em; try lia.
  destruct (e'' <=? emax - prec)%Z; [right; eauto|now left].
Qed.

(** On canonical positive numbers the comparison of [SpecFloat] is the
    order of the values. *)
Lemma SFcompare_finite_pos m1 e1 m2 e2 :
  SpecFloat.bounded prec emax m1 e1 = true ->
  SpecFloat.bounded prec emax m2 e2 = true ->
  match SFcompare (S754_finite false m1 e1) (S754_finite false m2 e2) with
  | Some Lt => F2R (Z.pos m1) e1 < F2R (Z.pos m2) e2
  | Some Eq => m1 = m2 /\ e1 = e2
  | Some Gt => F2R (Z.pos m2) e2 < F2R (Z.pos m1) e1
  | None => False
  end.
Proof.
  intros H1 H2. cbn [SFcompare].
  pose proof (bounded_spec m1 e1 H1) as (He1 & _).
  pose proof (bounded_spec m2 e2 H2) as (He2 & _).
  destruct (Z.compare_spec e1 e2) as [E|E|E].
  - subst e2. change (Pos.compare_cont Eq m1 m2) with (Pos.compare m1 m2).
    destruct (Pos.compare_spec m1 m2) as [Em|Em|Em].
    + now split.
    + apply F2R_lt_iff. lia.
    + apply F2R_lt_iff. lia.
  - apply Rlt_le_trans with (bpow (e1 + 53)); [now apply bounded_lt_bpow|].
    apply Rle_trans with (bpow (e2 + 52)); [apply bpow_le; lia|].
    apply bounded_ge_bpow; [assumption|lia].
  - apply Rlt_le_trans with (bpow (e2 + 53)); [now apply bounded_lt_bpow|].
    apply Rle_trans with (bpow (e1 + 52)); [apply bpow_le; lia|].
    apply bounded_ge_bpow; [assumption|lia].
Qed.

Lemma SFleb_finite_pos m1 e1 m2 e2 :
  SpecFloat.bounded prec emax m1 e1 = true ->
  SpecFloat.bounded prec emax m2 e2 = true ->
  F2R (Z.pos m1) e1 <= F2R (Z.pos m2) e2 ->
  SFleb (S754_finite false m1 e1) (S754_finite false m2 e2) = true.
Proof.
  intros H1 H2 Hle. pose proof (SFcompare_finite_pos m1 e1 m2 e2 H1 H2) as H.
  unfold SFleb.
  destruct (SFcompare (S754_finite false m1 e1) (S754_finite false m2 e2)) as [[| |]|];
    try reflexivity; try contradiction. lra.
Qed.

Lemma SFltb_finite_pos m1 e1 m2 e2 :
  SpecFloat.bounded prec emax m1 e1 = true ->
  SpecFloat.bounded prec emax m2 e2 = true ->
  F2R (Z.pos m1) e1 < F2R (Z.pos m2) e2 ->
  SFltb (S754_finite false m1 e1) (S754_finite false m2 e2) = true.
Proof.
  intros H1 H2 Hlt. pose proof (SFcompare_finite_pos m1 e1 m2 e2 H1 H2) as H.
  unfold SFltb.
  destruct (SFcompare (S754_finite false m1 e1) (S754_finite false m2 e2)) as [[| |]|];
    try reflexivity; try contradiction.
  - destruct H as [-> ->]. lra.
  - lra.
Qed.

Lemma F2R_mul m1 e1 m2 e2 : F2R (m1 * m2) (e1 + e2) = F2R m1 e1 * F2R m2 e2.
Proof. unfold F2R. rewrite mult_IZR, bpow_add. ring. Qed.

Lemma F2R_add m1 m2 e : F2R (m1 + m2) e = F2R m1 e + F2R m2 e.
Proof. unfold F2R. rewrite plus_IZR. ring. Qed.

Lemma F2R_pos m e : 0 < F2R (Z.pos m) e.
Proof.
  unfold F2R. pose proof (bpow_gt_0 e).
  assert (0 < IZR (Z.pos m)) by (apply IZR_lt; lia). nra.
Qed.

Lemma F2R_one : F2R (2 ^ 52) (-52) = 1.
Proof.
  unfold F2R. rewrite <- bpow_IZR, <- bpow_add by lia. reflexivity.
Qed.

Lemma pos_iter_xO m d : Z.pos (Pos.iter xO m d) = (Z.pos m * 2 ^ Z.pos d)%Z.
Proof.
  induction d as [|d IH] using Pos.peano_ind.
  - cbn [Pos.iter]. rewrite Z.pow_1_r. lia.
  - rewrite Pos.iter_succ, Pos2Z.inj_xO, IH, Pos2Z.inj_succ, Z.pow_succ_r by lia. ring.
Qed.

Lemma shl_align_F2R m e e' :
  F2R (Z.pos (fst (shl_align m e e'))) (snd (shl_align m e e')) = F2R (Z.pos m) e.
Proof.
  unfold shl_align. destruct (e' - e)%Z as [|d|d] eqn:E; cbn [fst snd]; try reflexivity.
  rewrite pos_iter_xO. rewrite (F2R_rescale (Z.pos m) e e') by lia.
  replace (e - e')%Z with (Z.pos d) by lia. reflexivity.
Qed.

Lemma shl_align_le_F2R m e e' :
  (e' <= e)%Z -> F2R (Z.pos (fst (shl_align m e e'))) e' = F2R (Z.pos m) e.
Proof.
  intros H. rewrite <- (shl_align_F2R m e e').
  unfold shl_align. destruct (e' - e)%Z as [|d|d] eqn:E; cbn [fst snd]; try reflexivity.
  - f_equal. lia.
  - lia.
Qed.

(** The sum of two positive finite numbers is the rounding of the exact sum. *)
Lemma SF64add_pos mx ex my ey :
  exists mz ez,
    SF64add (S754_finite false mx ex) (S754_finite false my ey)
    = binary_round_aux prec emax false (Z.pos mz) ez loc_Exact /\
    F2R (Z.pos mz) ez = F2R (Z.pos mx) ex + F2R (Z.pos my) ey.
Proof.
  unfold SF64add, SFadd. cbn [cond_Zopp].
  set (ez := Z.min ex ey).
  pose proof (shl_align_le_F2R mx ex ez ltac:(lia)) as Hx.
  pose proof (shl_align_le_F2R my ey ez ltac:(lia)) as Hy.
  set (ax := fst (shl_align mx ex ez)) in *.
  set (ay := fst (shl_align my ey ez)) in *.
  change (Z.pos ax + Z.pos ay)%Z with (Z.pos (ax + ay)).
  cbn [binary_normalize]. unfold binary_round.
  pose proof (shl_align_F2R (ax + ay) ez
                (fexp prec emax (Z.pos (digits2_pos (ax + ay)) + ez))) as Hs.
  destruct (shl_align (ax + ay) ez _) as [mz ez'].
  cbn [fst snd] in Hs. exists mz, ez'. split; [reflexivity|].
  rewrite Hs, Pos2Z.inj_add, F2R_add, Hx, Hy. reflexivity.
Qed.

(** The product of two positive finite numbers is the rounding of the exact
    product. *)
Lemma SF64mul_pos mx ex my ey :
  SF64mul (S754_finite false mx ex) (S754_finite false my ey)
  = binary_round_aux prec emax false (Z.pos (mx * my)) (ex + ey) loc_Exact.
Proof. reflexivity. Qed.

Lemma Prim2SF_bounded c mc ec s :
  Prim2SF c = S754_finite s mc ec -> SpecFloat.bounded prec emax mc ec = true.
Proof.
  intros H. pose proof (Prim2SF_valid c) as Hv. rewrite H in Hv. exact Hv.
Qed.

Lemma Prim2SF_zero : Prim2SF 0%float = S754_zero false.
Proof. reflexivity. Qed.

Lemma Prim2SF_one : Prim2SF 1%float = S754_finite false (2 ^ 52) (-52).
Proof. reflexivity. Qed.

(** [0 <= r < 1] and a positive constant [c]: [0 <= r * c <= c]. *)
Lemma mul_unit_interval (r c : float) mc ec :
  Prim2SF c = S754_finite false mc ec ->
  (ec <= 919)%Z ->
  (0 <=? r)%float = true ->
  (r <? 1)%float = true ->
  (0 <=? r * c)%float = true /\ (r * c <=? c)%float = true.
Proof.
  intros Hc Hec H0 H1.
  pose proof (Prim2SF_bounded _ _ _ _ Hc) as Hbc.
  pose proof (Prim2SF_valid (r * c)) as Hv.
  rewrite !FloatAxioms.leb_spec. rewrite FloatAxioms.leb_spec in H0.
  rewrite FloatAxioms.ltb_spec in H1.
  rewrite mul_spec in *. rewrite Hc in *. rewrite Prim2SF_zero in *.
  rewrite Prim2SF_one in H1.
  destruct (Prim2SF r) as [s|s| |s m e] eqn:Er.
  - destruct s; split; reflexivity.
  - destruct s; discriminate.
  - discriminate.
  - destruct s; [discriminate|].
    pose proof (Prim2SF_bounded _ _ _ _ Er) as Hbr.
    assert (Hlt : F2R (Z.pos m) e < 1).
    { rewrite <- F2R_one.
      pose proof (SFcompare_finite_pos m e (2 ^ 52) (-52) Hbr eq_refl) as Hcmp.
      unfold SFltb in H1.
      destruct (SFcompare (S754_finite false m e) (S754_finite false (2 ^ 52) (-52)))
        as [[| |]|]; try discriminate. exact Hcmp. }
    rewrite SF64mul_pos in *.
    destruct (binary_round_aux_upper false (Z.pos (m * mc)) (e + ec) mc ec) as [Hshape Hmag].
    + lia.
    + exact Hbc.
    + rewrite Pos2Z.inj_mul, F2R_mul. pose proof (F2R_pos mc ec). nra.
    + apply Rlt_le_trans with (bpow (ec + 53)); [now apply bounded_lt_bpow|].
      apply bpow_le. lia.
    + destruct Hshape as [Hz|(m' & e' & Hf)].
      * rewrite Hz. split; reflexivity.
      * rewrite Hf in *. split; [reflexivity|].
        apply SFleb_finite_pos; assumption.
Qed.

Lemma SFleb_refl_finite s m e : SFleb (S754_finite s m e) (S754_finite s m e) = true.
Proof.
  unfold SFleb. cbn [SFcompare]. rewrite Z.compare_refl.
  change (Pos.compare_cont Eq m m) with (Pos.compare m m). rewrite Pos.compare_refl.
  now destruct s.
Qed.

(** Adding a positive constant [b] keeps [b] as a lower bound. *)
Lemma add_const_ge (y b : float) mb eb :
  Prim2SF b = S754_finite false mb eb ->
  (0 <=? y)%float = true ->
  (b <=? y + b)%float = true.
Proof.
  intros Hb H0.
  pose proof (Prim2SF_bounded _ _ _ _ Hb) as Hbb.
  pose proof (Prim2SF_valid (y + b)) as Hv.
  rewrite FloatAxioms.leb_spec in *. rewrite add_spec in *.
  rewrite Hb in *. rewrite Prim2SF_zero in H0.
  destruct (Prim2SF y) as [s|s| |s m e] eqn:Ey.
  - unfold SF64add, SFadd. apply SFleb_refl_finite.
  - destruct s; [discriminate|reflexivity].
  - discriminate.
  - destruct s; [discriminate|].
    destruct (SF64add_pos m e mb eb) as (mz & ez & Hadd & Hval).
    rewrite Hadd in *.
    destruct (binary_round_aux_lower false (Z.pos mz) ez mb eb) as [Hinf|(m' & e' & Hf & Hle)].
    + lia.
    + exact Hbb.
    + rewrite Hval. pose proof (F2R_pos m e). lra.
    + rewrite Hinf. reflexivity.
    + rewrite Hf in *. apply SFleb_finite_pos; assumption.
Qed.

(** Adding a positive constant [b] to [0 <= y <= a], where [a + b] is the
    number [s] exactly: [y + b <= s]. *)
Lemma add_const_le (y a b s : float) ma ea mb eb ms es e0 :
  Prim2SF a = S754_finite false ma ea ->
  Prim2SF b = S754_finite false mb eb ->
  Prim2SF s = S754_finite false ms es ->
  (e0 <= ea)%Z -> (e0 <= eb)%Z -> (e0 <= es)%Z ->
  (Z.pos ma * 2 ^ (ea - e0) + Z.pos mb * 2 ^ (eb - e0) = Z.pos ms * 2 ^ (es - e0))%Z ->
  (es <= 919)%Z ->
  (a + b)%float = s ->
  (0 <=? y)%float = true ->
  (y <=? a)%float = true ->
  (y + b <=? s)%float = true.
Proof.
  intros Ha Hb Hs Hea Heb Hes Hsum Hsmall Hab H0 Hya.
  pose proof (Prim2SF_bounded _ _ _ _ Ha) as Hba.
  pose proof (Prim2SF_bounded _ _ _ _ Hb) as Hbb.
  pose proof (Prim2SF_bounded _ _ _ _ Hs) as Hbs.
  assert (HsumR : F2R (Z.pos ma) ea + F2R (Z.pos mb) eb = F2R (Z.pos ms) es).
  { rewrite (F2R_rescale _ ea e0), (F2R_rescale _ eb e0), (F2R_rescale _ es e0) by lia.
    rewrite <- F2R_add. now rewrite Hsum. }
  pose proof (Prim2SF_valid (y + b)) as Hv.
  rewrite FloatAxioms.leb_spec in H0, Hya |- *. rewrite add_spec in *.
  rewrite Prim2SF_zero in H0.
  destruct (Prim2SF y) as [sy|sy| |sy m e] eqn:Ey.
  - (* y is a zero: the sum is b *)
    rewrite Hb, Hs. unfold SF64add, SFadd. apply SFleb_finite_pos; try assumption.
    pose proof (F2R_pos ma ea). lra.
  - rewrite Ha in Hya. destruct sy; discriminate.
  - discriminate.
  - destruct sy; [discriminate|].
    pose proof (Prim2SF_bounded _ _ _ _ Ey) as Hby.
    rewrite Ha in Hya. unfold SFleb in Hya.
    pose proof (SFcompare_finite_pos m e ma ea Hby Hba) as Hcmp.
    destruct (SFcompare (S754_finite false m e) (S754_finite false ma ea)) as [[| |]|];
      try discriminate.
    + (* y is a itself *)
      destruct Hcmp as [-> ->].
      assert (y = a) by (apply Prim2SF_inj; congruence). subst y.
      rewrite <- Ey, <- add_spec, Hab, Hs. apply SFleb_refl_finite.
    + (* y is strictly below a *)
      rewrite Hb, Hs in *.
      destruct (SF64add_pos m e mb eb) as (mz & ez & Hadd & Hval).
      rewrite Hadd in *.
      destruct (binary_round_aux_upper false (Z.pos mz) ez ms es) as [Hshape Hmag].
      * lia.
      * exact Hbs.
      * rewrite Hval. lra.
      * apply Rlt_le_trans with (bpow (es + 53)); [now apply bounded_lt_bpow|].
        apply bpow_le. lia.
      * destruct Hshape as [Hz|(m' & e' & Hf)].
        -- rewrite Hz. reflexivity.
        -- rewrite Hf in *. apply SFleb_finite_pos; assumption.
Qed.

(** The converse for a bound in the binade of the sum: with [a + b = s]
    exactly and [s] and [a] of the same exponent, [x + b <= s] forces
    [x <= a]. *)
Lemma add_const_le_inv (x a b s : float) ma mb eb ms e e0 :
  Prim2SF a = S754_finite false ma e ->
  Prim2SF b = S754_finite false mb eb ->
  Prim2SF s = S754_finite false ms e ->
  (-1074 < e)%Z ->
  SpecFloat.bounded prec emax (ms + 1) e = true ->
  (e0 <= e)%Z -> (e0 <= eb)%Z ->
  (Z.pos ma * 2 ^ (e - e0) + Z.pos mb * 2 ^ (eb - e0) = Z.pos ms * 2 ^ (e - e0))%Z ->
  (0 <=? x)%float = true ->
  (x + b <=? s)%float = true ->
  (x <=? a)%float = true.
Proof.
  intros Ha Hb Hs He Hsucc He0 Heb Hsum H0 Hxs.
  pose proof (Prim2SF_bounded _ _ _ _ Ha) as Hba.
  pose proof (Prim2SF_bounded _ _ _ _ Hb) as Hbb.
  pose proof (Prim2SF_bounded _ _ _ _ Hs) as Hbs.
  assert (HsumR : F2R (Z.pos ma) e + F2R (Z.pos mb) eb = F2R (Z.pos ms) e).
  { rewrite (F2R_rescale (Z.pos ma) e e0), (F2R_rescale (Z.pos ms) e e0),
      (F2R_rescale (Z.pos mb) eb e0) by lia.
    rewrite <- F2R_add. now rewrite Hsum. }
  pose proof (Prim2SF_valid (x + b)) as Hv.
  rewrite FloatAxioms.leb_spec in H0, Hxs |- *. rewrite add_spec in *.
  rewrite Prim2SF_zero in H0. rewrite Ha, Hb, Hs in *.
  destruct (Prim2SF x) as [sx|sx| |sx m ex] eqn:Ex.
  - reflexivity.
  - destruct sx; discriminate.
  - discriminate.
  - destruct sx; [discriminate|].
    pose proof (Prim2SF_bounded _ _ _ _ Ex) as Hbx.
    unfold SFleb.
    pose proof (SFcompare_finite_pos m ex ma e Hbx Hba) as Hcmp.
    destruct (SFcompare (S754_finite false m ex) (S754_finite false ma e)) as [[| |]|];
      try reflexivity; try contradiction.
    exfalso.
    (* x is above a, hence at least one unit of a's binade above it *)
    assert (Hstep : F2R (Z.pos ma + 1) e <= F2R (Z.pos m) ex).
    { destruct (Z_le_gt_dec e ex) as [Hcase|Hcase].
      - rewrite (F2R_rescale _ ex e) in * by lia.
        apply F2R_le_iff. apply F2R_lt_iff in Hcmp. lia.
      - pose proof (bounded_lt_bpow m ex Hbx).
        pose proof (bounded_ge_bpow ma e Hba He).
        pose proof (bpow_le (ex + 53) (e + 52) ltac:(lia)). lra. }
    destruct (SF64add_pos m ex mb eb) as (mz & ez & Hadd & Hval).
    rewrite Hadd in *.
    destruct (binary_round_aux_lower false (Z.pos mz) ez (ms + 1) e)
      as [Hinf|(m' & e' & Hf & Hle)].
    + lia.
    + exact Hsucc.
    + rewrite Hval, Pos2Z.inj_add, F2R_add. rewrite F2R_add in Hstep. lra.
    + rewrite Hinf in Hxs. discriminate.
    + rewrite Hf in *. unfold SFleb in Hxs.
      pose proof (SFcompare_finite_pos m' e' ms e Hv Hbs) as Hcmp'.
      rewrite Pos2Z.inj_add, F2R_add in Hle.
      assert (0 < F2R 1 e) by (unfold F2R; pose proof (bpow_gt_0 e); lra).
      destruct (SFcompare (S754_finite false m' e') (S754_finite false ms e)) as [[| |]|];
        try discriminate.
      * destruct Hcmp' as [-> ->]. lra.
      * lra.
Qed.

End Rounding.

(** ** Numbers of the game

    Both variants use the same constants; the facts about them are stated
    once, on the literals. *)

Section GameNumbers.

Import JS.

Lemma Math_min_not_nan a m :
  is_nan a = false -> is_nan m = false -> is_nan (Math_min a m) = false.
Proof.
  intros Ha Hm. unfold Math_min. rewrite Ha, Hm.
  destruct (is_neg_zero m && is_pos_zero a); [assumption|].
  destruct (m <? a); assumption.
Qed.

Lemma Math_min_le_r a m :
  is_nan a = false -> is_nan m = false -> (Math_min a m <=? m) = true.
Proof.
  intros Ha Hm. unfold Math_min. rewrite Ha, Hm.
  destruct (is_neg_zero m && is_pos_zero a); [now apply leb_refl|].
  destruct (m <? a) eqn:E; [now apply leb_refl|].
  now apply ltb_false_leb.
Qed.

(** [min(v + gravity, maxVelocity)] *)
Lemma clamped_velocity_le v :
  is_nan v = false -> (Math_min (v + 0.05) 5 <=? 5) = true.
Proof.
  intros Hv. apply Math_min_le_r; [|reflexivity].
  apply add_not_nan_l; [assumption|reflexivity].
Qed.

(** [random() * (canvasHeight - gap - 100) + 50] for [random()] in [0, 1) *)
Lemma gap_top_range rnd :
  (0 <=? rnd) = true -> (rnd <? 1) = true ->
  (50 <=? rnd * 350 + 50) = true /\ (rnd * 350 + 50 <=? 400) = true.
Proof.
  intros H0 H1.
  destruct (mul_unit_interval rnd 350 (350 * 2 ^ 44) (-44) eq_refl ltac:(lia) H0 H1)
    as [Hlo Hhi].
  split.
  - apply (add_const_ge (rnd * 350) 50 (50 * 2 ^ 47) (-47) eq_refl Hlo).
  - apply (add_const_le (rnd * 350) 350 50 400
             (350 * 2 ^ 44) (-44) (50 * 2 ^ 47) (-47) (400 * 2 ^ 44) (-44) (-47));
      try reflexivity; try lia; assumption.
Qed.

(** [birdY >= 0] and [birdY + birdHeight <= canvasHeight] *)
Lemma bird_fits_finite y :
  (0 <=? y) = true -> (y + 30 <=? 600) = true -> SFis_finite (Prim2SF y) = true.
Proof.
  intros H0 H1.
  rewrite FloatAxioms.leb_spec in H0, H1. rewrite add_spec in H1.
  destruct (Prim2SF y) as [s|[|]| |s m e]; try reflexivity.
  - vm_compute in H0. discriminate.
  - vm_compute in H1. discriminate.
  - vm_compute in H0. discriminate.
Qed.

Lemma bird_fits_literal y :
  (0 <=? y) = true -> (y + 30 <=? 600) = true -> (y <=? 600 - 30) = true.
Proof.
  intros H0 H1. change (600 - 30) with 570.
  apply (add_const_le_inv y 570 30 600
           (570 * 2 ^ 43) (30 * 2 ^ 48) (-48) (600 * 2 ^ 43) (-43) (-48));
    try reflexivity; try lia; assumption.
Qed.

Lemma finite_not_zero c s m e :
  Prim2SF c = S754_finite s m e -> is_pos_zero c = false /\ is_neg_zero c = false.
Proof.
  intros H. unfold is_pos_zero, is_neg_zero.
  rewrite classify_spec, H. unfold SF64classify, SFclassify.
  destruct s, (Z.pos (digits2_pos m) =? prec)%Z; split; reflexivity.
Qed.

(** [Math.max(lo, Math.min(hi, x))] is [x] cut off below at [lo] and above
    at [hi], for a negative [lo] and a positive [hi]. *)
Lemma nested_min_max_is_clamp x lo hi ml el mh eh :
  Prim2SF lo = S754_finite true ml el ->
  Prim2SF hi = S754_finite false mh eh ->
  Math_max lo (Math_min hi x)
  = if lt x lo then lo else if gt x hi then hi else x.
Proof.
  intros Hlo Hhi.
  pose proof (finite_not_nan _ _ _ _ Hlo) as Nlo.
  pose proof (finite_not_nan _ _ _ _ Hhi) as Nhi.
  destruct (finite_not_zero _ _ _ _ Hlo) as [_ Zlo].
  destruct (finite_not_zero _ _ _ _ Hhi) as [Zhi _].
  assert (Hlohi : (lo <? hi) = true).
  { rewrite FloatAxioms.ltb_spec, Hlo, Hhi. reflexivity. }
  unfold Math_max, Math_min, lt, gt. rewrite Nlo, Nhi.
  destruct (is_nan x) eqn:Nx.
  { (* NaN in, NaN out *)
    change (is_nan nan) with true. cbv iota.
    rewrite (ltb_nan_l x lo Nx), (ltb_nan_r hi x Nx).
    symmetry. now apply is_nan_eq. }
  rewrite Zhi, andb_false_r.
  destruct (x <? hi) eqn:Hxhi.
  - rewrite Nx, Zlo, andb_false_r, (ltb_asym _ _ Hxhi).
    destruct (lo <? x) eqn:Hlox.
    + now rewrite (ltb_asym _ _ Hlox).
    + destruct (x <? lo) eqn:Hxlo; [reflexivity|].
      symmetry. now apply (ltb_neither_eq x lo true ml el).
  - rewrite Nhi, Zhi, andb_false_l, Hlohi.
    assert (Hxlo : (x <? lo) = false).
    { rewrite FloatAxioms.ltb_spec in Hxhi |- *. rewrite Hlo, Hhi in *.
      apply is_nan_false in Nx.
      destruct (Prim2SF x) as [sx|sx| |sx mx ex]; try congruence; try discriminate.
      - destruct sx; [discriminate|reflexivity].
      - destruct sx; [discriminate|reflexivity]. }
    rewrite Hxlo.
    destruct (hi <? x) eqn:Hhix; [reflexivity|].
    symmetry. now apply (ltb_neither_eq x hi false mh eh).
Qed.

End GameNumbers.

(** ** The rotation-enabled variant: what each method does *)

Module EnhancedFacts.

Import JS Enhanced.

Ltac monad_unfold :=
  cbv beta iota zeta delta
    [branch bind modify call skip ret state_of log_of fst snd app
     set_birdY set_birdVelocity set_birdRotation set_birdRotationVelocity
     set_obstacleX set_obstacleHeight set_score set_gameRunning
     set_animationFrameId set_animationFrame set_animationCounter
     birdY birdVelocity birdRotation birdRotationVelocity obstacleX gap
     obstacleHeight score ogpPoints gameRunning animationFrameId
     animationFrame animationCounter].

Ltac case_if :=
  match goal with
  | |- context [if ?c then _ else _] => destruct c eqn:?
  end.

(** Sequencing, and the primitive steps. *)
Lemma state_of_seq (m1 m2 : M unit) g :
  state_of ((m1 ;; m2) g) = state_of (m2 (state_of (m1 g))).
Proof.
  unfold bind, state_of. destruct (m1 g) as [[a g1] l1]. cbn.
  now destruct (m2 g1) as [[b g2] l2].
Qed.

Lemma log_of_seq (m1 m2 : M unit) g :
  log_of ((m1 ;; m2) g) = log_of (m1 g) ++ log_of (m2 (state_of (m1 g))).
Proof.
  unfold bind, state_of, log_of. destruct (m1 g) as [[a g1] l1]. cbn.
  now destruct (m2 g1) as [[b g2] l2].
Qed.

Lemma state_of_modify f g : state_of (modify f g) = f g.
Proof. reflexivity. Qed.

Lemma state_of_call e g : state_of (call e g) = g.
Proof. reflexivity. Qed.

Lemma log_of_modify f g : log_of (modify f g) = [].
Proof. reflexivity. Qed.

Lemma log_of_call e g : log_of (call e g) = [e].
Proof. reflexivity. Qed.

(** The methods of [FlappyBirdGame], one equation each. *)
Lemma resetObstacle_state rnd g :
  state_of (resetObstacle rnd g)
  = set_obstacleHeight (rnd * (CONFIG.canvasHeight - gap g - 100) + 50)
      (set_obstacleX CONFIG.canvasWidth g).
Proof. reflexivity. Qed.

Lemma updateBirdPosition_state g :
  state_of (updateBirdPosition g)
  = let v := Math_min (birdVelocity g + CONFIG.gravity) CONFIG.maxVelocity in
    set_birdY (birdY g + v) (set_birdVelocity v g).
Proof. reflexivity. Qed.

Lemma updateBirdPosition_log g : log_of (updateBirdPosition g) = [].
Proof. reflexivity. Qed.

Lemma updateBirdRotation_state g :
  state_of (updateBirdRotation g)
  = let target :=
      Math_max (- CONFIG.maxRotation)
        (Math_min CONFIG.maxRotation (birdVelocity g * CONFIG.rotationSensitivity)) in
    let rv := (birdRotationVelocity g + (target - birdRotation g) * 0.1)
              * CONFIG.rotationFriction in
    set_birdRotation (birdRotation g + rv) (set_birdRotationVelocity rv g).
Proof. reflexivity. Qed.

Lemma updateBirdRotation_log g : log_of (updateBirdRotation g) = [].
Proof. reflexivity. Qed.

Lemma updateObstaclePosition_state g :
  state_of (updateObstaclePosition g)
  = set_obstacleX (obstacleX g - CONFIG.obstacleSpeed) g.
Proof. reflexivity. Qed.

Lemma updateObstaclePosition_log g : log_of (updateObstaclePosition g) = [].
Proof. reflexivity. Qed.

Lemma updateObstaclePassed_state rnd g :
  state_of (updateObstaclePassed rnd g)
  = if obstaclePassed g
    then set_score (score g + 1)
           (set_obstacleHeight (rnd * (CONFIG.canvasHeight - gap g - 100) + 50)
              (set_obstacleX CONFIG.canvasWidth g))
    else g.
Proof.
  unfold updateObstaclePassed, branch. now destruct (obstaclePassed g).
Qed.

Lemma updateObstaclePassed_log rnd g :
  log_of (updateObstaclePassed rnd g)
  = if obstaclePassed g then [OgpAddPoints 1] else [].
Proof.
  unfold updateObstaclePassed, branch. now destruct (obstaclePassed g).
Qed.

Lemma updateAnimation_state g :
  state_of (updateAnimation g)
  = let c := animationCounter g + 1 in
    if ge c CONFIG.animationFrameInterval
    then set_animationCounter 0
           (set_animationFrame
              (if gt (birdRotation g) 0 then 0
               else if strict_eq (animationFrame g) 0 then 1 else 0)
              (set_animationCounter c g))
    else set_animationCounter c g.
Proof.
  destruct g as [y v r rv x gp h sc pts run id af ac];
    unfold updateAnimation, updateAnimationFrame; monad_unfold;
    repeat case_if; reflexivity.
Qed.

Lemma updateAnimation_log g : log_of (updateAnimation g) = [].
Proof.
  destruct g as [y v r rv x gp h sc pts run id af ac];
    unfold updateAnimation, updateAnimationFrame; monad_unfold;
    repeat case_if; reflexivity.
Qed.

Lemma endGame_state g :
  state_of (endGame g)
  = set_animationFrameId
      (if truthy_handle (animationFrameId g) then None else animationFrameId g)
      (set_gameRunning false g).
Proof.
  destruct g as [y v r rv x gp h sc pts run [id|] af ac];
    unfold endGame; monad_unfold; repeat case_if; reflexivity.
Qed.

Lemma endGame_log g :
  log_of (endGame g)
  = (if truthy_handle (animationFrameId g)
     then match animationFrameId g with
          | Some id => [CancelAnimationFrame id]
          | None => []
          end
     else [])
    ++ [DomRoundScore (score g); DomShowGameOverScreen]
    ++ (if gt (score g) 0 then [OgpSaveScore (score g)] else []).
Proof.
  destruct g as [y v r rv x gp h sc pts run [id|] af ac];
    unfold endGame; monad_unfold; repeat case_if; reflexivity.
Qed.

Lemma checkCollisions_state g :
  state_of (checkCollisions g)
  = if hitGroundOrCeiling g || hitObstacle g then state_of (endGame g) else g.
Proof.
  unfold checkCollisions, branch.
  destruct (hitGroundOrCeiling g), (hitObstacle g); reflexivity.
Qed.

Lemma checkCollisions_log g :
  log_of (checkCollisions g)
  = if hitGroundOrCeiling g || hitObstacle g then log_of (endGame g) else [].
Proof.
  unfold checkCollisions, branch.
  destruct (hitGroundOrCeiling g), (hitObstacle g); reflexivity.
Qed.

Lemma render_state g : state_of (render g) = g.
Proof. reflexivity. Qed.

Lemma render_log g : log_of (render g) = [Render g].
Proof. reflexivity. Qed.

(** [update]: the five updates, then the collision check. *)
Lemma update_state rnd g :
  state_of (update rnd g) = state_of (checkCollisions (beforeCollisionCheck rnd g)).
Proof.
  unfold update, beforeCollisionCheck. now rewrite !state_of_seq.
Qed.

Lemma update_log rnd g :
  log_of (update rnd g)
  = (if lt (obstacleX g - CONFIG.obstacleSpeed) (- CONFIG.obstacleWidth)
     then [OgpAddPoints 1] else [])
    ++ log_of (checkCollisions (beforeCollisionCheck rnd g)).
Proof.
  unfold update, beforeCollisionCheck.
  rewrite !log_of_seq, !state_of_seq, updateAnimation_log, updateObstaclePassed_log.
  rewrite updateBirdPosition_log, updateBirdRotation_log, updateObstaclePosition_log.
  rewrite updateObstaclePosition_state, updateBirdRotation_state, updateBirdPosition_state.
  cbn [app]. reflexivity.
Qed.

Lemma beforeCollisionCheck_fields rnd g :
  let g' := beforeCollisionCheck rnd g in
  let v := Math_min (birdVelocity g + CONFIG.gravity) CONFIG.maxVelocity in
  let x := obstacleX g - CONFIG.obstacleSpeed in
  let passed := lt x (- CONFIG.obstacleWidth) in
  let target :=
    Math_max (- CONFIG.maxRotation) (Math_min CONFIG.maxRotation (v * CONFIG.rotationSensitivity)) in
  let rv := (birdRotationVelocity g + (target - birdRotation g) * 0.1)
            * CONFIG.rotationFriction in
  birdVelocity g' = v /\
  birdY g' = birdY g + v /\
  birdRotationVelocity g' = rv /\
  birdRotation g' = birdRotation g + rv /\
  obstacleX g' = (if passed then CONFIG.canvasWidth else x) /\
  obstacleHeight g' = (if passed then rnd * (CONFIG.canvasHeight - gap g - 100) + 50
                       else obstacleHeight g) /\
  gap g' = gap g /\
  score g' = (if passed then score g + 1 else score g) /\
  ogpPoints g' = ogpPoints g /\
  gameRunning g' = gameRunning g /\
  animationFrameId g' = animationFrameId g.
Proof.
  unfold beforeCollisionCheck. rewrite !state_of_seq.
  rewrite updateAnimation_state, updateObstaclePassed_state.
  destruct g as [y v r rv x gp h sc pts run id af ac].
  unfold updateObstaclePosition, updateBirdRotation, updateBirdPosition, obstaclePassed.
  monad_unfold. repeat case_if. all: monad_unfold. all: repeat split. all: reflexivity.
Qed.

Lemma checkCollisions_fields g :
  let g' := state_of (checkCollisions g) in
  birdVelocity g' = birdVelocity g /\
  birdY g' = birdY g /\
  birdRotationVelocity g' = birdRotationVelocity g /\
  birdRotation g' = birdRotation g /\
  obstacleX g' = obstacleX g /\
  obstacleHeight g' = obstacleHeight g /\
  gap g' = gap g /\
  score g' = score g /\
  ogpPoints g' = ogpPoints g /\
  gameRunning g' = (if hitGroundOrCeiling g || hitObstacle g then false else gameRunning g).
Proof.
  cbv zeta. rewrite checkCollisions_state.
  destruct (hitGroundOrCeiling g || hitObstacle g).
  - rewrite endGame_state. repeat split. all: reflexivity.
  - repeat split; reflexivity.
Qed.

(** One [update], field by field. *)
Lemma update_fields rnd g :
  let g' := state_of (update rnd g) in
  let v := Math_min (birdVelocity g + CONFIG.gravity) CONFIG.maxVelocity in
  let x := obstacleX g - CONFIG.obstacleSpeed in
  let passed := lt x (- CONFIG.obstacleWidth) in
  let target :=
    Math_max (- CONFIG.maxRotation) (Math_min CONFIG.maxRotation (v * CONFIG.rotationSensitivity)) in
  let rv := (birdRotationVelocity g + (target - birdRotation g) * 0.1)
            * CONFIG.rotationFriction in
  birdVelocity g' = v /\
  birdY g' = birdY g + v /\
  birdRotationVelocity g' = rv /\
  birdRotation g' = birdRotation g + rv /\
  obstacleX g' = (if passed then CONFIG.canvasWidth else x) /\
  obstacleHeight g' = (if passed then rnd * (CONFIG.canvasHeight - gap g - 100) + 50
                       else obstacleHeight g) /\
  gap g' = gap g /\
  score g' = (if passed then score g + 1 else score g) /\
  ogpPoints g' = ogpPoints g /\
  gameRunning g' = (if hitGroundOrCeiling g' || hitObstacle g' then false else gameRunning g).
Proof.
  intros g' v x passed target rv.
  pose proof (checkCollisions_fields (beforeCollisionCheck rnd g)) as Hc.
  pose proof (beforeCollisionCheck_fields rnd g) as Hb.
  cbv zeta in Hc, Hb. fold v x passed target rv in Hb.
  destruct Hc as (c1 & c2 & c3 & c4 & c5 & c6 & c7 & c8 & c9 & c10).
  destruct Hb as (b1 & b2 & b3 & b4 & b5 & b6 & b7 & b8 & b9 & b10 & b11).
  assert (E : g' = state_of (checkCollisions (beforeCollisionCheck rnd g)))
    by apply update_state.
  assert (Hrun : gameRunning g'
                 = if hitGroundOrCeiling g' || hitObstacle g' then false else gameRunning g).
  { unfold hitGroundOrCeiling, hitObstacle. rewrite E, c10, c2, c5, c6, c7, b10.
    reflexivity. }
  rewrite E in *. clear E g'.
  rewrite c1, c2, c3, c4, c5, c6, c7, c8, c9.
  repeat split; assumption.
Qed.

(** [gameLoop], [flap], [startGame] and event sequences. *)
Lemma gameLoop_state rnd handle g :
  state_of (gameLoop rnd handle g)
  = if gameRunning g
    then set_animationFrameId (Some handle) (state_of (update rnd g))
    else g.
Proof.
  unfold gameLoop, branch. destruct (gameRunning g); cbn [negb]; [|reflexivity].
  now rewrite !state_of_seq, state_of_modify, state_of_call, render_state.
Qed.

Lemma gameLoop_log rnd handle g :
  log_of (gameLoop rnd handle g)
  = if gameRunning g
    then log_of (update rnd g) ++ [Render (state_of (update rnd g)); RequestAnimationFrame]
    else [].
Proof.
  unfold gameLoop, branch. destruct (gameRunning g); cbn [negb]; [|reflexivity].
  rewrite !log_of_seq, ?state_of_seq, log_of_modify, log_of_call, render_log.
  reflexivity.
Qed.

Lemma gameLoop_fields rnd handle g :
  let g' := state_of (gameLoop rnd handle g) in
  let u := state_of (update rnd g) in
  birdVelocity g' = (if gameRunning g then birdVelocity u else birdVelocity g) /\
  birdY g' = (if gameRunning g then birdY u else birdY g) /\
  obstacleX g' = (if gameRunning g then obstacleX u else obstacleX g) /\
  score g' = (if gameRunning g then score u else score g) /\
  gameRunning g' = (if gameRunning g then gameRunning u else false).
Proof.
  intros g' u. unfold g'. rewrite gameLoop_state. fold u.
  destruct (gameRunning g) eqn:E; repeat split; auto.
Qed.

Lemma flap_fields g :
  let g' := state_of (flap g) in
  birdVelocity g' = (if gameRunning g then - CONFIG.flapStrength else birdVelocity g) /\
  birdY g' = birdY g /\
  obstacleX g' = obstacleX g /\
  score g' = score g /\
  gameRunning g' = gameRunning g.
Proof.
  destruct g as [y v r rv x gp h sc pts run id af ac].
  unfold flap, updateAnimationFrame. monad_unfold.
  repeat case_if; monad_unfold; repeat split; reflexivity.
Qed.

Lemma resetRound_state rnd g :
  state_of (resetRound rnd g)
  = {| birdY := CONFIG.birdInitialY;
       birdVelocity := 0;
       birdRotation := 0;
       birdRotationVelocity := 0;
       obstacleX := CONFIG.canvasWidth;
       gap := gap g;
       obstacleHeight := rnd * (CONFIG.canvasHeight - gap g - 100) + 50;
       score := 0;
       ogpPoints := ogpPoints g;
       gameRunning := true;
       animationFrameId := animationFrameId g;
       animationFrame := 0;
       animationCounter := 0 |}.
Proof. destruct g. reflexivity. Qed.

Lemma startGame_state rnd0 rnd handle g :
  state_of (startGame rnd0 rnd handle g)
  = state_of (gameLoop rnd handle (state_of (resetRound rnd0 g))).
Proof. unfold startGame. apply state_of_seq. Qed.

Lemma run_cons e es g :
  state_of (run (e :: es) g) = state_of (run es (state_of (dispatch e g))).
Proof. cbn [run]. apply state_of_seq. Qed.

Lemma frames_succ ticks n g :
  state_of (frames ticks (S n) g)
  = state_of (gameLoop (fst (ticks n)) (snd (ticks n)) (state_of (frames ticks n g))).
Proof. cbn [frames]. apply state_of_seq. Qed.

(** [gap] is set once, in the initial [gameState], and never assigned. *)
Lemma gameLoop_gap rnd handle g : gap (state_of (gameLoop rnd handle g)) = gap g.
Proof.
  destruct (gameRunning g) eqn:Hrun; rewrite gameLoop_state, Hrun; [|reflexivity].
  pose proof (update_fields rnd g) as H. revert H.
  generalize (state_of (update rnd g)) as u.
  intros u (_ & _ & _ & _ & _ & _ & Hg & _). exact Hg.
Qed.

Lemma dispatch_gap e g : gap (state_of (dispatch e g)) = gap g.
Proof.
  destruct e as [rnd handle| |rnd0 rnd handle|o]; cbn [dispatch].
  - apply gameLoop_gap.
  - destruct g as [y v r rv x gp h sc pts run id af ac].
    unfold flap, updateAnimationFrame. monad_unfold. repeat case_if; reflexivity.
  - now rewrite startGame_state, gameLoop_gap, resetRound_state.
  - now destruct o.
Qed.

Lemma gap_constant es : forall g, gap (state_of (run es g)) = gap g.
Proof.
  induction es as [|e es IH]; intros g; [reflexivity|].
  now rewrite run_cons, IH, dispatch_gap.
Qed.

(** The calls on the rewards manager in a log. *)
Lemma saveScore_calls_app l1 l2 :
  saveScore_calls (l1 ++ l2) = saveScore_calls l1 ++ saveScore_calls l2.
Proof. apply flat_map_app. Qed.

Lemma addPoints_calls_app l1 l2 :
  addPoints_calls (l1 ++ l2) = addPoints_calls l1 ++ addPoints_calls l2.
Proof. apply flat_map_app. Qed.

Lemma saveScore_calls_endGame g :
  saveScore_calls (log_of (endGame g)) = if gt (score g) 0 then [score g] else [].
Proof.
  rewrite endGame_log. unfold saveScore_calls. rewrite !flat_map_app.
  destruct (truthy_handle (animationFrameId g)), (animationFrameId g), (gt (score g) 0);
    reflexivity.
Qed.

Lemma addPoints_calls_endGame g : addPoints_calls (log_of (endGame g)) = [].
Proof.
  rewrite endGame_log. unfold addPoints_calls. rewrite !flat_map_app.
  destruct (truthy_handle (animationFrameId g)), (animationFrameId g), (gt (score g) 0);
    reflexivity.
Qed.

Lemma checkCollisions_saveScore_calls g :
  saveScore_calls (log_of (checkCollisions g))
  = if hitGroundOrCeiling g || hitObstacle g
    then (if gt (score g) 0 then [score g] else [])
    else [].
Proof.
  rewrite checkCollisions_log.
  destruct (hitGroundOrCeiling g || hitObstacle g); [|reflexivity].
  apply saveScore_calls_endGame.
Qed.

Lemma checkCollisions_addPoints_calls g :
  addPoints_calls (log_of (checkCollisions g)) = [].
Proof.
  rewrite checkCollisions_log.
  destruct (hitGroundOrCeiling g || hitObstacle g); [|reflexivity].
  apply addPoints_calls_endGame.
Qed.

Lemma update_saveScore_calls rnd g :
  gameRunning g = true ->
  saveScore_calls (log_of (update rnd g))
  = if negb (gameRunning (state_of (update rnd g)))
    then (if gt (score (state_of (update rnd g))) 0
          then [score (state_of (update rnd g))] else [])
    else [].
Proof.
  intros Hrun.
  rewrite update_log, update_state, saveScore_calls_app.
  pose proof (beforeCollisionCheck_fields rnd g) as Hb. cbv zeta in Hb.
  destruct Hb as (_ & _ & _ & _ & _ & _ & _ & _ & _ & Hr & _).
  rewrite Hrun in Hr. revert Hr.
  generalize (beforeCollisionCheck rnd g) as b.
  generalize (lt (obstacleX g - CONFIG.obstacleSpeed) (- CONFIG.obstacleWidth)) as passed.
  intros passed b Hr.
  replace (saveScore_calls (if passed then [OgpAddPoints 1] else [])) with (@nil float)
    by (now destruct passed).
  cbn [app]. rewrite checkCollisions_saveScore_calls.
  pose proof (checkCollisions_fields b) as Hc. cbv zeta in Hc.
  destruct Hc as (_ & _ & _ & _ & _ & _ & _ & Hs & _ & Hg).
  rewrite Hs, Hg, Hr.
  now destruct (hitGroundOrCeiling b || hitObstacle b).
Qed.

(** The velocity clamp along events. *)
Lemma dispatch_velocity_le e g :
  (birdVelocity g <=? CONFIG.maxVelocity) = true ->
  (birdVelocity (state_of (dispatch e g)) <=? CONFIG.maxVelocity) = true.
Proof.
  intros H. destruct e as [rnd handle| |rnd0 rnd handle|o]; cbn [dispatch].
  - pose proof (gameLoop_fields rnd handle g) as (Hv & _). rewrite Hv.
    destruct (gameRunning g); [|assumption].
    pose proof (update_fields rnd g) as (Hu & _). rewrite Hu.
    apply clamped_velocity_le. now apply leb_not_nan in H.
  - pose proof (flap_fields g) as (Hv & _). rewrite Hv.
    destruct (gameRunning g); [|assumption]. vm_compute. reflexivity.
  - rewrite startGame_state.
    pose proof (gameLoop_fields rnd handle (state_of (resetRound rnd0 g))) as (Hv & _).
    rewrite Hv. rewrite resetRound_state. cbn [gameRunning birdVelocity].
    pose proof (update_fields rnd (state_of (resetRound rnd0 g))) as (Hu & _).
    rewrite resetRound_state in Hu. rewrite Hu. cbn [birdVelocity].
    apply clamped_velocity_le. vm_compute. reflexivity.
  - now destruct o.
Qed.

(** A regenerated obstacle stays on screen for 225 frames. *)
Lemma obstacle_on_screen k :
  (k < 225)%nat ->
  lt (obstacleAfter k - CONFIG.obstacleSpeed) (- CONFIG.obstacleWidth) = false.
Proof.
  intros Hk.
  assert (H : forallb (fun k => negb (lt (obstacleAfter k - CONFIG.obstacleSpeed)
                                        (- CONFIG.obstacleWidth))) (seq 0 225) = true)
    by (vm_compute; reflexivity).
  rewrite forallb_forall in H. specialize (H k).
  rewrite in_seq in H. apply negb_true_iff, H. lia.
Qed.

Lemma dispatch_between_passes e g k :
  is_restart e = false ->
  (k < 225)%nat ->
  obstacleX g = obstacleAfter k ->
  let g' := state_of (dispatch e g) in
  score g' = score g /\
  (obstacleX g' = obstacleAfter k \/ obstacleX g' = obstacleAfter (S k)).
Proof.
  intros He Hk Hx g'. unfold g'.
  destruct e as [rnd handle| |rnd0 rnd handle|o]; cbn [dispatch]; try discriminate.
  - pose proof (gameLoop_fields rnd handle g) as (_ & _ & Hx' & Hs & _).
    rewrite Hx', Hs. destruct (gameRunning g); [|now auto].
    pose proof (update_fields rnd g) as (_ & _ & _ & _ & Hx'' & _ & _ & Hs' & _).
    rewrite Hx'', Hs', Hx, obstacle_on_screen by assumption.
    split; [reflexivity|]. right. reflexivity.
  - pose proof (flap_fields g) as (_ & _ & Hx' & Hs & _).
    rewrite Hx', Hs. auto.
  - destruct o; auto.
Qed.

Lemma score_kept_between_passes es : forall g k,
  existsb is_restart es = false ->
  (k + length es <= 225)%nat ->
  obstacleX g = obstacleAfter k ->
  score (state_of (run es g)) = score g.
Proof.
  induction es as [|e es IH]; intros g k Hes Hlen Hx.
  - reflexivity.
  - cbn [existsb] in Hes. apply orb_false_iff in Hes. destruct Hes as [He Hes].
    cbn [length] in Hlen. rewrite run_cons.
    destruct (dispatch_between_passes e g k He ltac:(lia) Hx) as [Hs [Hx'|Hx']].
    + rewrite (IH _ k Hes ltac:(lia) Hx'). exact Hs.
    + rewrite (IH _ (S k) Hes ltac:(lia) Hx'). exact Hs.
Qed.

(** The bird stays inside the canvas for as long as the game runs. *)
Lemma in_bounds_finite g : in_bounds g -> SFis_finite (Prim2SF (birdY g)) = true.
Proof. intros [H0 H1]. exact (bird_fits_finite _ H0 H1). Qed.

Lemma in_bounds_literal g :
  in_bounds g -> (birdY g <=? CONFIG.canvasHeight - CONFIG.birdHeight) = true.
Proof. intros [H0 H1]. exact (bird_fits_literal _ H0 H1). Qed.

Lemma update_flight_invariant rnd g :
  gameRunning g = true -> flight_invariant g -> flight_invariant (state_of (update rnd g)).
Proof.
  intros Hrun [Hv Hb]. specialize (Hb Hrun).
  pose proof (update_fields rnd g) as H. revert H.
  generalize (state_of (update rnd g)) as g'.
  intros g' (Hv' & Hy' & _ & _ & _ & _ & _ & _ & _ & Hr').
  assert (Hvn : is_nan (birdVelocity g') = false).
  { rewrite Hv'. apply Math_min_not_nan; [|reflexivity].
    apply add_not_nan_l; [assumption|reflexivity]. }
  split; [exact Hvn|]. intros Hrun'.
  rewrite Hr', Hrun in Hrun'.
  destruct (hitGroundOrCeiling g') eqn:Hhit; [discriminate|]. clear Hrun' Hr'.
  unfold hitGroundOrCeiling, lt, gt in Hhit. apply orb_false_iff in Hhit.
  destruct Hhit as [Hlo Hhi].
  assert (Hyn : is_nan (birdY g') = false).
  { rewrite Hy', <- Hv'. apply add_not_nan_r; [now apply in_bounds_finite|exact Hvn]. }
  split.
  - apply ltb_false_leb; [exact Hyn|reflexivity|exact Hlo].
  - apply ltb_false_leb; [reflexivity| |exact Hhi].
    apply add_not_nan_l; [exact Hyn|reflexivity].
Qed.

Lemma resetRound_flight_invariant rnd g : flight_invariant (state_of (resetRound rnd g)).
Proof.
  rewrite resetRound_state. split; [reflexivity|]. intros _. split; reflexivity.
Qed.

Lemma flight_invariant_set_animationFrameId v g :
  flight_invariant (set_animationFrameId v g) <-> flight_invariant g.
Proof. reflexivity. Qed.

Lemma gameLoop_flight_invariant rnd handle g :
  flight_invariant g -> flight_invariant (state_of (gameLoop rnd handle g)).
Proof.
  intros H. destruct (gameRunning g) eqn:Hrun.
  - rewrite gameLoop_state, Hrun. apply flight_invariant_set_animationFrameId.
    now apply update_flight_invariant.
  - rewrite gameLoop_state, Hrun. exact H.
Qed.

Lemma dispatch_flight_invariant e g :
  flight_invariant g -> flight_invariant (state_of (dispatch e g)).
Proof.
  intros H. destruct e as [rnd handle| |rnd0 rnd handle|o]; cbn [dispatch].
  - now apply gameLoop_flight_invariant.
  - destruct H as [Hv Hb].
    pose proof (flap_fields g) as (Hv' & Hy' & _ & _ & Hr').
    unfold flight_invariant, in_bounds. rewrite Hv', Hy', Hr'. split; [|exact Hb].
    destruct (gameRunning g); [reflexivity|exact Hv].
  - rewrite startGame_state. apply gameLoop_flight_invariant, resetRound_flight_invariant.
  - now destruct o.
Qed.

Lemma reachable_flight_invariant g : reachable g -> flight_invariant g.
Proof.
  induction 1 as [rnd g0|e g _ IH].
  - apply resetRound_flight_invariant.
  - now apply dispatch_flight_invariant.
Qed.

(** *** The step and the round when [addPoints] returns *)

(** A step whose call of [addPoints] returns: after the position updates,
    [birdY < 0] or [birdY + birdHeight > canvasHeight] ends the game, for
    every obstacle position, height and gap; the tested [birdY] is the one
    [updateBirdPosition] computed, which reads no obstacle field.  (The
    step in which [addPoints] throws is in [EnhancedSdkFacts].) *)
Lemma ground_or_ceiling_ends_game (rnd : float) (g : gameState) :
  let g' := state_of (update rnd g) in
  birdY g' = birdY (state_of (updateBirdPosition g)) /\
  (lt (birdY g') 0 = true \/
   gt (birdY g' + CONFIG.birdHeight) CONFIG.canvasHeight = true ->
   gameRunning g' = false).
Proof.
  intros g'.
  pose proof (update_fields rnd g) as H. cbv zeta in H. fold g' in H.
  destruct H as (_ & Hy & _ & _ & _ & _ & _ & _ & _ & Hrun).
  split; [exact Hy|].
  intros Hc. rewrite Hrun. unfold hitGroundOrCeiling.
  destruct Hc as [Hc|Hc]; rewrite Hc; [|rewrite orb_true_r]; reflexivity.
Qed.

(** As long as the calls of [addPoints] return: in every state reached
    from the start of a round, a running game has
    [0 <= birdY <= canvasHeight - birdHeight]; the collision test is false
    there, and [update] adds the velocity to [birdY] without clamping it.
    (The round in which [addPoints] throws is in [EnhancedSdkFacts].) *)
Lemma birdY_in_bounds_while_running (g : gameState) :
  reachable g -> gameRunning g = true ->
  ((0 <=? birdY g) = true /\
   (birdY g <=? CONFIG.canvasHeight - CONFIG.birdHeight) = true) /\
  hitGroundOrCeiling g = false /\
  (forall rnd,
     birdY (state_of (update rnd g))
     = birdY g + birdVelocity (state_of (update rnd g))).
Proof.
  intros Hreach Hrun.
  destruct (reachable_flight_invariant g Hreach) as [_ Hb]. specialize (Hb Hrun).
  split; [split; [apply Hb|now apply in_bounds_literal]|]. split.
  - destruct Hb as [H0 H1]. unfold hitGroundOrCeiling, lt, gt.
    now rewrite (leb_ltb_false _ _ H0), (leb_ltb_false _ _ H1).
  - intros rnd. pose proof (update_fields rnd g) as (Hv & Hy & _).
    now rewrite Hy, Hv.
Qed.

(** *** The claims *)

(** C1. While the game runs, [flap] sets [birdVelocity] to
    [-flapStrength] whatever it was before; while it does not run, [flap]
    changes nothing and calls nothing. *)
Theorem flap_sets_velocity (g : gameState) :
  (gameRunning g = true ->
     birdVelocity (state_of (flap g)) = - CONFIG.flapStrength) /\
  (gameRunning g = false ->
     state_of (flap g) = g /\ log_of (flap g) = []).
Proof.
  destruct g as [y v r rv x gp h sc pts run id af ac].
  split; intros H; cbn in H; subst run.
  - unfold flap, updateAnimationFrame. monad_unfold. repeat case_if; reflexivity.
  - split; reflexivity.
Qed.

(** C2. The vertical-physics update computes
    [min(birdVelocity + gravity, maxVelocity)], and from a state with
    [birdVelocity <= maxVelocity] no sequence of frames, flaps, restarts
    and save notifications leads to a state with a larger velocity. *)
Theorem birdVelocity_never_exceeds_maxVelocity (es : list event) (g : gameState) :
  (birdVelocity g <=? CONFIG.maxVelocity) = true ->
  birdVelocity (state_of (updateBirdPosition g))
  = Math_min (birdVelocity g + CONFIG.gravity) CONFIG.maxVelocity /\
  (birdVelocity (state_of (run es g)) <=? CONFIG.maxVelocity) = true.
Proof.
  intros H. split; [reflexivity|].
  revert g H. induction es as [|e es IH]; intros g H.
  - exact H.
  - rewrite run_cons. apply IH. now apply dispatch_velocity_le.
Qed.

(** C5. A step increments the score exactly when
    [obstacleX < -obstacleWidth] holds at the pass-through check, with one
    [addPoints(1)] call; it then puts the obstacle back at [canvasWidth],
    and the score stays as it is during the next 225 frames and inputs,
    the time the new obstacle needs to reach [-obstacleWidth]. *)
Theorem score_once_per_obstacle (rnd : float) (g : gameState) :
  let g' := state_of (update rnd g) in
  let passed := lt (obstacleX g - CONFIG.obstacleSpeed) (- CONFIG.obstacleWidth) in
  score g' = (if passed then score g + 1 else score g) /\
  addPoints_calls (log_of (update rnd g)) = (if passed then [1] else []) /\
  (passed = true ->
   obstacleX g' = CONFIG.canvasWidth /\
   forall es, existsb is_restart es = false -> (length es <= 225)%nat ->
              score (state_of (run es g')) = score g').
Proof.
  intros g' passed.
  pose proof (update_fields rnd g) as (_ & _ & _ & _ & Hx & _ & _ & Hs & _).
  fold g' passed in Hx, Hs.
  split; [exact Hs|]. split.
  - rewrite update_log, addPoints_calls_app, checkCollisions_addPoints_calls.
    fold passed. now destruct passed.
  - intros Hp. rewrite Hp in Hx. split; [exact Hx|].
    intros es Hes Hlen. apply (score_kept_between_passes es g' 0%nat); auto.
Qed.

(** C6. For [Math.random()] in [0, 1) the regenerated gap top
    [random() * (canvasHeight - gap - 100) + 50] lies between [50] and
    [canvasHeight - gapSize - 50], in binary64 arithmetic, and
    [obstacleX] is reset to [canvasWidth]. *)
Theorem resetObstacle_gap_top_in_range (rnd : float) (g : gameState) :
  gap g = CONFIG.gapSize ->
  (0 <=? rnd) = true -> (rnd <? 1) = true ->
  let g' := state_of (resetObstacle rnd g) in
  obstacleX g' = CONFIG.canvasWidth /\
  obstacleHeight g' = rnd * (CONFIG.canvasHeight - gap g - 100) + 50 /\
  (50 <=? obstacleHeight g') = true /\
  (obstacleHeight g' <=? CONFIG.canvasHeight - CONFIG.gapSize - 50) = true.
Proof.
  intros Hgap H0 H1 g'. unfold g'. rewrite resetObstacle_state.
  cbn [obstacleX obstacleHeight set_obstacleHeight set_obstacleX].
  rewrite Hgap. split; [reflexivity|]. split; [reflexivity|].
  change (CONFIG.canvasHeight - CONFIG.gapSize - 100) with 350.
  change (CONFIG.canvasHeight - CONFIG.gapSize - 50) with 400.
  now apply gap_top_range.
Qed.


(** C8. From the start of a round, with no flap, the game ends within 200
    frames by the ground test [birdY + birdHeight > canvasHeight]: it is
    still running after 103 frames and over after the 104th. *)
Theorem no_flap_hits_ground (rnd0 : float) (g0 : gameState) (ticks : nat -> float * Z) :
  exists n, (n <= 200)%nat /\
    let start := state_of (resetRound rnd0 g0) in
    gameRunning (state_of (frames ticks (pred n) start)) = true /\
    gameRunning (state_of (frames ticks n start)) = false /\
    gt (birdY (state_of (frames ticks n start)) + CONFIG.birdHeight) CONFIG.canvasHeight = true.
Proof.
  exists 104%nat. split; [lia|]. intros start.
  assert (H : gameRunning (state_of (frames ticks 103 start)) = true /\
              gt (birdY (state_of (frames ticks 103 start))
                  + Math_min (birdVelocity (state_of (frames ticks 103 start)) + CONFIG.gravity)
                      CONFIG.maxVelocity
                  + CONFIG.birdHeight) CONFIG.canvasHeight = true).
  { unfold start. destruct g0 as [y v r rv x gp h sc pts run id af ac].
    vm_compute. split; reflexivity. }
  destruct H as [Hrun Hhit].
  cbn [pred]. split; [exact Hrun|].
  rewrite (frames_succ ticks 103).
  set (s := state_of (frames ticks 103 start)) in *. clearbody s.
  pose proof (gameLoop_fields (fst (ticks 103%nat)) (snd (ticks 103%nat)) s) as (_ & Hy & _ & _ & Hr).
  pose proof (update_fields (fst (ticks 103%nat)) s) as (_ & Hy' & _ & _ & _ & _ & _ & _ & _ & Hr').
  rewrite Hrun in Hy, Hr. rewrite Hy, Hr, Hr'.
  unfold hitGroundOrCeiling. rewrite Hy'. unfold gt in *. rewrite Hhit.
  rewrite orb_true_r. cbn [orb]. split; reflexivity.
Qed.

Lemma targetRotation_is_clamp x :
  Math_max (- CONFIG.maxRotation) (Math_min CONFIG.maxRotation x)
  = clamp x (- CONFIG.maxRotation) CONFIG.maxRotation.
Proof.
  apply (nested_min_max_is_clamp x (- CONFIG.maxRotation) CONFIG.maxRotation
           _ _ _ _ eq_refl eq_refl).
Qed.

(** C9. One step leaves [birdRotation] and [birdRotationVelocity] as the
    specification's rotation step computes them from the velocity of the
    same step: clamp, spring force, friction, integration, in that order. *)
Theorem rotation_update_order (rnd : float) (g : gameState) :
  let g' := state_of (update rnd g) in
  let v := birdVelocity (state_of (updateBirdPosition g)) in
  (birdRotation g', birdRotationVelocity g')
  = spec_rotation_step CONFIG.rotationSensitivity CONFIG.maxRotation 0.1
      CONFIG.rotationFriction v (birdRotation g) (birdRotationVelocity g).
Proof.
  intros g' v.
  pose proof (update_fields rnd g) as H. cbv zeta in H.
  destruct H as (_ & _ & Hrv & Hr & _).
  unfold g'. rewrite Hrv, Hr, targetRotation_is_clamp. reflexivity.
Qed.

(** Applying friction before the spring force gives another result. *)
Example rotation_order_matters :
  spec_rotation_step CONFIG.rotationSensitivity CONFIG.maxRotation 0.1
    CONFIG.rotationFriction 5 0 1
  <> friction_first_rotation_step CONFIG.rotationSensitivity CONFIG.maxRotation 0.1
       CONFIG.rotationFriction 5 0 1.
Proof. vm_compute. intros H. discriminate H. Qed.

(** C10. [endGame] sets [gameRunning] to false and may clear
    [animationFrameId]; every other field keeps its value, and the score
    shown and saved is the score of the round. *)
Theorem endGame_frame (g : gameState) :
  let g' := state_of (endGame g) in
  gameRunning g' = false /\
  score g' = score g /\
  birdY g' = birdY g /\
  birdVelocity g' = birdVelocity g /\
  birdRotation g' = birdRotation g /\
  birdRotationVelocity g' = birdRotationVelocity g /\
  obstacleX g' = obstacleX g /\
  obstacleHeight g' = obstacleHeight g /\
  gap g' = gap g /\
  g' = set_animationFrameId (animationFrameId g') (set_gameRunning false g) /\
  In (DomRoundScore (score g)) (log_of (endGame g)) /\
  saveScore_calls (log_of (endGame g))
  = (if gt (score g) 0 then [score g] else []).
Proof.
  intros g'. unfold g'. rewrite endGame_state, endGame_log.
  repeat split; try reflexivity.
  - apply in_or_app. right. left. reflexivity.
  - unfold saveScore_calls. rewrite !flat_map_app.
    destruct (truthy_handle (animationFrameId g)), (animationFrameId g), (gt (score g) 0);
      reflexivity.
Qed.

(** *** Instances at concrete states *)

Lemma flap_sets_velocity_witness :
  birdVelocity (state_of (flap (state_of (resetRound 0.5 initialGameState))))
  = - CONFIG.flapStrength /\
  state_of (flap initialGameState) = initialGameState.
Proof.
  split.
  - apply (proj1 (flap_sets_velocity _)). reflexivity.
  - apply (proj2 (flap_sets_velocity _)). reflexivity.
Defined.

Lemma birdVelocity_never_exceeds_maxVelocity_witness :
  (birdVelocity initialGameState <=? CONFIG.maxVelocity) = true /\
  (birdVelocity
     (state_of (run [StartButton 0.5 0.5 1; FlapInput; FrameTick 0.5 2] initialGameState))
   <=? CONFIG.maxVelocity) = true.
Proof.
  split; [reflexivity|].
  apply (birdVelocity_never_exceeds_maxVelocity _ initialGameState). reflexivity.
Defined.

Lemma score_once_per_obstacle_witness :
  let g := set_obstacleX (-49) (state_of (resetRound 0.5 initialGameState)) in
  let g' := state_of (update 0.5 g) in
  obstacleX g' = CONFIG.canvasWidth /\
  score (state_of (run [FrameTick 0.5 1; FlapInput] g')) = score g'.
Proof.
  intros g g'.
  destruct (proj2 (proj2 (score_once_per_obstacle 0.5 g)) eq_refl) as [H1 H2].
  split; [exact H1|]. apply H2; [reflexivity|]. cbn [length]. lia.
Defined.

Lemma resetObstacle_gap_top_in_range_witness :
  let g' := state_of (resetObstacle 0.5 initialGameState) in
  obstacleX g' = CONFIG.canvasWidth /\
  obstacleHeight g' = 0.5 * (CONFIG.canvasHeight - gap initialGameState - 100) + 50 /\
  (50 <=? obstacleHeight g') = true /\
  (obstacleHeight g' <=? CONFIG.canvasHeight - CONFIG.gapSize - 50) = true.
Proof.
  apply (resetObstacle_gap_top_in_range 0.5 initialGameState); reflexivity.
Defined.

Example vertical_physics_one_tick :
  let g := state_of (updateBirdPosition (state_of (resetRound 0.5 initialGameState))) in
  birdVelocity g = 0.05 /\ birdY g = 300.05.
Proof. vm_compute. split; reflexivity. Qed.

Example score_at_frame_226 :
  let g := state_of (resetRound 0.5 initialGameState) in
  obstaclePassed (set_obstacleX (obstacleAfter 226) g) = true /\
  obstaclePassed (set_obstacleX (obstacleAfter 225) g) = false.
Proof. vm_compute. split; reflexivity. Qed.

End EnhancedFacts.

(** ** The plain variant: the same properties of [game.js] *)

Module BasicFacts.

Import JS Basic.

Ltac basic_unfold :=
  cbv beta iota zeta delta
    [branch bind modify call skip ret state_of log_of fst snd app
     set_birdY set_birdVelocity set_obstacleX set_obstacleHeight set_score
     set_ogpPoints set_gameRunning set_animationFrameId
     birdY birdVelocity obstacleX gap obstacleHeight score ogpPoints
     gameRunning animationFrameId].

Ltac basic_case_if :=
  match goal with
  | |- context [if ?c then _ else _] => destruct c eqn:?
  end.

Lemma basic_state_of_seq (m1 m2 : M unit) g :
  state_of ((m1 ;; m2) g) = state_of (m2 (state_of (m1 g))).
Proof.
  unfold bind, state_of. destruct (m1 g) as [[a g1] l1]. cbn.
  now destruct (m2 g1) as [[b g2] l2].
Qed.

Lemma basic_log_of_seq (m1 m2 : M unit) g :
  log_of ((m1 ;; m2) g) = log_of (m1 g) ++ log_of (m2 (state_of (m1 g))).
Proof.
  unfold bind, state_of, log_of. destruct (m1 g) as [[a g1] l1]. cbn.
  now destruct (m2 g1) as [[b g2] l2].
Qed.

Lemma basic_log_of_modify f g : log_of (modify f g) = [].
Proof. reflexivity. Qed.

Lemma basic_state_of_modify f g : state_of (modify f g) = f g.
Proof. reflexivity. Qed.

Lemma basic_state_of_call e g : state_of (call e g) = g.
Proof. reflexivity. Qed.

Lemma basic_log_of_call e g : log_of (call e g) = [e].
Proof. reflexivity. Qed.

Lemma basic_endGame_state g :
  state_of (endGame g)
  = set_animationFrameId
      (if truthy_handle (animationFrameId g) then None else animationFrameId g)
      (set_gameRunning false g).
Proof.
  destruct g as [y v x gp h sc pts run [id|]];
    unfold endGame; basic_unfold; repeat basic_case_if; reflexivity.
Qed.

Lemma basic_endGame_log g :
  log_of (endGame g)
  = (if truthy_handle (animationFrameId g)
     then match animationFrameId g with
          | Some id => [CancelAnimationFrame id]
          | None => []
          end
     else [])
    ++ [DomFinalScore (score g); DomOgpPoints (ogpPoints g); DomShowGameOverScreen]
    ++ (if gt (score g) 0 then [OgpSaveScore (score g)] else []).
Proof.
  destruct g as [y v x gp h sc pts run [id|]];
    unfold endGame; basic_unfold; repeat basic_case_if; reflexivity.
Qed.

Lemma basic_checkCollisions_state g :
  state_of (checkCollisions g)
  = if hitGroundOrCeiling g || hitObstacle g then state_of (endGame g) else g.
Proof.
  unfold checkCollisions, branch.
  destruct (hitGroundOrCeiling g), (hitObstacle g); reflexivity.
Qed.

Lemma basic_checkCollisions_log g :
  log_of (checkCollisions g)
  = if hitGroundOrCeiling g || hitObstacle g then log_of (endGame g) else [].
Proof.
  unfold checkCollisions, branch.
  destruct (hitGroundOrCeiling g), (hitObstacle g); reflexivity.
Qed.

Lemma basic_obstaclePassed_log rnd g :
  log_of (branch obstaclePassed
            (resetObstacle rnd ;; modify (fun g => set_score (score g + 1) g))
            skip g) = [].
Proof.
  unfold branch. destruct (obstaclePassed g); reflexivity.
Qed.

Lemma basic_obstaclePassed_state rnd g :
  state_of (branch obstaclePassed
              (resetObstacle rnd ;; modify (fun g => set_score (score g + 1) g))
              skip g)
  = if obstaclePassed g
    then set_score (score g + 1)
           (set_obstacleHeight (rnd * (CONFIG.canvasHeight - gap g - 100) + 50)
              (set_obstacleX CONFIG.canvasWidth g))
    else g.
Proof.
  unfold branch. destruct (obstaclePassed g); reflexivity.
Qed.

Lemma basic_update_state rnd g :
  state_of (update rnd g) = state_of (checkCollisions (beforeCollisionCheck rnd g)).
Proof.
  unfold update, beforeCollisionCheck. now rewrite !basic_state_of_seq.
Qed.

Lemma basic_update_log rnd g :
  log_of (update rnd g) = log_of (checkCollisions (beforeCollisionCheck rnd g)).
Proof.
  unfold update, beforeCollisionCheck.
  rewrite !basic_log_of_seq, !basic_state_of_seq.
  rewrite !basic_log_of_modify, basic_obstaclePassed_log. reflexivity.
Qed.

Lemma basic_beforeCollisionCheck_fields rnd g :
  let g' := beforeCollisionCheck rnd g in
  let v := Math_min (birdVelocity g + CONFIG.gravity) CONFIG.maxVelocity in
  let x := obstacleX g - CONFIG.obstacleSpeed in
  let passed := lt x (- CONFIG.obstacleWidth) in
  birdVelocity g' = v /\
  birdY g' = birdY g + v /\
  obstacleX g' = (if passed then CONFIG.canvasWidth else x) /\
  obstacleHeight g' = (if passed then rnd * (CONFIG.canvasHeight - gap g - 100) + 50
                       else obstacleHeight g) /\
  gap g' = gap g /\
  score g' = (if passed then score g + 1 else score g) /\
  ogpPoints g' = ogpPoints g /\
  gameRunning g' = gameRunning g /\
  animationFrameId g' = animationFrameId g.
Proof.
  unfold beforeCollisionCheck. rewrite !basic_state_of_seq.
  rewrite basic_obstaclePassed_state, !basic_state_of_modify.
  destruct g as [y v x gp h sc pts run id].
  unfold obstaclePassed. basic_unfold.
  repeat basic_case_if; basic_unfold; repeat split; reflexivity.
Qed.

Lemma basic_checkCollisions_fields g :
  let g' := state_of (checkCollisions g) in
  birdVelocity g' = birdVelocity g /\
  birdY g' = birdY g /\
  obstacleX g' = obstacleX g /\
  obstacleHeight g' = obstacleHeight g /\
  gap g' = gap g /\
  score g' = score g /\
  ogpPoints g' = ogpPoints g /\
  gameRunning g' = (if hitGroundOrCeiling g || hitObstacle g then false else gameRunning g).
Proof.
  cbv zeta. rewrite basic_checkCollisions_state.
  destruct (hitGroundOrCeiling g || hitObstacle g).
  - rewrite basic_endGame_state. repeat split; reflexivity.
  - repeat split; reflexivity.
Qed.

Lemma basic_update_fields rnd g :
  let g' := state_of (update rnd g) in
  let v := Math_min (birdVelocity g + CONFIG.gravity) CONFIG.maxVelocity in
  let x := obstacleX g - CONFIG.obstacleSpeed in
  let passed := lt x (- CONFIG.obstacleWidth) in
  birdVelocity g' = v /\
  birdY g' = birdY g + v /\
  obstacleX g' = (if passed then CONFIG.canvasWidth else x) /\
  obstacleHeight g' = (if passed then rnd * (CONFIG.canvasHeight - gap g - 100) + 50
                       else obstacleHeight g) /\
  gap g' = gap g /\
  score g' = (if passed then score g + 1 else score g) /\
  ogpPoints g' = ogpPoints g /\
  gameRunning g' = (if hitGroundOrCeiling g' || hitObstacle g' then false else gameRunning g).
Proof.
  intros g' v x passed.
  pose proof (basic_checkCollisions_fields (beforeCollisionCheck rnd g)) as Hc.
  pose proof (basic_beforeCollisionCheck_fields rnd g) as Hb.
  cbv zeta in Hc, Hb. fold v x passed in Hb.
  destruct Hc as (c1 & c2 & c3 & c4 & c5 & c6 & c7 & c8).
  destruct Hb as (b1 & b2 & b3 & b4 & b5 & b6 & b7 & b8 & b9).
  assert (E : g' = state_of (checkCollisions (beforeCollisionCheck rnd g)))
    by apply basic_update_state.
  assert (Hrun : gameRunning g'
                 = if hitGroundOrCeiling g' || hitObstacle g' then false else gameRunning g).
  { unfold hitGroundOrCeiling, hitObstacle. rewrite E, c8, c2, c3, c4, c5, b8.
    reflexivity. }
  rewrite E in *. clear E g'.
  rewrite c1, c2, c3, c4, c5, c6, c7.
  repeat split; assumption.
Qed.

Lemma basic_gameLoop_state rnd handle g :
  state_of (gameLoop rnd handle g)
  = if gameRunning g
    then set_animationFrameId (Some handle) (state_of (update rnd g))
    else g.
Proof.
  unfold gameLoop, branch. destruct (gameRunning g); cbn [negb]; [|reflexivity].
  now rewrite !basic_state_of_seq, basic_state_of_modify, basic_state_of_call.
Qed.

Lemma basic_gameLoop_log rnd handle g :
  log_of (gameLoop rnd handle g)
  = if gameRunning g
    then log_of (update rnd g) ++ [Render (state_of (update rnd g)); RequestAnimationFrame]
    else [].
Proof.
  unfold gameLoop, branch. destruct (gameRunning g); cbn [negb]; [|reflexivity].
  rewrite !basic_log_of_seq, ?basic_state_of_seq, basic_log_of_modify, basic_log_of_call.
  reflexivity.
Qed.

Lemma basic_gameLoop_fields rnd handle g :
  let g' := state_of (gameLoop rnd handle g) in
  let u := state_of (update rnd g) in
  birdVelocity g' = (if gameRunning g then birdVelocity u else birdVelocity g) /\
  birdY g' = (if gameRunning g then birdY u else birdY g) /\
  obstacleX g' = (if gameRunning g then obstacleX u else obstacleX g) /\
  score g' = (if gameRunning g then score u else score g) /\
  gameRunning g' = (if gameRunning g then gameRunning u else false).
Proof.
  intros g' u. unfold g'. rewrite basic_gameLoop_state. fold u.
  destruct (gameRunning g) eqn:E; repeat split; auto.
Qed.

Lemma jump_fields g :
  let g' := state_of (jump g) in
  birdVelocity g' = (if gameRunning g then - CONFIG.jumpStrength else birdVelocity g) /\
  birdY g' = birdY g /\
  obstacleX g' = obstacleX g /\
  score g' = score g /\
  gameRunning g' = gameRunning g.
Proof.
  destruct g as [y v x gp h sc pts run id].
  unfold jump. basic_unfold.
  repeat basic_case_if; basic_unfold; repeat split; reflexivity.
Qed.

Lemma basic_resetRound_state rnd g :
  state_of (resetRound rnd g)
  = {| birdY := CONFIG.birdInitialY;
       birdVelocity := 0;
       obstacleX := CONFIG.canvasWidth;
       gap := gap g;
       obstacleHeight := rnd * (CONFIG.canvasHeight - gap g - 100) + 50;
       score := 0;
       ogpPoints := ogpPoints g;
       gameRunning := true;
       animationFrameId := animationFrameId g |}.
Proof. destruct g. reflexivity. Qed.

Lemma basic_startGame_state rnd0 rnd handle g :
  state_of (startGame rnd0 rnd handle g)
  = state_of (gameLoop rnd handle (state_of (resetRound rnd0 g))).
Proof. unfold startGame. apply basic_state_of_seq. Qed.

Lemma basic_run_cons e es g :
  state_of (run (e :: es) g) = state_of (run es (state_of (dispatch e g))).
Proof. cbn [run]. apply basic_state_of_seq. Qed.

Lemma basic_frames_succ ticks n g :
  state_of (frames ticks (S n) g)
  = state_of (gameLoop (fst (ticks n)) (snd (ticks n)) (state_of (frames ticks n g))).
Proof. cbn [frames]. apply basic_state_of_seq. Qed.

Lemma basic_async_fields e g :
  match e with SaveSettled _ | PointsFetched _ | SavePointsSuccess => True | _ => False end ->
  let g' := state_of (dispatch e g) in
  birdVelocity g' = birdVelocity g /\
  birdY g' = birdY g /\
  obstacleX g' = obstacleX g /\
  obstacleHeight g' = obstacleHeight g /\
  gap g' = gap g /\
  score g' = score g /\
  gameRunning g' = gameRunning g.
Proof.
  destruct g as [y v x gp h sc pts run id].
  destruct e as [| | |[|]|r|]; intros H; try contradiction; repeat split; reflexivity.
Qed.

(** [jump] sets the velocity to [-jumpStrength] while the game runs and
    does nothing otherwise. *)
Lemma jump_sets_velocity (g : gameState) :
  (gameRunning g = true ->
     birdVelocity (state_of (jump g)) = - CONFIG.jumpStrength) /\
  (gameRunning g = false ->
     state_of (jump g) = g /\ log_of (jump g) = []).
Proof.
  destruct g as [y v x gp h sc pts run id].
  split; intros H; cbn in H; subst run; [|split]; reflexivity.
Qed.

(** *** The velocity bound *)

Lemma basic_dispatch_velocity_le e g :
  (birdVelocity g <=? CONFIG.maxVelocity) = true ->
  (birdVelocity (state_of (dispatch e g)) <=? CONFIG.maxVelocity) = true.
Proof.
  intros H. destruct e as [rnd handle| |rnd0 rnd handle|o|r|]; cbn [dispatch].
  - pose proof (basic_gameLoop_fields rnd handle g) as (Hv & _). rewrite Hv.
    destruct (gameRunning g); [|assumption].
    pose proof (basic_update_fields rnd g) as (Hu & _). rewrite Hu.
    apply clamped_velocity_le. now apply leb_not_nan in H.
  - pose proof (jump_fields g) as (Hv & _). rewrite Hv.
    destruct (gameRunning g); [|assumption]. vm_compute. reflexivity.
  - rewrite basic_startGame_state.
    pose proof (basic_gameLoop_fields rnd handle (state_of (resetRound rnd0 g))) as (Hv & _).
    rewrite Hv. rewrite basic_resetRound_state. cbn [gameRunning birdVelocity].
    pose proof (basic_update_fields rnd (state_of (resetRound rnd0 g))) as (Hu & _).
    rewrite basic_resetRound_state in Hu. rewrite Hu. cbn [birdVelocity].
    apply clamped_velocity_le. vm_compute. reflexivity.
  - pose proof (basic_async_fields (SaveSettled o) g I) as (Hv & _).
    cbn [dispatch] in Hv. now rewrite Hv.
  - pose proof (basic_async_fields (PointsFetched r) g I) as (Hv & _).
    cbn [dispatch] in Hv. now rewrite Hv.
  - pose proof (basic_async_fields SavePointsSuccess g I) as (Hv & _).
    cbn [dispatch] in Hv. now rewrite Hv.
Qed.

Lemma basic_velocity_never_exceeds_maxVelocity (es : list event) (g : gameState) :
  (birdVelocity g <=? CONFIG.maxVelocity) = true ->
  (birdVelocity (state_of (run es g)) <=? CONFIG.maxVelocity) = true.
Proof.
  revert g. induction es as [|e es IH]; intros g H.
  - exact H.
  - rewrite basic_run_cons. apply IH. now apply basic_dispatch_velocity_le.
Qed.

(** *** Ground and ceiling *)

Lemma basic_ground_or_ceiling_ends_game (rnd : float) (g : gameState) :
  let g' := state_of (update rnd g) in
  lt (birdY g') 0 = true \/
  gt (birdY g' + CONFIG.birdHeight) CONFIG.canvasHeight = true ->
  gameRunning g' = false.
Proof.
  intros g'.
  pose proof (basic_update_fields rnd g) as H. cbv zeta in H. fold g' in H.
  destruct H as (_ & _ & _ & _ & _ & _ & _ & Hrun).
  intros Hc. rewrite Hrun. unfold hitGroundOrCeiling.
  destruct Hc as [Hc|Hc]; rewrite Hc; [|rewrite orb_true_r]; reflexivity.
Qed.

(** *** The bird stays on the canvas while the game runs *)

Lemma basic_in_bounds_finite g : in_bounds g -> SFis_finite (Prim2SF (birdY g)) = true.
Proof. intros [H0 H1]. exact (bird_fits_finite _ H0 H1). Qed.

Lemma basic_update_flight_invariant rnd g :
  gameRunning g = true -> flight_invariant g -> flight_invariant (state_of (update rnd g)).
Proof.
  intros Hrun [Hv Hb]. specialize (Hb Hrun).
  pose proof (basic_update_fields rnd g) as H. revert H.
  generalize (state_of (update rnd g)) as g'.
  intros g' (Hv' & Hy' & _ & _ & _ & _ & _ & Hr').
  assert (Hvn : is_nan (birdVelocity g') = false).
  { rewrite Hv'. apply Math_min_not_nan; [|reflexivity].
    apply add_not_nan_l; [assumption|reflexivity]. }
  split; [exact Hvn|]. intros Hrun'.
  rewrite Hr', Hrun in Hrun'.
  destruct (hitGroundOrCeiling g') eqn:Hhit; [discriminate|]. clear Hrun' Hr'.
  unfold hitGroundOrCeiling, lt, gt in Hhit. apply orb_false_iff in Hhit.
  destruct Hhit as [Hlo Hhi].
  assert (Hyn : is_nan (birdY g') = false).
  { rewrite Hy', <- Hv'. apply add_not_nan_r; [now apply basic_in_bounds_finite|exact Hvn]. }
  split.
  - apply ltb_false_leb; [exact Hyn|reflexivity|exact Hlo].
  - apply ltb_false_leb; [reflexivity| |exact Hhi].
    apply add_not_nan_l; [exact Hyn|reflexivity].
Qed.

Lemma basic_flight_invariant_set_animationFrameId v g :
  flight_invariant (set_animationFrameId v g) <-> flight_invariant g.
Proof. reflexivity. Qed.

Lemma basic_gameLoop_flight_invariant rnd handle g :
  flight_invariant g -> flight_invariant (state_of (gameLoop rnd handle g)).
Proof.
  intros H. destruct (gameRunning g) eqn:Hrun.
  - rewrite basic_gameLoop_state, Hrun. apply basic_flight_invariant_set_animationFrameId.
    now apply basic_update_flight_invariant.
  - rewrite basic_gameLoop_state, Hrun. exact H.
Qed.

Lemma basic_dispatch_flight_invariant e g :
  flight_invariant g -> flight_invariant (state_of (dispatch e g)).
Proof.
  intros H. destruct e as [rnd handle| |rnd0 rnd handle|o|r|]; cbn [dispatch].
  - now apply basic_gameLoop_flight_invariant.
  - destruct H as [Hv Hb].
    pose proof (jump_fields g) as (Hv' & Hy' & _ & _ & Hr').
    unfold flight_invariant, in_bounds. rewrite Hv', Hy', Hr'. split; [|exact Hb].
    destruct (gameRunning g); [reflexivity|exact Hv].
  - rewrite basic_startGame_state. apply basic_gameLoop_flight_invariant.
    rewrite basic_resetRound_state. split; [reflexivity|]. intros _. split; reflexivity.
  - now destruct o.
  - destruct g. exact H.
  - exact H.
Qed.

Lemma basic_birdY_in_bounds_while_running (g : gameState) :
  reachable g -> gameRunning g = true ->
  (0 <=? birdY g) = true /\
  (birdY g <=? CONFIG.canvasHeight - CONFIG.birdHeight) = true.
Proof.
  intros Hreach Hrun.
  assert (Hinv : flight_invariant g).
  { clear Hrun. induction Hreach as [rnd g0|e g _ IH].
    - rewrite basic_resetRound_state. split; [reflexivity|]. intros _. split; reflexivity.
    - now apply basic_dispatch_flight_invariant. }
  destruct Hinv as [_ Hb]. destruct (Hb Hrun) as [H0 H1].
  split; [exact H0|]. exact (bird_fits_literal _ H0 H1).
Qed.

(** *** One point per obstacle; this variant makes no [addPoints] call *)

Lemma basic_obstacle_on_screen k :
  (k < 225)%nat ->
  lt (obstacleAfter k - CONFIG.obstacleSpeed) (- CONFIG.obstacleWidth) = false.
Proof.
  intros Hk.
  assert (H : forallb (fun k => negb (lt (obstacleAfter k - CONFIG.obstacleSpeed)
                                        (- CONFIG.obstacleWidth))) (seq 0 225) = true)
    by (vm_compute; reflexivity).
  rewrite forallb_forall in H. specialize (H k).
  rewrite in_seq in H. apply negb_true_iff, H. lia.
Qed.

Lemma basic_dispatch_between_passes e g k :
  is_restart e = false ->
  (k < 225)%nat ->
  obstacleX g = obstacleAfter k ->
  let g' := state_of (dispatch e g) in
  score g' = score g /\
  (obstacleX g' = obstacleAfter k \/ obstacleX g' = obstacleAfter (S k)).
Proof.
  intros He Hk Hx g'. unfold g'.
  destruct e as [rnd handle| |rnd0 rnd handle|o|r|]; try discriminate.
  - cbn [dispatch].
    pose proof (basic_gameLoop_fields rnd handle g) as (_ & _ & Hx' & Hs & _).
    rewrite Hx', Hs. destruct (gameRunning g); [|now auto].
    pose proof (basic_update_fields rnd g) as (_ & _ & Hx'' & _ & _ & Hs' & _).
    rewrite Hx'', Hs', Hx, basic_obstacle_on_screen by assumption.
    split; [reflexivity|]. right. reflexivity.
  - cbn [dispatch]. pose proof (jump_fields g) as (_ & _ & Hx' & Hs & _).
    rewrite Hx', Hs. auto.
  - pose proof (basic_async_fields (SaveSettled o) g I) as (_ & _ & Hx' & _ & _ & Hs & _).
    rewrite Hx', Hs. auto.
  - pose proof (basic_async_fields (PointsFetched r) g I) as (_ & _ & Hx' & _ & _ & Hs & _).
    rewrite Hx', Hs. auto.
  - pose proof (basic_async_fields SavePointsSuccess g I) as (_ & _ & Hx' & _ & _ & Hs & _).
    rewrite Hx', Hs. auto.
Qed.

Lemma basic_score_kept_between_passes es : forall g k,
  existsb is_restart es = false ->
  (k + length es <= 225)%nat ->
  obstacleX g = obstacleAfter k ->
  score (state_of (run es g)) = score g.
Proof.
  induction es as [|e es IH]; intros g k Hes Hlen Hx.
  - reflexivity.
  - cbn [existsb] in Hes. apply orb_false_iff in Hes. destruct Hes as [He Hes].
    cbn [length] in Hlen. rewrite basic_run_cons.
    destruct (basic_dispatch_between_passes e g k He ltac:(lia) Hx) as [Hs [Hx'|Hx']].
    + rewrite (IH _ k Hes ltac:(lia) Hx'). exact Hs.
    + rewrite (IH _ (S k) Hes ltac:(lia) Hx'). exact Hs.
Qed.

Lemma basic_score_once_per_obstacle (rnd : float) (g : gameState) :
  let g' := state_of (update rnd g) in
  let passed := lt (obstacleX g - CONFIG.obstacleSpeed) (- CONFIG.obstacleWidth) in
  score g' = (if passed then score g + 1 else score g) /\
  (passed = true ->
   obstacleX g' = CONFIG.canvasWidth /\
   forall es, existsb is_restart es = false -> (length es <= 225)%nat ->
              score (state_of (run es g')) = score g').
Proof.
  intros g' passed.
  pose proof (basic_update_fields rnd g) as (_ & _ & Hx & _ & _ & Hs & _).
  fold g' passed in Hx, Hs.
  split; [exact Hs|].
  intros Hp. rewrite Hp in Hx. split; [exact Hx|].
  intros es Hes Hlen. apply (basic_score_kept_between_passes es g' 0%nat); auto.
Qed.

(** *** The regenerated gap *)

Lemma basic_resetObstacle_gap_top_in_range (rnd : float) (g : gameState) :
  gap g = CONFIG.gapSize ->
  (0 <=? rnd) = true -> (rnd <? 1) = true ->
  let g' := state_of (resetObstacle rnd g) in
  obstacleX g' = CONFIG.canvasWidth /\
  (50 <=? obstacleHeight g') = true /\
  (obstacleHeight g' <=? CONFIG.canvasHeight - CONFIG.gapSize - 50) = true.
Proof.
  intros Hgap H0 H1 g'. unfold g', resetObstacle.
  rewrite basic_state_of_seq, !basic_state_of_modify.
  cbn [obstacleX obstacleHeight set_obstacleHeight set_obstacleX gap].
  rewrite Hgap. split; [reflexivity|].
  change (CONFIG.canvasHeight - CONFIG.gapSize - 100) with 350.
  change (CONFIG.canvasHeight - CONFIG.gapSize - 50) with 400.
  now apply gap_top_range.
Qed.

(** *** Saving the score

    Here a successful save makes the SDK report the new total, which
    is stored in [gameState.ogpPoints]; no other field depends on it. *)

Lemma basic_saveScore_calls_endGame g :
  saveScore_calls (log_of (endGame g)) = if gt (score g) 0 then [score g] else [].
Proof.
  rewrite basic_endGame_log. unfold saveScore_calls. rewrite !flat_map_app.
  destruct (truthy_handle (animationFrameId g)), (animationFrameId g), (gt (score g) 0);
    reflexivity.
Qed.

Lemma basic_update_saveScore_calls rnd g :
  gameRunning g = true ->
  saveScore_calls (log_of (update rnd g))
  = if negb (gameRunning (state_of (update rnd g)))
    then (if gt (score (state_of (update rnd g))) 0
          then [score (state_of (update rnd g))] else [])
    else [].
Proof.
  intros Hrun.
  rewrite basic_update_log, basic_update_state.
  pose proof (basic_beforeCollisionCheck_fields rnd g) as Hb. cbv zeta in Hb.
  destruct Hb as (_ & _ & _ & _ & _ & _ & _ & Hr & _).
  rewrite Hrun in Hr. revert Hr.
  generalize (beforeCollisionCheck rnd g) as b. intros b Hr.
  rewrite basic_checkCollisions_log.
  pose proof (basic_checkCollisions_fields b) as Hc. cbv zeta in Hc.
  destruct Hc as (_ & _ & _ & _ & _ & Hs & _ & Hg).
  rewrite Hs, Hg, Hr.
  destruct (hitGroundOrCeiling b || hitObstacle b); [|reflexivity].
  apply basic_saveScore_calls_endGame.
Qed.

Lemma basic_saveScore_once_at_game_end
    (rnd : float) (handle : Z) (g : gameState) (e : event) :
  let g' := state_of (gameLoop rnd handle g) in
  saveScore_calls (log_of (gameLoop rnd handle g))
  = (if gameRunning g && negb (gameRunning g')
     then (if gt (score g') 0 then [score g'] else [])
     else [])
  /\ (match e with SaveSettled _ | PointsFetched _ | SavePointsSuccess => True | _ => False end ->
      set_ogpPoints (ogpPoints g') (state_of (dispatch e g')) = g').
Proof.
  intros g'. split.
  - unfold g'. rewrite basic_gameLoop_state, basic_gameLoop_log.
    destruct (gameRunning g) eqn:Hrun; [|reflexivity].
    unfold saveScore_calls at 1. rewrite flat_map_app.
    fold (saveScore_calls (log_of (update rnd g))).
    rewrite basic_update_saveScore_calls by assumption.
    generalize (state_of (update rnd g)) as u. intros u.
    cbn. rewrite app_nil_r. reflexivity.
  - generalize g' as u. intros u. destruct u.
    destruct e as [| | |[|]|r|]; intros H; try contradiction; reflexivity.
Qed.

(** *** Falling to the ground *)

Lemma basic_no_jump_hits_ground (rnd0 : float) (g0 : gameState) (ticks : nat -> float * Z) :
  exists n, (n <= 200)%nat /\
    let start := state_of (resetRound rnd0 g0) in
    gameRunning (state_of (frames ticks (pred n) start)) = true /\
    gameRunning (state_of (frames ticks n start)) = false /\
    gt (birdY (state_of (frames ticks n start)) + CONFIG.birdHeight) CONFIG.canvasHeight = true.
Proof.
  exists 104%nat. split; [lia|]. intros start.
  assert (H : gameRunning (state_of (frames ticks 103 start)) = true /\
              gt (birdY (state_of (frames ticks 103 start))
                  + Math_min (birdVelocity (state_of (frames ticks 103 start)) + CONFIG.gravity)
                      CONFIG.maxVelocity
                  + CONFIG.birdHeight) CONFIG.canvasHeight = true).
  { unfold start. destruct g0 as [y v x gp h sc pts run id].
    vm_compute. split; reflexivity. }
  destruct H as [Hrun Hhit].
  cbn [pred]. split; [exact Hrun|].
  rewrite (basic_frames_succ ticks 103).
  set (s := state_of (frames ticks 103 start)) in *. clearbody s.
  pose proof (basic_gameLoop_fields (fst (ticks 103%nat)) (snd (ticks 103%nat)) s)
    as (_ & Hy & _ & _ & Hr).
  pose proof (basic_update_fields (fst (ticks 103%nat)) s)
    as (_ & Hy' & _ & _ & _ & _ & _ & Hr').
  rewrite Hrun in Hy, Hr. rewrite Hy, Hr, Hr'.
  unfold hitGroundOrCeiling. rewrite Hy'. unfold gt in *. rewrite Hhit.
  rewrite orb_true_r. cbn [orb]. split; reflexivity.
Qed.

(** *** What [endGame] changes *)

Lemma basic_endGame_frame (g : gameState) :
  let g' := state_of (endGame g) in
  g' = set_animationFrameId (animationFrameId g') (set_gameRunning false g) /\
  In (DomFinalScore (score g)) (log_of (endGame g)) /\
  saveScore_calls (log_of (endGame g)) = (if gt (score g) 0 then [score g] else []).
Proof.
  intros g'. unfold g'. rewrite basic_endGame_state, basic_endGame_log.
  repeat split; try reflexivity.
  - apply in_or_app. right. left. reflexivity.
  - unfold saveScore_calls. rewrite !flat_map_app.
    destruct (truthy_handle (animationFrameId g)), (animationFrameId g), (gt (score g) 0);
      reflexivity.
Qed.

End BasicFacts.

(** ** Sessions of the rotation-enabled variant *)

Module EnhancedSessionFacts.

Import JS Enhanced EnhancedFacts EnhancedSession.

(** What every handler keeps is kept by a whole session. *)
Lemma run_invariant (P : gameState -> Prop) (ok : event -> bool) :
  (forall e g, ok e = true -> P g -> P (state_of (dispatch e g))) ->
  forall es g, forallb ok es = true -> P g -> P (state_of (run es g)).
Proof.
  intros Hstep. induction es as [|e es IH]; intros g Hok HP; [exact HP|].
  cbn [forallb] in Hok. apply andb_true_iff in Hok. destruct Hok as [He Hes].
  rewrite run_cons. apply IH; [exact Hes|]. now apply Hstep.
Qed.

Lemma run_invariant_all (P : gameState -> Prop) :
  (forall e g, P g -> P (state_of (dispatch e g))) ->
  forall es g, P g -> P (state_of (run es g)).
Proof.
  intros Hstep. induction es as [|e es IH]; intros g HP; [exact HP|].
  rewrite run_cons. apply IH. now apply Hstep.
Qed.

Lemma log_of_run_cons e es g :
  log_of (run (e :: es) g) = log_of (dispatch e g) ++ log_of (run es (state_of (dispatch e g))).
Proof. cbn [run]. apply log_of_seq. Qed.

Lemma constructor_state rnd :
  state_of (constructor rnd initialGameState)
  = set_obstacleHeight (rnd * (CONFIG.canvasHeight - CONFIG.gapSize - 100) + 50)
      initialGameState.
Proof. reflexivity. Qed.

(** [flap], as one assignment. *)
Lemma flap_state g :
  state_of (flap g)
  = if gameRunning g
    then set_animationCounter 0
           (set_animationFrame
              (if gt (birdRotation g) 0 then 0
               else if strict_eq (animationFrame g) 0 then 1 else 0)
              (set_birdVelocity (- CONFIG.flapStrength) g))
    else g.
Proof.
  destruct g as [y v r rv x gp h sc pts run id af ac].
  unfold flap, updateAnimationFrame. monad_unfold.
  repeat case_if; reflexivity.
Qed.

Lemma flap_log g : log_of (flap g) = [].
Proof.
  destruct g as [y v r rv x gp h sc pts run id af ac].
  unfold flap, updateAnimationFrame. monad_unfold.
  repeat case_if; reflexivity.
Qed.

(** *** The obstacle's positions *)

Lemma obstacle_recycled :
  lt (obstacleAfter 225 - CONFIG.obstacleSpeed) (- CONFIG.obstacleWidth) = true.
Proof. vm_compute. reflexivity. Qed.

Lemma update_on_track rnd g : on_track g -> on_track (state_of (update rnd g)).
Proof.
  intros (k & Hk & Hx).
  pose proof (update_fields rnd g) as H. revert H.
  generalize (state_of (update rnd g)) as u.
  intros u (_ & _ & _ & _ & Hx' & _). rewrite Hx in Hx'.
  destruct (Nat.eq_dec k 225) as [->|Hne].
  - exists 0%nat. split; [lia|]. now rewrite Hx', obstacle_recycled.
  - exists (S k). split; [lia|]. rewrite Hx', obstacle_on_screen by lia. reflexivity.
Qed.

Lemma on_track_set_animationFrameId v g : on_track (set_animationFrameId v g) <-> on_track g.
Proof. reflexivity. Qed.

Lemma gameLoop_on_track rnd handle g :
  on_track g -> on_track (state_of (gameLoop rnd handle g)).
Proof.
  intros H. destruct (gameRunning g) eqn:Hrun; rewrite gameLoop_state, Hrun; [|exact H].
  apply on_track_set_animationFrameId. now apply update_on_track.
Qed.

Lemma resetRound_on_track rnd g : on_track (state_of (resetRound rnd g)).
Proof. exists 0%nat. split; [lia|]. now rewrite resetRound_state. Qed.

Lemma dispatch_on_track e g : on_track g -> on_track (state_of (dispatch e g)).
Proof.
  intros H. destruct e as [rnd handle| |rnd0 rnd handle|o]; cbn [dispatch].
  - now apply gameLoop_on_track.
  - destruct H as (k & Hk & Hx). exists k. split; [exact Hk|].
    pose proof (flap_fields g) as (_ & _ & Hx' & _). now rewrite Hx'.
  - rewrite startGame_state. apply gameLoop_on_track, resetRound_on_track.
  - now destruct o.
Qed.

Lemma track_bounds k :
  (k <= 225)%nat ->
  (- CONFIG.obstacleWidth <=? obstacleAfter k) = true /\
  (obstacleAfter k <=? CONFIG.canvasWidth) = true.
Proof.
  intros Hk.
  assert (H : forallb (fun k => (- CONFIG.obstacleWidth <=? obstacleAfter k)
                                && (obstacleAfter k <=? CONFIG.canvasWidth))
                (seq 0 226) = true) by (vm_compute; reflexivity).
  rewrite forallb_forall in H. specialize (H k).
  rewrite in_seq in H. apply andb_true_iff, H. lia.
Qed.

Lemma track_overlap k :
  (k <= 225)%nat ->
  gt (CONFIG.birdX + CONFIG.birdWidth) (obstacleAfter k)
  && lt CONFIG.birdX (obstacleAfter k + CONFIG.obstacleWidth)
  = (161 <=? k)%nat && (k <=? 199)%nat.
Proof.
  intros Hk.
  assert (H : forallb (fun k => Bool.eqb
                         (gt (CONFIG.birdX + CONFIG.birdWidth) (obstacleAfter k)
                          && lt CONFIG.birdX (obstacleAfter k + CONFIG.obstacleWidth))
                         ((161 <=? k)%nat && (k <=? 199)%nat))
                (seq 0 226) = true) by (vm_compute; reflexivity).
  rewrite forallb_forall in H. specialize (H k).
  rewrite in_seq in H. apply eqb_prop, H. lia.
Qed.

(** X1. Whatever happens in a session, the obstacle is at one of the 226
    places [canvasWidth - k * obstacleSpeed], [k <= 225], hence never left
    of [-obstacleWidth] nor right of [canvasWidth].  Its column overlaps
    the bird's at the 39 places [k = 161, ..., 199] and nowhere else: only
    there can the obstacle end the game. *)
Theorem obstacleX_stays_on_track (rnd0 : float) (es : list event) :
  let g := session rnd0 es in
  (exists k, (k <= 225)%nat /\ obstacleX g = obstacleAfter k /\
     (gt (CONFIG.birdX + CONFIG.birdWidth) (obstacleX g)
      && lt CONFIG.birdX (obstacleX g + CONFIG.obstacleWidth)
      = (161 <=? k)%nat && (k <=? 199)%nat) /\
     ((k < 161)%nat \/ (199 < k)%nat -> hitObstacle g = false)) /\
  (- CONFIG.obstacleWidth <=? obstacleX g) = true /\
  (obstacleX g <=? CONFIG.canvasWidth) = true.
Proof.
  intros g.
  assert (H : on_track g).
  { unfold g, session. apply run_invariant_all; [exact dispatch_on_track|].
    exists 0%nat. split; [lia|]. reflexivity. }
  destruct H as (k & Hk & Hx). split.
  - exists k. split; [exact Hk|]. split; [exact Hx|].
    pose proof (track_overlap k Hk) as Ho. rewrite <- Hx in Ho.
    split; [exact Ho|]. intros Hout. unfold hitObstacle. cbv zeta. rewrite Ho.
    replace ((161 <=? k)%nat && (k <=? 199)%nat) with false; [reflexivity|].
    symmetry. apply andb_false_iff.
    destruct Hout as [Hlt|Hgt]; [left; apply Nat.leb_gt|right; apply Nat.leb_gt]; lia.
  - rewrite Hx. now apply track_bounds.
Qed.

(** *** The bird's velocity *)

Lemma velocity_settles v0 :
  v0 = 0 \/ v0 = - CONFIG.flapStrength ->
  Math_min (velocityAfter v0 161 + CONFIG.gravity) CONFIG.maxVelocity = velocityAfter v0 161.
Proof. intros [->| ->]; vm_compute; reflexivity. Qed.

Lemma velocity_track_bounds v0 k :
  v0 = 0 \/ v0 = - CONFIG.flapStrength ->
  (k <= 161)%nat ->
  (- CONFIG.flapStrength <=? velocityAfter v0 k) = true /\
  (velocityAfter v0 k <=? CONFIG.maxVelocity) = true.
Proof.
  intros Hv Hk.
  assert (H : forall v0, v0 = 0 \/ v0 = - CONFIG.flapStrength ->
              forallb (fun k => (- CONFIG.flapStrength <=? velocityAfter v0 k)
                                && (velocityAfter v0 k <=? CONFIG.maxVelocity))
                (seq 0 162) = true)
    by (intros ? [->| ->]; vm_compute; reflexivity).
  specialize (H v0 Hv). rewrite forallb_forall in H. specialize (H k).
  rewrite in_seq in H. apply andb_true_iff, H. lia.
Qed.

Lemma update_velocity_on_track rnd g :
  velocity_on_track g -> velocity_on_track (state_of (update rnd g)).
Proof.
  intros (k & Hk & Hv).
  pose proof (update_fields rnd g) as H. revert H.
  generalize (state_of (update rnd g)) as u.
  intros u (Hv' & _).
  destruct (Nat.eq_dec k 161) as [->|Hne].
  - exists 161%nat. split; [lia|]. rewrite Hv'.
    destruct Hv as [Hv|Hv]; rewrite Hv; [left|right]; apply velocity_settles; auto.
  - exists (S k). split; [lia|]. rewrite Hv'.
    destruct Hv as [Hv|Hv]; rewrite Hv; [left|right]; reflexivity.
Qed.

Lemma velocity_on_track_set_animationFrameId v g :
  velocity_on_track (set_animationFrameId v g) <-> velocity_on_track g.
Proof. reflexivity. Qed.

Lemma gameLoop_velocity_on_track rnd handle g :
  velocity_on_track g -> velocity_on_track (state_of (gameLoop rnd handle g)).
Proof.
  intros H. destruct (gameRunning g) eqn:Hrun; rewrite gameLoop_state, Hrun; [|exact H].
  apply velocity_on_track_set_animationFrameId. now apply update_velocity_on_track.
Qed.

Lemma dispatch_velocity_on_track e g :
  velocity_on_track g -> velocity_on_track (state_of (dispatch e g)).
Proof.
  intros H. destruct e as [rnd handle| |rnd0 rnd handle|o]; cbn [dispatch].
  - now apply gameLoop_velocity_on_track.
  - rewrite flap_state. destruct (gameRunning g); [|exact H].
    exists 0%nat. split; [lia|]. right. reflexivity.
  - rewrite startGame_state. apply gameLoop_velocity_on_track.
    rewrite resetRound_state. exists 0%nat. split; [lia|]. left. reflexivity.
  - now destruct o.
Qed.

(** X2. In every session the bird's velocity is what at most 161 frames of
    gravity make of [0] (the velocity of a start) or of [-flapStrength]
    (the velocity of a flap); so it never leaves the range from
    [-flapStrength] to [maxVelocity], which it reaches 101 frames after a
    start and 161 frames after a flap and then keeps. *)
Theorem birdVelocity_between_flap_and_max (rnd0 : float) (es : list event) :
  let g := session rnd0 es in
  (exists k, (k <= 161)%nat /\
     (birdVelocity g = velocityAfter 0 k \/
      birdVelocity g = velocityAfter (- CONFIG.flapStrength) k)) /\
  ((- CONFIG.flapStrength <=? birdVelocity g) = true /\
   (birdVelocity g <=? CONFIG.maxVelocity) = true) /\
  (velocityAfter 0 101 = CONFIG.maxVelocity /\
   velocityAfter (- CONFIG.flapStrength) 161 = CONFIG.maxVelocity /\
   Math_min (CONFIG.maxVelocity + CONFIG.gravity) CONFIG.maxVelocity = CONFIG.maxVelocity).
Proof.
  intros g.
  assert (H : velocity_on_track g).
  { unfold g, session. apply run_invariant_all; [exact dispatch_velocity_on_track|].
    exists 0%nat. split; [lia|]. left. reflexivity. }
  split; [exact H|]. split.
  - destruct H as (k & Hk & [-> | ->]); apply velocity_track_bounds; auto.
  - repeat split; vm_compute; reflexivity.
Qed.

(** *** The gap *)

Lemma in_unit_interval_spec r :
  in_unit_interval r = true -> (0 <=? r) = true /\ (r <? 1) = true.
Proof. unfold in_unit_interval. apply andb_true_iff. Qed.

Lemma update_gap_top_ok rnd g :
  in_unit_interval rnd = true -> gap_top_ok g -> gap_top_ok (state_of (update rnd g)).
Proof.
  intros Hr (Hgap & Hlo & Hhi). apply in_unit_interval_spec in Hr. destruct Hr as [H0 H1].
  pose proof (update_fields rnd g) as H. revert H.
  generalize (state_of (update rnd g)) as u.
  intros u (_ & _ & _ & _ & _ & Hh & Hg & _).
  unfold gap_top_ok. rewrite Hh, Hg, Hgap.
  split; [reflexivity|].
  destruct (lt (obstacleX g - CONFIG.obstacleSpeed) (- CONFIG.obstacleWidth)).
  - exact (gap_top_range rnd H0 H1).
  - split; assumption.
Qed.

Lemma gap_top_ok_set_animationFrameId v g :
  gap_top_ok (set_animationFrameId v g) <-> gap_top_ok g.
Proof. reflexivity. Qed.

Lemma gameLoop_gap_top_ok rnd handle g :
  in_unit_interval rnd = true -> gap_top_ok g ->
  gap_top_ok (state_of (gameLoop rnd handle g)).
Proof.
  intros Hr H. destruct (gameRunning g) eqn:Hrun; rewrite gameLoop_state, Hrun; [|exact H].
  apply gap_top_ok_set_animationFrameId. now apply update_gap_top_ok.
Qed.

Lemma resetRound_gap_top_ok rnd g :
  in_unit_interval rnd = true -> gap g = CONFIG.gapSize ->
  gap_top_ok (state_of (resetRound rnd g)).
Proof.
  intros Hr Hgap. apply in_unit_interval_spec in Hr. destruct Hr as [H0 H1].
  rewrite resetRound_state. unfold gap_top_ok. cbn [gap obstacleHeight]. rewrite Hgap.
  split; [reflexivity|]. exact (gap_top_range rnd H0 H1).
Qed.

Lemma dispatch_gap_top_ok e g :
  random_ok e = true -> gap_top_ok g -> gap_top_ok (state_of (dispatch e g)).
Proof.
  intros He H. destruct e as [rnd handle| |rnd0 rnd handle|o]; cbn [dispatch random_ok] in *.
  - now apply gameLoop_gap_top_ok.
  - rewrite flap_state. now destruct (gameRunning g).
  - apply andb_true_iff in He. destruct He as [He0 He].
    rewrite startGame_state. apply gameLoop_gap_top_ok; [exact He|].
    apply resetRound_gap_top_ok; [exact He0|]. apply H.
  - now destruct o.
Qed.

Lemma constructor_gap_top_ok rnd0 :
  in_unit_interval rnd0 = true ->
  gap_top_ok (state_of (constructor rnd0 initialGameState)).
Proof.
  intros Hr. apply in_unit_interval_spec in Hr. destruct Hr as [H0 H1].
  rewrite constructor_state. split; [reflexivity|]. exact (gap_top_range rnd0 H0 H1).
Qed.

Lemma session_gap_top_ok rnd0 es :
  in_unit_interval rnd0 = true -> forallb random_ok es = true ->
  gap_top_ok (session rnd0 es).
Proof.
  intros Hr Hes. unfold session.
  apply (run_invariant gap_top_ok random_ok dispatch_gap_top_ok); [exact Hes|].
  now apply constructor_gap_top_ok.
Qed.

(** X3. In every session the gap keeps its configured size and every gap
    top the game ever holds lies between [50] and
    [canvasHeight - gapSize - 50], as long as [Math.random()] returns
    numbers in [0, 1). *)
Theorem gap_top_in_range_in_every_session (rnd0 : float) (es : list event) :
  in_unit_interval rnd0 = true -> forallb random_ok es = true ->
  let g := session rnd0 es in
  gap g = CONFIG.gapSize /\
  (50 <=? obstacleHeight g) = true /\
  (obstacleHeight g <=? CONFIG.canvasHeight - CONFIG.gapSize - 50) = true.
Proof. intros Hr Hes. exact (session_gap_top_ok rnd0 es Hr Hes). Qed.

(** *** The bird and the obstacle *)

Lemma update_clear_of_obstacle rnd g :
  gameRunning g = true -> clear_of_obstacle (state_of (update rnd g)).
Proof.
  intros Hrun.
  pose proof (update_fields rnd g) as H. revert H.
  generalize (state_of (update rnd g)) as u.
  intros u (_ & _ & _ & _ & _ & _ & _ & _ & _ & Hr) Hrun'.
  rewrite Hr in Hrun'.
  destruct (hitGroundOrCeiling u); [discriminate|].
  destruct (hitObstacle u); [discriminate|reflexivity].
Qed.

Lemma clear_of_obstacle_set_animationFrameId v g :
  clear_of_obstacle (set_animationFrameId v g) <-> clear_of_obstacle g.
Proof. reflexivity. Qed.

Lemma gameLoop_clear_of_obstacle rnd handle g :
  clear_of_obstacle g -> clear_of_obstacle (state_of (gameLoop rnd handle g)).
Proof.
  intros H. destruct (gameRunning g) eqn:Hrun; rewrite gameLoop_state, Hrun; [|exact H].
  apply clear_of_obstacle_set_animationFrameId. now apply update_clear_of_obstacle.
Qed.

Lemma resetRound_clear_of_obstacle rnd g : clear_of_obstacle (state_of (resetRound rnd g)).
Proof.
  intros _. rewrite resetRound_state. unfold hitObstacle. cbn [obstacleX birdY].
  reflexivity.
Qed.

Lemma dispatch_clear_of_obstacle e g :
  clear_of_obstacle g -> clear_of_obstacle (state_of (dispatch e g)).
Proof.
  intros H. destruct e as [rnd handle| |rnd0 rnd handle|o]; cbn [dispatch].
  - now apply gameLoop_clear_of_obstacle.
  - rewrite flap_state. destruct (gameRunning g) eqn:Hrun; [|exact H].
    intros _. exact (H Hrun).
  - rewrite startGame_state. apply gameLoop_clear_of_obstacle, resetRound_clear_of_obstacle.
  - now destruct o.
Qed.

Lemma session_clear_of_obstacle rnd0 es : clear_of_obstacle (session rnd0 es).
Proof.
  unfold session. apply run_invariant_all; [exact dispatch_clear_of_obstacle|].
  intros H. discriminate H.
Qed.

Lemma session_flight_invariant rnd0 es : flight_invariant (session rnd0 es).
Proof.
  unfold session. apply run_invariant_all; [exact dispatch_flight_invariant|].
  split; [reflexivity|]. intros H. discriminate H.
Qed.

Lemma gap_top_finite h :
  (50 <=? h) = true -> (h <=? 400) = true -> SFis_finite (Prim2SF h) = true.
Proof.
  intros H0 H1. rewrite FloatAxioms.leb_spec in H0, H1.
  destruct (Prim2SF h) as [s|[|]| |s m e]; try reflexivity.
  - vm_compute in H0. discriminate.
  - vm_compute in H1. discriminate.
  - vm_compute in H0. discriminate.
Qed.

(** X4. A running game has the bird clear of the obstacle: in every session
    with [Math.random()] in [0, 1), when the game runs and the bird's
    column overlaps the obstacle's, the bird is inside the gap, its top at
    or below the gap's top and its bottom at or above the gap's bottom.
    And a step after which the bird is in the column but not in the gap
    ends the game. *)
Theorem running_bird_is_inside_the_gap (rnd0 : float) (es : list event) :
  in_unit_interval rnd0 = true -> forallb random_ok es = true ->
  let g := session rnd0 es in
  (gameRunning g = true ->
   gt (CONFIG.birdX + CONFIG.birdWidth) (obstacleX g) = true ->
   lt CONFIG.birdX (obstacleX g + CONFIG.obstacleWidth) = true ->
   (obstacleHeight g <=? birdY g) = true /\
   (birdY g + CONFIG.birdHeight <=? obstacleHeight g + gap g) = true) /\
  (forall rnd, hitObstacle (state_of (update rnd g)) = true ->
               gameRunning (state_of (update rnd g)) = false).
Proof.
  intros Hr Hes g. split.
  - intros Hrun Hleft Hright.
    pose proof (session_clear_of_obstacle rnd0 es Hrun) as Hclear.
    destruct (session_gap_top_ok rnd0 es Hr Hes) as (Hgap & Hlo & Hhi).
    destruct (session_flight_invariant rnd0 es) as [_ Hb]. specialize (Hb Hrun).
    fold g in Hclear, Hgap, Hlo, Hhi, Hb. destruct Hb as [Hy0 Hy1].
    unfold hitObstacle in Hclear. cbv zeta in Hclear.
    rewrite Hleft, Hright in Hclear. cbn [andb] in Hclear.
    apply orb_false_iff in Hclear. destruct Hclear as [Htop Hbottom].
    unfold lt, gt in Htop, Hbottom.
    pose proof (leb_not_nan _ _ Hy0) as [_ Ny].
    pose proof (leb_not_nan _ _ Hy1) as [Nyb _].
    pose proof (leb_not_nan _ _ Hlo) as [_ Nh].
    split.
    + now apply ltb_false_leb.
    + apply ltb_false_leb; [|exact Nyb|exact Hbottom].
      rewrite Hgap. apply add_not_nan_r; [|reflexivity].
      now apply gap_top_finite.
  - intros rnd Hhit.
    pose proof (update_fields rnd g) as H. revert H Hhit.
    generalize (state_of (update rnd g)) as u.
    intros u (_ & _ & _ & _ & _ & _ & _ & _ & _ & Hrun) Hhit.
    rewrite Hrun, Hhit, orb_true_r. reflexivity.
Qed.

(** *** After the game is over *)

Lemma dispatch_game_over e g :
  gameRunning g = false -> is_restart e = false ->
  state_of (dispatch e g) = g /\ Forall is_console (log_of (dispatch e g)).
Proof.
  intros Hrun He. destruct e as [rnd handle| |rnd0 rnd handle|o]; cbn [dispatch].
  - rewrite gameLoop_state, gameLoop_log, Hrun. split; [reflexivity|constructor].
  - rewrite flap_state, flap_log, Hrun. split; [reflexivity|constructor].
  - discriminate He.
  - destruct o; (split; [reflexivity|]); (constructor; [|constructor]).
    + left. reflexivity.
    + right. reflexivity.
Qed.

(** X5. Once the game is over it stays as it is until [startGame]: frame
    callbacks, flaps and the handlers of a settled save change no field,
    draw nothing, request no frame and call nothing but the console. *)
Theorem game_over_is_absorbing (es : list event) (g : gameState) :
  gameRunning g = false -> existsb is_restart es = false ->
  state_of (run es g) = g /\
  Forall (fun e => e = ConsoleLog \/ e = ConsoleError) (log_of (run es g)).
Proof.
  intros Hrun. induction es as [|e es IH]; intros Hes.
  - split; [reflexivity|constructor].
  - cbn [existsb] in Hes. apply orb_false_iff in Hes. destruct Hes as [He Hes].
    destruct (dispatch_game_over e g Hrun He) as [Hs Hl].
    rewrite run_cons, log_of_run_cons, Hs.
    destruct (IH Hes) as [IHs IHl]. split; [exact IHs|].
    apply Forall_app. split; assumption.
Qed.

(** *** Starting a round *)

(** X6. [startGame] starts every round from the same state, whatever state
    it is called in (before the first round, after a game over, or in a
    running game): only [gap] and [ogpPoints] are kept.  It hides the
    screens, runs the first frame (the bird falls by [gravity], the
    obstacle moves by [obstacleSpeed], no collision), draws it and
    requests the next frame; it cancels no frame and calls no
    collaborator. *)
Theorem startGame_starts_afresh (rnd0 rnd : float) (handle : Z) (g : gameState) :
  let first :=
    {| birdY := CONFIG.birdInitialY + CONFIG.gravity;
       birdVelocity := CONFIG.gravity;
       birdRotation :=
         CONFIG.gravity * CONFIG.rotationSensitivity * 0.1 * CONFIG.rotationFriction;
       birdRotationVelocity :=
         CONFIG.gravity * CONFIG.rotationSensitivity * 0.1 * CONFIG.rotationFriction;
       obstacleX := CONFIG.canvasWidth - CONFIG.obstacleSpeed;
       gap := gap g;
       obstacleHeight := rnd0 * (CONFIG.canvasHeight - gap g - 100) + 50;
       score := 0;
       ogpPoints := ogpPoints g;
       gameRunning := true;
       animationFrameId := animationFrameId g;
       animationFrame := 0;
       animationCounter := 1 |} in
  state_of (startGame rnd0 rnd handle g) = set_animationFrameId (Some handle) first /\
  log_of (startGame rnd0 rnd handle g)
  = [DomHideScreens; Render first; RequestAnimationFrame].
Proof.
  destruct g as [y v r rv x gp h sc pts run id af ac].
  vm_compute. split; reflexivity.
Qed.

(** *** The frame that ends the game *)

Lemma cancel_calls_app l1 l2 : cancel_calls (l1 ++ l2) = cancel_calls l1 ++ cancel_calls l2.
Proof. apply flat_map_app. Qed.

Lemma cancel_calls_endGame g :
  cancel_calls (log_of (endGame g))
  = match animationFrameId g with
    | Some id => if Z.eqb id 0 then [] else [id]
    | None => []
    end.
Proof.
  rewrite endGame_log. unfold cancel_calls. rewrite !flat_map_app.
  destruct (animationFrameId g) as [id|]; cbn [truthy_handle].
  - destruct (Z.eqb id 0), (gt (score g) 0); reflexivity.
  - destruct (gt (score g) 0); reflexivity.
Qed.

Lemma update_cancel_calls rnd g :
  gameRunning g = true ->
  cancel_calls (log_of (update rnd g))
  = if gameRunning (state_of (update rnd g)) then []
    else match animationFrameId g with
         | Some id => if Z.eqb id 0 then [] else [id]
         | None => []
         end.
Proof.
  intros Hrun.
  rewrite update_log, update_state, cancel_calls_app.
  pose proof (beforeCollisionCheck_fields rnd g) as Hb. cbv zeta in Hb.
  destruct Hb as (_ & _ & _ & _ & _ & _ & _ & _ & _ & Hr & Hid).
  rewrite Hrun in Hr. revert Hr Hid.
  generalize (beforeCollisionCheck rnd g) as b.
  generalize (lt (obstacleX g - CONFIG.obstacleSpeed) (- CONFIG.obstacleWidth)) as passed.
  intros passed b Hr Hid.
  replace (cancel_calls (if passed then [OgpAddPoints 1] else [])) with (@nil Z)
    by (now destruct passed).
  cbn [app]. rewrite checkCollisions_log.
  pose proof (checkCollisions_fields b) as Hc. cbv zeta in Hc.
  destruct Hc as (_ & _ & _ & _ & _ & _ & _ & _ & _ & Hg).
  rewrite Hg, Hr.
  destruct (hitGroundOrCeiling b || hitObstacle b); [|reflexivity].
  now rewrite cancel_calls_endGame, Hid.
Qed.

(** X7. The frame in which the game ends is carried out to its end:
    [endGame] cancels the handle that the previous frame stored (if it is
    not [null] or [0]), which is the handle of the callback that is
    running; then [gameLoop] still draws the final state and requests one
    more frame, whose handle the state keeps.  That last callback finds the
    game over and does nothing. *)
Theorem game_over_frame_requests_one_more
    (rnd : float) (handle : Z) (g : gameState) :
  gameRunning g = true ->
  gameRunning (state_of (update rnd g)) = false ->
  let r := gameLoop rnd handle g in
  gameRunning (state_of r) = false /\
  animationFrameId (state_of r) = Some handle /\
  log_of r
  = log_of (update rnd g) ++ [Render (state_of (update rnd g)); RequestAnimationFrame] /\
  cancel_calls (log_of r)
  = match animationFrameId g with
    | Some id => if Z.eqb id 0 then [] else [id]
    | None => []
    end /\
  forall rnd' handle', gameLoop rnd' handle' (state_of r) = (tt, state_of r, []).
Proof.
  intros Hrun Hover r.
  assert (Hs : state_of r = set_animationFrameId (Some handle) (state_of (update rnd g))).
  { unfold r. now rewrite gameLoop_state, Hrun. }
  assert (Hl : log_of r
               = log_of (update rnd g)
                 ++ [Render (state_of (update rnd g)); RequestAnimationFrame]).
  { unfold r. now rewrite gameLoop_log, Hrun. }
  pose proof (update_cancel_calls rnd g Hrun) as Hc. rewrite Hover in Hc.
  rewrite Hl, cancel_calls_app, Hc, Hs. clear Hs Hl Hc r.
  revert Hover. generalize (state_of (update rnd g)) as u. intros u Hover.
  repeat split.
  - exact Hover.
  - cbn [cancel_calls flat_map app]. apply app_nil_r.
  - intros rnd' handle'. unfold gameLoop, branch.
    cbn [gameRunning set_animationFrameId]. rewrite Hover. reflexivity.
Qed.

(** *** The wing animation *)

Lemma beforeCollisionCheck_animation rnd g :
  let b := beforeCollisionCheck rnd g in
  let c := animationCounter g + 1 in
  animationCounter b = (if ge c CONFIG.animationFrameInterval then 0 else c) /\
  animationFrame b
  = (if ge c CONFIG.animationFrameInterval
     then (if gt (birdRotation b) 0 then 0
           else if strict_eq (animationFrame g) 0 then 1 else 0)
     else animationFrame g).
Proof.
  unfold beforeCollisionCheck. rewrite !state_of_seq, updateAnimation_state.
  assert (H : forall b0,
             b0 = state_of (updateObstaclePassed rnd
                    (state_of (updateObstaclePosition
                       (state_of (updateBirdRotation (state_of (updateBirdPosition g)))))))
             -> animationCounter b0 = animationCounter g /\
                animationFrame b0 = animationFrame g).
  { intros b0 ->. rewrite updateObstaclePassed_state.
    destruct (obstaclePassed _); split; reflexivity. }
  revert H.
  generalize (state_of (updateObstaclePassed rnd
                (state_of (updateObstaclePosition
                   (state_of (updateBirdRotation (state_of (updateBirdPosition g)))))))).
  intros b0 H. destruct (H b0 eq_refl) as [Hc Hf]. clear H.
  cbv zeta. rewrite Hc, Hf.
  destruct (ge (animationCounter g + 1) CONFIG.animationFrameInterval);
    cbn [animationCounter animationFrame birdRotation
         set_animationCounter set_animationFrame]; rewrite ?Hf; split; reflexivity.
Qed.

Lemma checkCollisions_animation g :
  animationCounter (state_of (checkCollisions g)) = animationCounter g /\
  animationFrame (state_of (checkCollisions g)) = animationFrame g.
Proof.
  rewrite checkCollisions_state.
  destruct (hitGroundOrCeiling g || hitObstacle g); [|now split].
  rewrite endGame_state. split; reflexivity.
Qed.

Lemma update_animation rnd g :
  let u := state_of (update rnd g) in
  let c := animationCounter g + 1 in
  animationCounter u = (if ge c CONFIG.animationFrameInterval then 0 else c) /\
  animationFrame u
  = (if ge c CONFIG.animationFrameInterval
     then (if gt (birdRotation u) 0 then 0
           else if strict_eq (animationFrame g) 0 then 1 else 0)
     else animationFrame g).
Proof.
  intros u c.
  pose proof (beforeCollisionCheck_animation rnd g) as Hb. cbv zeta in Hb. fold c in Hb.
  assert (E : u = state_of (checkCollisions (beforeCollisionCheck rnd g)))
    by apply update_state.
  pose proof (checkCollisions_animation (beforeCollisionCheck rnd g)) as [Hc Hf].
  pose proof (checkCollisions_fields (beforeCollisionCheck rnd g)) as Hr. cbv zeta in Hr.
  destruct Hr as (_ & _ & _ & Hr & _).
  rewrite E. clear E u. rewrite Hc, Hf, Hr. exact Hb.
Qed.

Lemma counter_step c :
  In c [0; 1; 2; 3; 4; 5; 6; 7; 8; 9] ->
  In (if ge (c + 1) CONFIG.animationFrameInterval then 0 else c + 1)
     [0; 1; 2; 3; 4; 5; 6; 7; 8; 9].
Proof.
  intros H. cbn [In] in H.
  repeat (destruct H as [<-|H]; [vm_compute; tauto|]). contradiction.
Qed.

Lemma counter_wraps_at_nine c :
  In c [0; 1; 2; 3; 4; 5; 6; 7; 8; 9] ->
  ge (c + 1) CONFIG.animationFrameInterval = true <-> c = 9.
Proof.
  intros H. cbn [In] in H.
  repeat (destruct H as [<-|H];
          [split; intros E; first [reflexivity|vm_compute in E; discriminate E
                                   |exfalso; revert E; vm_compute; intros E;
                                    apply (f_equal Prim2SF) in E; vm_compute in E;
                                    discriminate E]|]).
  contradiction.
Qed.

Lemma update_animation_ok rnd g : animation_ok g -> animation_ok (state_of (update rnd g)).
Proof.
  intros [Hf Hc].
  pose proof (update_animation rnd g) as H. revert H.
  generalize (state_of (update rnd g)) as u. cbv zeta.
  intros u [Hc' Hf']. split.
  - rewrite Hf'. destruct (ge (animationCounter g + 1) CONFIG.animationFrameInterval);
      [|exact Hf].
    destruct (gt (birdRotation u) 0); [now left|].
    destruct (strict_eq (animationFrame g) 0); [now right|now left].
  - rewrite Hc'. now apply counter_step.
Qed.

Lemma animation_ok_set_animationFrameId v g :
  animation_ok (set_animationFrameId v g) <-> animation_ok g.
Proof. reflexivity. Qed.

Lemma gameLoop_animation_ok rnd handle g :
  animation_ok g -> animation_ok (state_of (gameLoop rnd handle g)).
Proof.
  intros H. destruct (gameRunning g) eqn:Hrun; rewrite gameLoop_state, Hrun; [|exact H].
  apply animation_ok_set_animationFrameId. now apply update_animation_ok.
Qed.

Lemma dispatch_animation_ok e g : animation_ok g -> animation_ok (state_of (dispatch e g)).
Proof.
  intros H. destruct e as [rnd handle| |rnd0 rnd handle|o]; cbn [dispatch].
  - now apply gameLoop_animation_ok.
  - rewrite flap_state. destruct (gameRunning g); [|exact H].
    split; [|now left]. cbn [animationFrame set_animationCounter set_animationFrame].
    destruct (gt (birdRotation g) 0); [now left|].
    destruct (strict_eq (animationFrame g) 0); [now right|now left].
  - rewrite startGame_state. apply gameLoop_animation_ok.
    rewrite resetRound_state. split; now left.
  - now destruct o.
Qed.

Lemma session_animation_ok rnd0 es : animation_ok (session rnd0 es).
Proof.
  unfold session. apply run_invariant_all; [exact dispatch_animation_ok|].
  split; now left.
Qed.

(** A frame of a running game that gets as far as [updateAnimation]:
    with the counter below 9 it only counts; with the counter at 9 it
    resets the counter and sets the wing. *)
Lemma gameLoop_animation_step rnd handle g :
  In (animationCounter g) [0; 1; 2; 3; 4; 5; 6; 7; 8; 9] ->
  gameRunning g = true ->
  let g' := state_of (gameLoop rnd handle g) in
  (animationCounter g <> 9 ->
   animationCounter g' = animationCounter g + 1 /\
   animationFrame g' = animationFrame g) /\
  (animationCounter g = 9 ->
   animationCounter g' = 0 /\
   animationFrame g'
   = if gt (birdRotation g') 0 then 0
     else if strict_eq (animationFrame g) 0 then 1 else 0).
Proof.
  intros Hc Hrun g'.
  assert (E : g' = set_animationFrameId (Some handle) (state_of (update rnd g))).
  { unfold g'. now rewrite gameLoop_state, Hrun. }
  pose proof (update_animation rnd g) as H. cbv zeta in H.
  pose proof (counter_wraps_at_nine _ Hc) as Hw.
  rewrite E. clear E g'. revert H.
  generalize (state_of (update rnd g)) as u. intros u [Hc' Hf'].
  cbn [animationCounter animationFrame birdRotation set_animationFrameId].
  rewrite Hc', Hf'.
  destruct (ge (animationCounter g + 1) CONFIG.animationFrameInterval).
  - split; [intros Hne; exfalso; apply Hne; now apply Hw|now split].
  - split; [now split|]. intros E. apply Hw in E. discriminate E.
Qed.

(** *** The score and the points pushed to the rewards manager *)

Lemma dispatch_score_counts e g :
  is_restart e = false ->
  addPoints_calls (log_of (dispatch e g)) = [] /\
  score (state_of (dispatch e g)) = score g
  \/
  addPoints_calls (log_of (dispatch e g)) = [1] /\
  score (state_of (dispatch e g)) = score g + 1.
Proof.
  intros He. destruct e as [rnd handle| |rnd0 rnd handle|o]; cbn [dispatch].
  - rewrite gameLoop_log, gameLoop_state.
    destruct (gameRunning g); [|left; split; reflexivity].
    rewrite addPoints_calls_app, update_log, addPoints_calls_app,
      checkCollisions_addPoints_calls.
    pose proof (update_fields rnd g) as H. revert H.
    generalize (state_of (update rnd g)) as u.
    intros u (_ & _ & _ & _ & _ & _ & _ & Hs & _).
    cbn [score set_animationFrameId]. rewrite Hs.
    destruct (lt (obstacleX g - CONFIG.obstacleSpeed) (- CONFIG.obstacleWidth));
      [right|left]; split; reflexivity.
  - rewrite flap_log, flap_state. left. split; [reflexivity|].
    now destruct (gameRunning g).
  - discriminate He.
  - left. now destruct o.
Qed.

(** X9. Between two calls of [startGame] the score is what has been pushed
    to the rewards manager: every push is [addPoints(1)], and the score
    has been incremented once for each of them. *)
Theorem score_counts_the_points_pushed (es : list event) (g : gameState) :
  existsb is_restart es = false ->
  Forall (fun p => p = 1) (addPoints_calls (log_of (run es g))) /\
  score (state_of (run es g))
  = Nat.iter (length (addPoints_calls (log_of (run es g)))) (fun s => s + 1) (score g).
Proof.
  revert g. induction es as [|e es IH]; intros g Hes.
  - split; [constructor|reflexivity].
  - cbn [existsb] in Hes. apply orb_false_iff in Hes. destruct Hes as [He Hes].
    rewrite run_cons, log_of_run_cons, addPoints_calls_app.
    destruct (IH (state_of (dispatch e g)) Hes) as [IHp IHs].
    rewrite IHs, length_app, Nat.add_comm, Nat.iter_add.
    destruct (dispatch_score_counts e g He) as [[Hp Hs]|[Hp Hs]]; rewrite Hp, Hs.
    + split; [exact IHp|reflexivity].
    + split; [constructor; [reflexivity|exact IHp]|reflexivity].
Qed.

(** *** Instances at concrete sessions *)

Lemma gap_top_in_range_in_every_session_witness :
  let g := session 0.5 [StartButton 0.25 0.75 1; FrameTick 0.5 2; FlapInput] in
  gap g = CONFIG.gapSize /\
  (50 <=? obstacleHeight g) = true /\
  (obstacleHeight g <=? CONFIG.canvasHeight - CONFIG.gapSize - 50) = true.
Proof.
  apply (gap_top_in_range_in_every_session 0.5
           [StartButton 0.25 0.75 1; FrameTick 0.5 2; FlapInput]); reflexivity.
Defined.

(** One flap after 50 frames takes the bird into the gap of the first
    obstacle: 162 frames into the round the obstacle is at [x = 76], over
    the bird's column, and the bird is between the gap's edges. *)
Lemma running_bird_is_inside_the_gap_witness :
  let es := StartButton 0.5 0.5 1
            :: repeat (FrameTick 0.5 1) 49 ++ FlapInput :: repeat (FrameTick 0.5 1) 112 in
  let g := session 0.5 es in
  gameRunning g = true /\
  obstacleX g = 76 /\
  (obstacleHeight g <=? birdY g) = true /\
  (birdY g + CONFIG.birdHeight <=? obstacleHeight g + gap g) = true.
Proof.
  intros es g.
  assert (Hrun : gameRunning g = true) by (vm_compute; reflexivity).
  assert (Hx : obstacleX g = 76) by (vm_compute; reflexivity).
  split; [exact Hrun|]. split; [exact Hx|].
  apply (proj1 (running_bird_is_inside_the_gap 0.5 es eq_refl eq_refl)).
  - exact Hrun.
  - fold g. rewrite Hx. reflexivity.
  - fold g. rewrite Hx. reflexivity.
Defined.

Lemma game_over_is_absorbing_witness :
  let es := [FrameTick 0.5 1; FlapInput; SaveSettled Resolved; FrameTick 0.5 2] in
  state_of (run es initialGameState) = initialGameState /\
  Forall (fun e => e = ConsoleLog \/ e = ConsoleError) (log_of (run es initialGameState)).
Proof.
  apply (game_over_is_absorbing
           [FrameTick 0.5 1; FlapInput; SaveSettled Resolved; FrameTick 0.5 2]
           initialGameState); reflexivity.
Defined.

(** A bird one step above the ground, with the handle 7 of the running
    callback stored: the frame ends the game, cancels 7 and stores 8. *)
Lemma game_over_frame_requests_one_more_witness :
  let g := set_birdY 569.99
             (set_animationFrameId (Some 7%Z) (state_of (resetRound 0.5 initialGameState))) in
  let r := gameLoop 0.5 8 g in
  gameRunning (state_of r) = false /\
  animationFrameId (state_of r) = Some 8%Z /\
  cancel_calls (log_of r) = [7%Z].
Proof.
  intros g r.
  assert (Hrun : gameRunning g = true) by reflexivity.
  assert (Hover : gameRunning (state_of (update 0.5 g)) = false) by (vm_compute; reflexivity).
  destruct (game_over_frame_requests_one_more 0.5 8 g Hrun Hover)
    as (H1 & H2 & _ & H4 & _).
  split; [exact H1|]. split; [exact H2|exact H4].
Defined.

(** An obstacle passes in the first of two frames. *)
Lemma score_counts_the_points_pushed_witness :
  let g := set_obstacleX (-49) (state_of (resetRound 0.5 initialGameState)) in
  let es := [FrameTick 0.5 1; FlapInput; FrameTick 0.5 2] in
  addPoints_calls (log_of (run es g)) = [1] /\
  score (state_of (run es g)) = 0 + 1.
Proof.
  intros g es.
  assert (Hp : addPoints_calls (log_of (run es g)) = [1]) by (vm_compute; reflexivity).
  split; [exact Hp|].
  destruct (score_counts_the_points_pushed es g eq_refl) as [_ Hs].
  rewrite Hs, Hp. reflexivity.
Defined.

End EnhancedSessionFacts.

(** ** The rotation-enabled variant and its rewards manager *)

Module EnhancedSdkFacts.

Import JS Enhanced EnhancedFacts EnhancedSdk.

(** *** OGPManager *)

Lemma load_manager_ok f o : manager_ok (fst (page_load f o)).
Proof.
  unfold manager_ok.
  destruct f, o as [[[|]|]|]; cbn; intros H; first [reflexivity|discriminate H].
Qed.

Lemma saveScore_guarded m p :
  manager_ok m ->
  saveScore m p
  = (Returned, if isInitialized m && negb (p <=? 0) then [SdkSavePoints p] else []).
Proof.
  intros Hm. unfold saveScore. unfold manager_ok in Hm.
  destruct (isInitialized m); cbn [negb orb andb]; [|reflexivity].
  destruct (p <=? 0); cbn [negb]; [reflexivity|].
  now rewrite Hm.
Qed.

(** *** Computations that may throw *)

Lemma lift_and_then (m0 : M unit) (x : X) g :
  (lift m0 >> x) g
  = (completion_of (x (state_of (m0 g))),
     final_state (x (state_of (m0 g))),
     map Game (log_of (m0 g)) ++ actions_of (x (state_of (m0 g)))).
Proof.
  unfold and_then, lift, completion_of, final_state, actions_of.
  now destruct (x (state_of (m0 g))) as [[c g2] l2].
Qed.

Lemma result_eta (r : completion * gameState * list action) :
  r = (completion_of r, final_state r, actions_of r).
Proof. now destruct r as [[c g] l]. Qed.

Lemma expand_app m l1 l2 : expand m (l1 ++ l2) = expand m l1 ++ expand m l2.
Proof. apply flat_map_app. Qed.

(** *** The methods that reach the manager *)

Lemma endGame_with_manager m g :
  manager_ok m ->
  endGame m g
  = (Returned, state_of (Enhanced.endGame g), expand m (log_of (Enhanced.endGame g))).
Proof.
  intros Hm. rewrite endGame_state, endGame_log.
  unfold endGame. rewrite !lift_and_then.
  unfold when, on_manager. rewrite !state_of_modify.
  destruct g as [y v r rv x gp h sc pts run [id|] af ac].
  - unfold branch. cbn [animationFrameId set_gameRunning truthy_handle].
    destruct (Z.eqb id 0); cbn [negb]; monad_unfold;
      destruct (gt sc 0); cbn; rewrite ?(saveScore_guarded m sc Hm);
      cbn [fst snd]; rewrite ?app_nil_r; reflexivity.
  - unfold branch. cbn [animationFrameId set_gameRunning truthy_handle].
    monad_unfold. destruct (gt sc 0); cbn; rewrite ?(saveScore_guarded m sc Hm);
      cbn [fst snd]; rewrite ?app_nil_r; reflexivity.
Qed.

Lemma checkCollisions_with_manager m g :
  manager_ok m ->
  checkCollisions m g
  = (Returned, state_of (Enhanced.checkCollisions g),
     expand m (log_of (Enhanced.checkCollisions g))).
Proof.
  intros Hm. rewrite checkCollisions_state, checkCollisions_log.
  unfold checkCollisions, when.
  destruct (hitGroundOrCeiling g); cbn [orb].
  - now apply endGame_with_manager.
  - destruct (hitObstacle g); [now apply endGame_with_manager|reflexivity].
Qed.

Lemma updateObstaclePassed_with_manager m rnd g :
  updateObstaclePassed m rnd g
  = if obstaclePassed g
    then (fst (addPoints m 1),
          state_of (Enhanced.updateObstaclePassed rnd g),
          snd (addPoints m 1))
    else (Returned, g, []).
Proof.
  rewrite updateObstaclePassed_state.
  unfold updateObstaclePassed, when.
  destruct (obstaclePassed g); [|reflexivity].
  rewrite !lift_and_then. reflexivity.
Qed.

Lemma addPoints_with_sdk m p :
  ogp m = Some sdk_object -> addPoints m p = (Returned, [LogInfo; SdkUiAddPoints p]).
Proof. intros H. unfold addPoints. now rewrite H. Qed.

Lemma addPoints_without_sdk m p : ogp m = None -> addPoints m p = (Thrown, [LogInfo]).
Proof. intros H. unfold addPoints. now rewrite H. Qed.

(** The state [update] hands to [updateObstaclePassed]. *)
Lemma obstaclePassed_after_moves g :
  obstaclePassed
    (state_of (updateObstaclePosition
       (state_of (updateBirdRotation (state_of (updateBirdPosition g))))))
  = lt (obstacleX g - CONFIG.obstacleSpeed) (- CONFIG.obstacleWidth).
Proof. reflexivity. Qed.

Lemma lift_silent_and_then (m0 : M unit) (x : X) g :
  log_of (m0 g) = [] -> (lift m0 >> x) g = x (state_of (m0 g)).
Proof.
  intros H. rewrite lift_and_then, H. cbn [map app]. symmetry. apply result_eta.
Qed.

Lemma and_then_returned (x1 x2 : X) g g1 l1 :
  x1 g = (Returned, g1, l1) ->
  (x1 >> x2) g = (completion_of (x2 g1), final_state (x2 g1), l1 ++ actions_of (x2 g1)).
Proof.
  intros H. unfold and_then. rewrite H.
  unfold completion_of, final_state, actions_of. now destruct (x2 g1) as [[c g2] l2].
Qed.

Lemma and_then_thrown (x1 x2 : X) g g1 l1 :
  x1 g = (Thrown, g1, l1) -> (x1 >> x2) g = (Thrown, g1, l1).
Proof. intros H. unfold and_then. now rewrite H. Qed.

Lemma update_throws m rnd g :
  ogp m = None ->
  lt (obstacleX g - CONFIG.obstacleSpeed) (- CONFIG.obstacleWidth) = true ->
  update m rnd g = (Thrown, atAddPoints rnd g, [LogInfo]).
Proof.
  intros Hnull Hpassed. unfold update.
  rewrite (lift_silent_and_then updateBirdPosition) by apply updateBirdPosition_log.
  rewrite (lift_silent_and_then updateBirdRotation) by apply updateBirdRotation_log.
  rewrite (lift_silent_and_then updateObstaclePosition) by apply updateObstaclePosition_log.
  unfold atAddPoints. rewrite !state_of_seq.
  revert Hpassed. rewrite <- obstaclePassed_after_moves.
  generalize (state_of (updateObstaclePosition
                (state_of (updateBirdRotation (state_of (updateBirdPosition g)))))).
  intros b Hpassed.
  apply and_then_thrown.
  rewrite updateObstaclePassed_with_manager, Hpassed.
  rewrite (addPoints_without_sdk m 1 Hnull).
  unfold Enhanced.updateObstaclePassed, branch. rewrite Hpassed.
  rewrite !state_of_seq. reflexivity.
Qed.

Lemma update_returns m rnd g :
  manager_ok m ->
  ogp m = Some sdk_object \/
  lt (obstacleX g - CONFIG.obstacleSpeed) (- CONFIG.obstacleWidth) = false ->
  update m rnd g
  = (Returned, state_of (Enhanced.update rnd g), expand m (log_of (Enhanced.update rnd g))).
Proof.
  intros Hm Hcase. unfold update, Enhanced.update.
  rewrite (lift_silent_and_then updateBirdPosition) by apply updateBirdPosition_log.
  rewrite (lift_silent_and_then updateBirdRotation) by apply updateBirdRotation_log.
  rewrite (lift_silent_and_then updateObstaclePosition) by apply updateObstaclePosition_log.
  rewrite !log_of_seq, !state_of_seq.
  rewrite updateBirdPosition_log, updateBirdRotation_log, updateObstaclePosition_log,
    updateAnimation_log.
  revert Hcase. rewrite <- obstaclePassed_after_moves.
  generalize (state_of (updateObstaclePosition
                (state_of (updateBirdRotation (state_of (updateBirdPosition g)))))).
  intros b Hcase. cbn [app].
  rewrite updateObstaclePassed_log.
  destruct (obstaclePassed b) eqn:Hpassed.
  - destruct Hcase as [Hsdk|Hno]; [|discriminate Hno].
    rewrite (and_then_returned _ _ b (state_of (Enhanced.updateObstaclePassed rnd b))
               [LogInfo; SdkUiAddPoints 1]).
    2:{ rewrite updateObstaclePassed_with_manager, Hpassed.
        now rewrite (addPoints_with_sdk m 1 Hsdk). }
    rewrite (lift_silent_and_then updateAnimation) by apply updateAnimation_log.
    rewrite (checkCollisions_with_manager m _ Hm).
    unfold completion_of, final_state, actions_of. cbn [fst snd app].
    change (expand m (OgpAddPoints 1 :: ?l)) with (snd (addPoints m 1) ++ expand m l).
    rewrite (addPoints_with_sdk m 1 Hsdk). reflexivity.
  - rewrite (and_then_returned _ _ b b []).
    2:{ now rewrite updateObstaclePassed_with_manager, Hpassed. }
    rewrite (lift_silent_and_then updateAnimation) by apply updateAnimation_log.
    rewrite (checkCollisions_with_manager m _ Hm).
    rewrite updateObstaclePassed_state, Hpassed.
    unfold completion_of, final_state, actions_of. cbn [fst snd app].
    reflexivity.
Qed.

Lemma gameLoop_throws m rnd handle g :
  ogp m = None -> gameRunning g = true ->
  lt (obstacleX g - CONFIG.obstacleSpeed) (- CONFIG.obstacleWidth) = true ->
  gameLoop m rnd handle g = (Thrown, atAddPoints rnd g, [LogInfo]).
Proof.
  intros Hnull Hrun Hpassed. unfold gameLoop, when. rewrite Hrun. cbn [negb].
  apply and_then_thrown. now apply update_throws.
Qed.

Lemma gameLoop_returns m rnd handle g :
  manager_ok m ->
  ogp m = Some sdk_object \/ gameRunning g = false \/
  lt (obstacleX g - CONFIG.obstacleSpeed) (- CONFIG.obstacleWidth) = false ->
  gameLoop m rnd handle g
  = (Returned, state_of (Enhanced.gameLoop rnd handle g),
     expand m (log_of (Enhanced.gameLoop rnd handle g))).
Proof.
  intros Hm Hcase. rewrite gameLoop_state, gameLoop_log.
  unfold gameLoop, when.
  destruct (gameRunning g) eqn:Hrun; cbn [negb]; [|reflexivity].
  rewrite (and_then_returned _ _ g (state_of (Enhanced.update rnd g))
             (expand m (log_of (Enhanced.update rnd g)))).
  2:{ apply update_returns; [exact Hm|].
      destruct Hcase as [H|[H|H]]; [now left|discriminate H|now right]. }
  generalize (state_of (Enhanced.update rnd g)) as u.
  generalize (log_of (Enhanced.update rnd g)) as l. intros l u.
  rewrite !lift_and_then.
  unfold completion_of, final_state, actions_of, lift. cbn [fst snd].
  rewrite expand_app. reflexivity.
Qed.

Lemma positive_not_below_zero p : gt p 0 = true -> (p <=? 0) = false.
Proof.
  unfold gt. intros H. destruct (p <=? 0) eqn:E; [|reflexivity].
  apply leb_ltb_false in E. congruence.
Qed.

Lemma savePoints_calls_app l1 l2 :
  savePoints_calls (l1 ++ l2) = savePoints_calls l1 ++ savePoints_calls l2.
Proof. apply flat_map_app. Qed.

Lemma savePoints_calls_expand m l :
  manager_ok m ->
  savePoints_calls (expand m l)
  = flat_map (fun p => if isInitialized m && negb (p <=? 0) then [p] else [])
      (saveScore_calls l).
Proof.
  intros Hm. induction l as [|e l IH]; [reflexivity|].
  change (expand m (e :: l)) with (manager_calls m e ++ expand m l).
  rewrite savePoints_calls_app, IH.
  destruct e; try reflexivity.
  - cbn [manager_calls]. unfold addPoints. now destruct (ogp m).
  - cbn [manager_calls saveScore_calls flat_map app]. rewrite (saveScore_guarded m points Hm).
    cbn [snd]. now destruct (isInitialized m && negb (points <=? 0)).
Qed.

Lemma gameLoop_saveScore_calls rnd handle g :
  saveScore_calls (log_of (Enhanced.gameLoop rnd handle g))
  = if gameRunning g && negb (gameRunning (state_of (Enhanced.gameLoop rnd handle g)))
    then (if gt (score (state_of (Enhanced.gameLoop rnd handle g))) 0
          then [score (state_of (Enhanced.gameLoop rnd handle g))] else [])
    else [].
Proof.
  rewrite gameLoop_log, gameLoop_state.
  destruct (gameRunning g) eqn:Hrun; [|reflexivity].
  rewrite saveScore_calls_app, (update_saveScore_calls rnd g Hrun).
  generalize (state_of (Enhanced.update rnd g)) as u. intros u.
  cbn [andb gameRunning score set_animationFrameId saveScore_calls flat_map app].
  now rewrite app_nil_r.
Qed.

(** *** Frames that return and frames that throw *)

Lemma gameLoop_cases m rnd handle g :
  manager_ok m ->
  gameLoop m rnd handle g
  = (Returned, state_of (Enhanced.gameLoop rnd handle g),
     expand m (log_of (Enhanced.gameLoop rnd handle g)))
  \/
  ogp m = None /\ gameRunning g = true /\
  lt (obstacleX g - CONFIG.obstacleSpeed) (- CONFIG.obstacleWidth) = true /\
  gameLoop m rnd handle g = (Thrown, atAddPoints rnd g, [LogInfo]).
Proof.
  intros Hm. destruct (ogp m) as [[]|] eqn:Hsdk.
  - left. apply gameLoop_returns; [exact Hm|now left].
  - destruct (gameRunning g) eqn:Hrun.
    + destruct (lt (obstacleX g - CONFIG.obstacleSpeed) (- CONFIG.obstacleWidth)) eqn:Hp.
      * right. split; [reflexivity|]. split; [reflexivity|]. split; [reflexivity|].
        now apply gameLoop_throws.
      * left. apply gameLoop_returns; [exact Hm|]. right. right. exact Hp.
    + left. apply gameLoop_returns; [exact Hm|]. right. left. exact Hrun.
Qed.

Lemma update_cases m rnd g :
  manager_ok m ->
  update m rnd g
  = (Returned, state_of (Enhanced.update rnd g), expand m (log_of (Enhanced.update rnd g)))
  \/
  ogp m = None /\
  lt (obstacleX g - CONFIG.obstacleSpeed) (- CONFIG.obstacleWidth) = true /\
  update m rnd g = (Thrown, atAddPoints rnd g, [LogInfo]).
Proof.
  intros Hm. destruct (ogp m) as [[]|] eqn:Hsdk.
  - left. apply update_returns; [exact Hm|now left].
  - destruct (lt (obstacleX g - CONFIG.obstacleSpeed) (- CONFIG.obstacleWidth)) eqn:Hp.
    + right. split; [reflexivity|]. split; [reflexivity|]. now apply update_throws.
    + left. apply update_returns; [exact Hm|]. right. exact Hp.
Qed.

(** What the throwing frame leaves of the bird and of the wing. *)
Lemma atAddPoints_fields rnd g :
  gameRunning (atAddPoints rnd g) = gameRunning g /\
  birdY (atAddPoints rnd g) = birdY (state_of (updateBirdPosition g)) /\
  animationCounter (atAddPoints rnd g) = animationCounter g /\
  animationFrame (atAddPoints rnd g) = animationFrame g.
Proof. repeat split. Qed.

Lemma startGame_with_manager m rnd0 rnd handle g :
  manager_ok m ->
  completion_of (startGame m rnd0 rnd handle g) = Returned /\
  final_state (startGame m rnd0 rnd handle g)
  = state_of (Enhanced.startGame rnd0 rnd handle g).
Proof.
  intros Hm. unfold startGame. rewrite lift_and_then, startGame_state.
  rewrite (gameLoop_returns m rnd handle (state_of (resetRound rnd0 g)) Hm).
  - split; reflexivity.
  - right. right. rewrite resetRound_state. reflexivity.
Qed.

Lemma dispatch_cases m e g :
  manager_ok m ->
  completion_of (dispatch m e g) = Returned /\
  final_state (dispatch m e g) = state_of (Enhanced.dispatch e g)
  \/
  exists rnd handle,
    e = FrameTick rnd handle /\ ogp m = None /\ gameRunning g = true /\
    lt (obstacleX g - CONFIG.obstacleSpeed) (- CONFIG.obstacleWidth) = true /\
    dispatch m e g = (Thrown, atAddPoints rnd g, [LogInfo]).
Proof.
  intros Hm. destruct e as [rnd handle| |rnd0 rnd handle|o]; cbn [dispatch Enhanced.dispatch].
  - destruct (gameLoop_cases m rnd handle g Hm) as [H|(H1 & H2 & H3 & H4)].
    + left. rewrite H. split; reflexivity.
    + right. exists rnd, handle. repeat split; assumption.
  - left. split; reflexivity.
  - left. now apply startGame_with_manager.
  - left. split; reflexivity.
Qed.

(** *** Sessions of the page *)

Lemma run_page_cons e es p :
  fst (run (e :: es) p) = fst (run es (fst (on_event e p))).
Proof. reflexivity. Qed.

Lemma loaded_ok f rnd : page_ok (loaded f rnd).
Proof.
  split.
  - exact (load_manager_ok f None).
  - destruct f; cbn; intros H; first [reflexivity|discriminate H].
Qed.

Lemma on_event_ok e p : page_ok p -> page_ok (fst (on_event e p)).
Proof.
  intros [Hm Hp]. destruct e as [e|o]; cbn [on_event fst].
  - split; assumption.
  - destruct (init_pending p) eqn:Hpending.
    + cbn [fst]. split; [|intros H; discriminate H].
      specialize (Hp eq_refl). intros _.
      destruct o as [on_throws|]; cbn [init_settled fst manager ogp]; exact Hp.
    + split; [exact Hm|]. cbn [fst]. rewrite Hpending. intros H. discriminate H.
Qed.

Lemma on_event_ogp e p : ogp (manager (fst (on_event e p))) = ogp (manager p).
Proof.
  destruct e as [e|o]; cbn [on_event fst]; [reflexivity|].
  destruct (init_pending p); [|reflexivity]. now destruct o.
Qed.

(** What every handler of the game keeps, whether it returns or throws,
    is kept by a whole session. *)
Lemma page_invariant (P : gameState -> Prop) :
  (forall m e g, manager_ok m -> P g -> P (final_state (dispatch m e g))) ->
  forall es p, page_ok p -> P (state p) ->
  page_ok (fst (run es p)) /\ P (state (fst (run es p))).
Proof.
  intros Hstep. induction es as [|e es IH]; intros p Hok HP; [now split|].
  rewrite run_page_cons. apply IH; [now apply on_event_ok|].
  destruct e as [e|o]; cbn [on_event fst].
  - cbn [state]. apply Hstep; [apply Hok|exact HP].
  - destruct (init_pending p); exact HP.
Qed.

Lemma session_ok f rnd0 es : page_ok (session f rnd0 es).
Proof.
  unfold session.
  apply (page_invariant (fun _ => True)); [trivial|apply loaded_ok|exact I].
Qed.

(** [this.ogp] is assigned in the constructor and nowhere else. *)
Lemma session_ogp f rnd0 es :
  ogp (manager (session f rnd0 es))
  = match f with ConstructorThrows => None | _ => Some sdk_object end.
Proof.
  unfold session.
  transitivity (ogp (manager (loaded f rnd0))); [|now destruct f].
  generalize (loaded f rnd0) as p.
  induction es as [|e es IH]; intros p; [reflexivity|].
  rewrite run_page_cons, IH. apply on_event_ogp.
Qed.

(** With the SDK object in place no handler throws, and the game's state
    is the one of the game that takes the manager's calls to return. *)
Lemma run_with_sdk es : forall p,
  page_ok p -> ogp (manager p) = Some sdk_object ->
  state (fst (run es p)) = state_of (Enhanced.run (game_events es) (state p)).
Proof.
  induction es as [|e es IH]; intros p Hok Hsdk; [reflexivity|].
  rewrite run_page_cons, IH;
    [|now apply on_event_ok|now rewrite on_event_ogp].
  destruct e as [e|o]; cbn [on_event fst game_events flat_map app].
  - rewrite run_cons. cbn [state].
    destruct (dispatch_cases (manager p) e (state p) (proj1 Hok))
      as [[_ H]|(rnd & handle & _ & Hnull & _)].
    + now rewrite H.
    + rewrite Hsdk in Hnull. discriminate Hnull.
  - destruct (init_pending p); reflexivity.
Qed.

Lemma session_with_sdk f rnd0 es :
  f <> ConstructorThrows ->
  state (session f rnd0 es) = EnhancedSession.session rnd0 (game_events es).
Proof.
  intros Hf. unfold session, EnhancedSession.session.
  rewrite run_with_sdk; [reflexivity|apply loaded_ok|].
  destruct f; first [reflexivity|contradiction].
Qed.

Lemma dispatch_animation_ok_with_manager m e g :
  manager_ok m ->
  EnhancedSession.animation_ok g ->
  EnhancedSession.animation_ok (final_state (dispatch m e g)).
Proof.
  intros Hm H. destruct (dispatch_cases m e g Hm) as [[_ E]|(rnd & handle & _ & _ & _ & _ & E)].
  - rewrite E. now apply EnhancedSessionFacts.dispatch_animation_ok.
  - rewrite E. exact H.
Qed.

Lemma session_animation_ok_of_page f rnd0 es :
  EnhancedSession.animation_ok (state (session f rnd0 es)).
Proof.
  unfold session.
  apply (page_invariant EnhancedSession.animation_ok);
    [exact dispatch_animation_ok_with_manager|apply loaded_ok|].
  split; now left.
Qed.

(** A step that returns has run the collision check, and then the
    ground-or-ceiling test decides whatever the obstacle is. *)
Lemma ground_or_ceiling_ends_returning_step m rnd g :
  manager_ok m ->
  completion_of (update m rnd g) = Returned ->
  let g' := final_state (update m rnd g) in
  birdY g' = birdY (state_of (updateBirdPosition g)) /\
  (lt (birdY g') 0 = true \/
   gt (birdY g' + CONFIG.birdHeight) CONFIG.canvasHeight = true ->
   gameRunning g' = false).
Proof.
  intros Hm Hret g'. unfold g'. revert Hret.
  destruct (update_cases m rnd g Hm) as [E|(_ & _ & E)]; rewrite E.
  - intros _. exact (ground_or_ceiling_ends_game rnd g).
  - intros H. discriminate H.
Qed.

(** With the SDK object in place a running bird is inside the canvas. *)
Lemma running_bird_in_bounds_with_sdk f rnd0 es :
  f <> ConstructorThrows ->
  gameRunning (state (session f rnd0 es)) = true ->
  (0 <=? birdY (state (session f rnd0 es))) = true /\
  (birdY (state (session f rnd0 es)) <=? CONFIG.canvasHeight - CONFIG.birdHeight) = true.
Proof.
  intros Hf. rewrite (session_with_sdk f rnd0 es Hf). intros Hrun.
  destruct (EnhancedSessionFacts.session_flight_invariant rnd0 (game_events es)) as [_ Hb].
  specialize (Hb Hrun). split; [apply Hb|now apply in_bounds_literal].
Qed.

(** One settling of the promise after the load leaves the manager of
    [page_load]. *)
Lemma session_manager_after_init f rnd0 o :
  manager (session f rnd0 [InitSettled o]) = fst (page_load f (Some o)).
Proof. destruct f; reflexivity. Qed.

(** *** The properties *)

(** X10. However the initialization goes, [isInitialized] is true only once
    the promise of [ogp.init] has resolved, and then the SDK object
    exists.  So [saveScore] never throws: it calls [ogp.savePoints] with
    its argument when the manager is initialized and [points <= 0] is
    false, and calls nothing otherwise. *)
Theorem saveScore_reaches_the_sdk_only_when_initialized
    (f : sdk_failure) (o : option init_outcome) (points : float) :
  let m := fst (page_load f o) in
  (isInitialized m = true <->
   init_chained f = true /\ exists on_throws, o = Some (InitResolved on_throws)) /\
  (isInitialized m = true -> ogp m = Some sdk_object) /\
  saveScore m points
  = (Returned, if isInitialized m && negb (points <=? 0) then [SdkSavePoints points] else []).
Proof.
  intros m. split; [|split].
  - unfold m. destruct f, o as [[b|]|]; cbn; split;
      try (intros H; discriminate H);
      try (intros [H _]; discriminate H);
      try (intros [_ [b' H]]; discriminate H);
      try (intros _; split; [reflexivity|now exists b]);
      try (intros _; reflexivity).
  - apply load_manager_ok.
  - apply saveScore_guarded, load_manager_ok.
Qed.

(** X11. The start screen is shown during initialization exactly when the
    initialization fails: when the SDK's constructor, [init] or
    [gameReadyToPlay] throws, when the promise of [init] is rejected, or
    when setting up the listener throws.  When it succeeds the start
    screen is left to the listener of the SDK's [OnReady] event. *)
Theorem failed_initialization_shows_start_screen
    (f : sdk_failure) (o : option init_outcome) :
  (In DomShowStartScreen (snd (page_load f o)) <-> init_failed f o = true) /\
  (init_failed f o = true -> In LogError (snd (page_load f o))) /\
  In DomShowStartScreen onReady.
Proof.
  split; [|split].
  - destruct f, o as [[[|]|]|]; cbn; split; intros H;
      first [reflexivity | discriminate H | tauto
            | repeat (destruct H as [H|H]; try discriminate H); contradiction].
  - destruct f, o as [[[|]|]|]; cbn; intros H; first [discriminate H | tauto].
  - right. left. reflexivity.
Qed.

(** X12. Without an SDK object ([this.ogp] is [null], as after a constructor
    that threw) the frame in which an obstacle passes does not end:
    [addPoints] throws after the score has been incremented.  The
    exception leaves [update] and [gameLoop], so this frame checks no
    collision, draws nothing and requests no further frame, while
    [gameRunning] stays true. *)
Theorem addPoints_without_sdk_stops_the_loop
    (m : OGPManager) (rnd : float) (handle : Z) (g : gameState) :
  ogp m = None ->
  gameRunning g = true ->
  lt (obstacleX g - CONFIG.obstacleSpeed) (- CONFIG.obstacleWidth) = true ->
  let r := gameLoop m rnd handle g in
  completion_of r = Thrown /\
  actions_of r = [LogInfo] /\
  final_state r = atAddPoints rnd g /\
  gameRunning (final_state r) = true /\
  score (final_state r) = score g + 1 /\
  obstacleX (final_state r) = CONFIG.canvasWidth /\
  animationFrameId (final_state r) = animationFrameId g /\
  animationCounter (final_state r) = animationCounter g.
Proof.
  intros Hnull Hrun Hpassed r. unfold r.
  rewrite (gameLoop_throws m rnd handle g Hnull Hrun Hpassed).
  unfold completion_of, final_state, actions_of. cbn [fst snd].
  repeat split. exact Hrun.
Qed.

(** X13. With the SDK object in place, and in any case in a frame in which
    no obstacle passes, [gameLoop] returns, leaves the state that the
    game without its manager leaves, and makes the same calls in the same
    order, each call on the manager replaced by what the manager does. *)
Theorem frame_with_manager_agrees
    (m : OGPManager) (rnd : float) (handle : Z) (g : gameState) :
  manager_ok m ->
  ogp m = Some sdk_object \/ gameRunning g = false \/
  lt (obstacleX g - CONFIG.obstacleSpeed) (- CONFIG.obstacleWidth) = false ->
  gameLoop m rnd handle g
  = (Returned, state_of (Enhanced.gameLoop rnd handle g),
     expand m (log_of (Enhanced.gameLoop rnd handle g))).
Proof. exact (gameLoop_returns m rnd handle g). Qed.

(** X14. The SDK's [savePoints] is called in the frame that ends the game,
    once and with the final score, if the manager is initialized and the
    score is positive; in every other frame that returns, and at a game
    end with an uninitialized manager or a score of 0, it is not called. *)
Theorem savePoints_once_when_initialized
    (m : OGPManager) (rnd : float) (handle : Z) (g : gameState) :
  manager_ok m ->
  ogp m = Some sdk_object \/ gameRunning g = false \/
  lt (obstacleX g - CONFIG.obstacleSpeed) (- CONFIG.obstacleWidth) = false ->
  let r := gameLoop m rnd handle g in
  savePoints_calls (actions_of r)
  = if gameRunning g && negb (gameRunning (final_state r))
       && isInitialized m && gt (score (final_state r)) 0
    then [score (final_state r)]
    else [].
Proof.
  intros Hm Hcase r. unfold r.
  rewrite (gameLoop_returns m rnd handle g Hm Hcase).
  unfold final_state, actions_of. cbn [fst snd].
  rewrite (savePoints_calls_expand m _ Hm), gameLoop_saveScore_calls.
  generalize (state_of (Enhanced.gameLoop rnd handle g)) as g'. intros g'.
  destruct (gameRunning g && negb (gameRunning g')); cbn [andb]; [|reflexivity].
  destruct (gt (score g') 0) eqn:Hpos.
  - cbn [flat_map]. rewrite (positive_not_below_zero _ Hpos), app_nil_r.
    now destruct (isInitialized m).
  - now destruct (isInitialized m).
Qed.

(** X8. The wing animation has twenty states and a fixed rhythm: in every
    session of the page, whether the SDK's constructor threw or not and
    whenever the promise of [ogp.init] settles, [animationFrame] is 0 or
    1 and [animationCounter] is one of 0, ..., 9.  A frame of a running
    game throws exactly when an obstacle passes in it and [this.ogp] is
    [null].  A frame that returns has counted: with the counter below 9
    it leaves the wing as it is; with the counter at 9 it resets the
    counter and sets the wing, to frame 0 when the bird is tilted
    downward after this step and to the other frame otherwise.  A frame
    that throws has not reached [updateAnimation]: counter and wing are
    as before.  A flap in a running game resets the counter and sets the
    wing at once. *)
Theorem wing_animation_rhythm (f : sdk_failure) (rnd0 : float) (es : list page_event) :
  let m := manager (session f rnd0 es) in
  let g := state (session f rnd0 es) in
  ((animationFrame g = 0 \/ animationFrame g = 1) /\
   In (animationCounter g) [0; 1; 2; 3; 4; 5; 6; 7; 8; 9]) /\
  (forall rnd handle,
     gameRunning g = true ->
     let r := gameLoop m rnd handle g in
     let g' := final_state r in
     (completion_of r = Thrown <->
      f = ConstructorThrows /\
      lt (obstacleX g - CONFIG.obstacleSpeed) (- CONFIG.obstacleWidth) = true) /\
     (completion_of r = Returned ->
      (animationCounter g <> 9 ->
       animationCounter g' = animationCounter g + 1 /\
       animationFrame g' = animationFrame g) /\
      (animationCounter g = 9 ->
       animationCounter g' = 0 /\
       animationFrame g'
       = if gt (birdRotation g') 0 then 0
         else if strict_eq (animationFrame g) 0 then 1 else 0)) /\
     (completion_of r = Thrown ->
      animationCounter g' = animationCounter g /\
      animationFrame g' = animationFrame g)) /\
  (gameRunning g = true ->
   let g' := final_state (dispatch m FlapInput g) in
   animationCounter g' = 0 /\
   animationFrame g'
   = if gt (birdRotation g) 0 then 0
     else if strict_eq (animationFrame g) 0 then 1 else 0).
Proof.
  intros m g.
  pose proof (session_animation_ok_of_page f rnd0 es) as Hok. fold g in Hok.
  pose proof (proj1 (session_ok f rnd0 es)) as Hm. fold m in Hm.
  pose proof (session_ogp f rnd0 es) as Hogp. fold m in Hogp.
  clearbody m g.
  split; [exact Hok|]. destruct Hok as [_ Hc]. split.
  - intros rnd handle Hrun r g'. unfold g', r.
    destruct (gameLoop_cases m rnd handle g Hm) as [E|(Hnull & _ & Hp & E)]; rewrite E;
      unfold completion_of, final_state; cbn [fst snd].
    + split; [|split].
      * split; [intros H; discriminate H|]. intros [Hf Hp]. exfalso.
        rewrite Hf in Hogp.
        pose proof (gameLoop_throws m rnd handle g Hogp Hrun Hp) as E'.
        rewrite E in E'. discriminate E'.
      * intros _. exact (EnhancedSessionFacts.gameLoop_animation_step rnd handle g Hc Hrun).
      * intros H. discriminate H.
    + split; [|split].
      * split; [|reflexivity]. intros _. split; [|exact Hp].
        rewrite Hnull in Hogp. destruct f; first [reflexivity|discriminate Hogp].
      * intros H. discriminate H.
      * intros _. split; reflexivity.
  - intros Hrun g'. unfold g'. cbn [dispatch]. unfold lift, final_state. cbn [fst snd].
    rewrite EnhancedSessionFacts.flap_state, Hrun. split; reflexivity.
Qed.

(** *** The step without the SDK object *)

(** C3. The ground-or-ceiling test does not fire in every step.  On a
    page whose SDK constructor threw, the start screen is shown and
    [this.ogp] stays [null]; in the step in which the obstacle passes
    [-obstacleWidth], [addPoints] then throws before [checkCollisions] is
    reached.  The round [round_to_the_ground] (valid random values, two
    flaps, 225 frames) leaves a running game with the obstacle at [-50];
    the next step moves the bird to [birdY + birdHeight > canvasHeight],
    throws, and leaves [gameRunning] true.  With the obstacle at [-48]
    instead, or with the SDK object in place, the same step ends the
    game: the outcome depends on the obstacle's position.  The round
    [round_to_the_ceiling] does the same with [birdY < 0]. *)
Theorem ground_test_skipped_when_addPoints_throws :
  (In DomShowStartScreen (snd (constructor ConstructorThrows)) /\
   manager (session ConstructorThrows 0.5 (map OfGame round_to_the_ground))
   = manager_without_sdk /\
   ogp manager_without_sdk = None) /\
  (forallb EnhancedSession.random_ok round_to_the_ground = true /\
   gameRunning (played round_to_the_ground) = true /\
   obstacleX (played round_to_the_ground) = -50 /\
   completion_of (update manager_without_sdk 0.5 (played round_to_the_ground)) = Thrown /\
   birdY (final_state (update manager_without_sdk 0.5 (played round_to_the_ground)))
   = birdY (state_of (updateBirdPosition (played round_to_the_ground))) /\
   gt (birdY (final_state (update manager_without_sdk 0.5 (played round_to_the_ground)))
       + CONFIG.birdHeight) CONFIG.canvasHeight = true /\
   gameRunning (final_state (update manager_without_sdk 0.5 (played round_to_the_ground)))
   = true /\
   gameRunning
     (final_state
        (update manager_without_sdk 0.5 (set_obstacleX (-48) (played round_to_the_ground))))
   = false /\
   gameRunning (final_state (update manager_with_sdk 0.5 (played round_to_the_ground)))
   = false) /\
  (forallb EnhancedSession.random_ok round_to_the_ceiling = true /\
   gameRunning (played round_to_the_ceiling) = true /\
   obstacleX (played round_to_the_ceiling) = -50 /\
   completion_of (update manager_without_sdk 0.5 (played round_to_the_ceiling)) = Thrown /\
   birdY (final_state (update manager_without_sdk 0.5 (played round_to_the_ceiling)))
   = birdY (state_of (updateBirdPosition (played round_to_the_ceiling))) /\
   lt (birdY (final_state (update manager_without_sdk 0.5 (played round_to_the_ceiling)))) 0
   = true /\
   gameRunning (final_state (update manager_without_sdk 0.5 (played round_to_the_ceiling)))
   = true /\
   gameRunning
     (final_state
        (update manager_without_sdk 0.5 (set_obstacleX (-48) (played round_to_the_ceiling))))
   = false /\
   gameRunning (final_state (update manager_with_sdk 0.5 (played round_to_the_ceiling)))
   = false).
Proof.
  split; [|split].
  - split; [right; right; right; left; reflexivity|]. split; reflexivity.
  - vm_compute. repeat split.
  - vm_compute. repeat split.
Qed.

(** C4. The bound on [birdY] does not hold in every state the program
    reaches with [gameRunning] true.  After the round
    [round_to_the_ground] on a page whose SDK constructor threw, the
    running bird is inside the canvas; the next frame, which throws from
    [addPoints], leaves it at [birdY > canvasHeight - birdHeight] in a
    game that is still running, and a flap after that is still carried
    out and changes neither.  On a page with the SDK object the same
    frame ends the game.  The round [round_to_the_ceiling] does the same
    with [birdY < 0]. *)
Theorem running_bird_leaves_canvas_when_addPoints_throws :
  (gameRunning (played round_to_the_ground) = true /\
   (0 <=? birdY (played round_to_the_ground)) = true /\
   (birdY (played round_to_the_ground) <=? CONFIG.canvasHeight - CONFIG.birdHeight) = true /\
   completion_of (gameLoop manager_without_sdk 0.5 1 (played round_to_the_ground)) = Thrown /\
   played (round_to_the_ground ++ [FrameTick 0.5 1])
   = final_state (gameLoop manager_without_sdk 0.5 1 (played round_to_the_ground)) /\
   gameRunning (played (round_to_the_ground ++ [FrameTick 0.5 1])) = true /\
   (birdY (played (round_to_the_ground ++ [FrameTick 0.5 1]))
    <=? CONFIG.canvasHeight - CONFIG.birdHeight) = false /\
   gameRunning (played (round_to_the_ground ++ [FrameTick 0.5 1; FlapInput])) = true /\
   birdVelocity (played (round_to_the_ground ++ [FrameTick 0.5 1; FlapInput]))
   = - CONFIG.flapStrength /\
   (birdY (played (round_to_the_ground ++ [FrameTick 0.5 1; FlapInput]))
    <=? CONFIG.canvasHeight - CONFIG.birdHeight) = false /\
   gameRunning (played_with_sdk (round_to_the_ground ++ [FrameTick 0.5 1])) = false) /\
  (gameRunning (played round_to_the_ceiling) = true /\
   (0 <=? birdY (played round_to_the_ceiling)) = true /\
   (birdY (played round_to_the_ceiling) <=? CONFIG.canvasHeight - CONFIG.birdHeight) = true /\
   completion_of (gameLoop manager_without_sdk 0.5 1 (played round_to_the_ceiling)) = Thrown /\
   played (round_to_the_ceiling ++ [FrameTick 0.5 1])
   = final_state (gameLoop manager_without_sdk 0.5 1 (played round_to_the_ceiling)) /\
   gameRunning (played (round_to_the_ceiling ++ [FrameTick 0.5 1])) = true /\
   (0 <=? birdY (played (round_to_the_ceiling ++ [FrameTick 0.5 1]))) = false /\
   gameRunning (played (round_to_the_ceiling ++ [FrameTick 0.5 1; FlapInput])) = true /\
   birdVelocity (played (round_to_the_ceiling ++ [FrameTick 0.5 1; FlapInput]))
   = - CONFIG.flapStrength /\
   (0 <=? birdY (played (round_to_the_ceiling ++ [FrameTick 0.5 1; FlapInput]))) = false /\
   gameRunning (played_with_sdk (round_to_the_ceiling ++ [FrameTick 0.5 1])) = false).
Proof. split; vm_compute; repeat split. Qed.

(** *** Instances *)

(** The SDK's constructor threw, the start screen was shown and a round
    was started; two flaps take the bird through the first gap, and the
    226th frame of the round is the one in which the obstacle passes. *)
Lemma addPoints_without_sdk_stops_the_loop_witness :
  let m := fst (page_load ConstructorThrows None) in
  let es := EnhancedSession.StartButton_then
              [27%nat; 119%nat; 78%nat] in
  let g := EnhancedSession.session 0.5 es in
  let r := gameLoop m 0.5 1 g in
  In DomShowStartScreen (snd (page_load ConstructorThrows None)) /\
  gameRunning g = true /\
  score g = 0 /\
  completion_of r = Thrown /\
  gameRunning (final_state r) = true /\
  score (final_state r) = 0 + 1 /\
  actions_of r = [LogInfo].
Proof.
  intros m es g r.
  assert (Hrun : gameRunning g = true) by (vm_compute; reflexivity).
  assert (Hs : score g = 0) by (vm_compute; reflexivity).
  assert (Hx : lt (obstacleX g - CONFIG.obstacleSpeed) (- CONFIG.obstacleWidth) = true)
    by (vm_compute; reflexivity).
  destruct (addPoints_without_sdk_stops_the_loop m 0.5 1 g eq_refl Hrun Hx)
    as (H1 & H2 & _ & H4 & H5 & _).
  split; [vm_compute; tauto|]. split; [exact Hrun|]. split; [exact Hs|].
  split; [exact H1|]. split; [exact H4|]. split; [rewrite <- Hs; exact H5|exact H2].
Defined.

(** On a page whose SDK constructor threw: eight frames into a round the
    counter is at 9 and the ninth frame sets the wing; the frame after
    [round_to_the_ground] throws and leaves the counter at 5. *)
Lemma wing_animation_rhythm_witness :
  (gameRunning (played (StartButton 0.5 0.5 1 :: repeat (FrameTick 0.5 2) 8)) = true /\
   animationCounter
     (final_state
        (gameLoop
           (manager (session ConstructorThrows 0.5
                       (map OfGame (StartButton 0.5 0.5 1 :: repeat (FrameTick 0.5 2) 8))))
           0.5 3
           (played (StartButton 0.5 0.5 1 :: repeat (FrameTick 0.5 2) 8))))
   = 0) /\
  (gameRunning (played round_to_the_ground) = true /\
   animationCounter (played round_to_the_ground) = 5 /\
   animationCounter
     (final_state
        (gameLoop
           (manager (session ConstructorThrows 0.5 (map OfGame round_to_the_ground)))
           0.5 1 (played round_to_the_ground)))
   = 5).
Proof.
  unfold played. split.
  - destruct (wing_animation_rhythm ConstructorThrows 0.5
                (map OfGame (StartButton 0.5 0.5 1 :: repeat (FrameTick 0.5 2) 8)))
      as (_ & Hframe & _).
    assert (Hrun : gameRunning
                     (state (session ConstructorThrows 0.5
                               (map OfGame (StartButton 0.5 0.5 1
                                            :: repeat (FrameTick 0.5 2) 8))))
                   = true)
      by (vm_compute; reflexivity).
    split; [exact Hrun|].
    destruct (Hframe 0.5 3%Z Hrun) as (_ & Hret & _).
    apply Hret; vm_compute; reflexivity.
  - destruct (wing_animation_rhythm ConstructorThrows 0.5 (map OfGame round_to_the_ground))
      as (_ & Hframe & _).
    assert (Hrun : gameRunning
                     (state (session ConstructorThrows 0.5 (map OfGame round_to_the_ground)))
                   = true)
      by (vm_compute; reflexivity).
    assert (Hc : animationCounter
                   (state (session ConstructorThrows 0.5 (map OfGame round_to_the_ground)))
                 = 5)
      by (vm_compute; reflexivity).
    split; [exact Hrun|]. split; [exact Hc|].
    destruct (Hframe 0.5 1%Z Hrun) as (_ & _ & Hthrown).
    transitivity
      (animationCounter
         (state (session ConstructorThrows 0.5 (map OfGame round_to_the_ground))));
      [|exact Hc].
    apply Hthrown. vm_compute. reflexivity.
Defined.

(** The initialization succeeded; the obstacle passes and the game goes
    on. *)
Lemma frame_with_manager_agrees_witness :
  let m := fst (page_load NoFailure (Some (InitResolved false))) in
  let g := set_obstacleX (-49) (state_of (resetRound 0.5 initialGameState)) in
  completion_of (gameLoop m 0.5 1 g) = Returned /\
  final_state (gameLoop m 0.5 1 g) = state_of (Enhanced.gameLoop 0.5 1 g) /\
  In (SdkUiAddPoints 1) (actions_of (gameLoop m 0.5 1 g)).
Proof.
  intros m g.
  rewrite (frame_with_manager_agrees m 0.5 1 g (load_manager_ok _ _) (or_introl eq_refl)).
  split; [reflexivity|]. split; [reflexivity|].
  vm_compute. right. left. reflexivity.
Defined.

(** The bird reaches the ground with a score of 3. *)
Lemma savePoints_once_when_initialized_witness :
  let g := set_score 3 (set_birdY 569.99 (state_of (resetRound 0.5 initialGameState))) in
  savePoints_calls
    (actions_of (gameLoop (fst (page_load NoFailure (Some (InitResolved false)))) 0.5 1 g)) = [3] /\
  savePoints_calls
    (actions_of (gameLoop (fst (page_load NoFailure (Some InitRejected))) 0.5 1 g)) = [].
Proof.
  intros g. split.
  - rewrite (savePoints_once_when_initialized
               (fst (page_load NoFailure (Some (InitResolved false)))) 0.5 1 g
               (load_manager_ok _ _) (or_introl eq_refl)).
    vm_compute. reflexivity.
  - rewrite (savePoints_once_when_initialized
               (fst (page_load NoFailure (Some InitRejected))) 0.5 1 g
               (load_manager_ok _ _) (or_introl eq_refl)).
    vm_compute. reflexivity.
Defined.

End EnhancedSdkFacts.

(** ** Sessions of the plain variant *)

Module BasicSessionFacts.

Import JS Basic BasicFacts BasicSession.

Lemma basic_run_invariant (P : gameState -> Prop) (ok : event -> bool) :
  (forall e g, ok e = true -> P g -> P (state_of (dispatch e g))) ->
  forall es g, forallb ok es = true -> P g -> P (state_of (run es g)).
Proof.
  intros Hstep. induction es as [|e es IH]; intros g Hok HP; [exact HP|].
  cbn [forallb] in Hok. apply andb_true_iff in Hok. destruct Hok as [He Hes].
  rewrite basic_run_cons. apply IH; [exact Hes|]. now apply Hstep.
Qed.

Lemma basic_run_invariant_all (P : gameState -> Prop) :
  (forall e g, P g -> P (state_of (dispatch e g))) ->
  forall es g, P g -> P (state_of (run es g)).
Proof.
  intros Hstep. induction es as [|e es IH]; intros g HP; [exact HP|].
  rewrite basic_run_cons. apply IH. now apply Hstep.
Qed.

Lemma basic_log_of_run_cons e es g :
  log_of (run (e :: es) g) = log_of (dispatch e g) ++ log_of (run es (state_of (dispatch e g))).
Proof. cbn [run]. apply basic_log_of_seq. Qed.

Lemma basic_constructor_state rnd :
  state_of (constructor rnd initialGameState)
  = set_obstacleHeight (rnd * (CONFIG.canvasHeight - CONFIG.gapSize - 100) + 50)
      initialGameState.
Proof. reflexivity. Qed.

Lemma jump_state g :
  state_of (jump g)
  = if gameRunning g then set_birdVelocity (- CONFIG.jumpStrength) g else g.
Proof. unfold jump, branch. now destruct (gameRunning g). Qed.

Lemma jump_log g : log_of (jump g) = [].
Proof. unfold jump, branch. now destruct (gameRunning g). Qed.

(** The handlers of the rewards promises leave the game alone. *)
Lemma basic_async_state e g :
  match e with SaveSettled _ | PointsFetched _ | SavePointsSuccess => True | _ => False end ->
  state_of (dispatch e g)
  = match e with PointsFetched response => set_ogpPoints response g | _ => g end.
Proof.
  destruct e as [| | |[|]|r|]; intros H; try contradiction; reflexivity.
Qed.

(** *** The obstacle's positions *)

Lemma basic_obstacle_recycled :
  lt (obstacleAfter 225 - CONFIG.obstacleSpeed) (- CONFIG.obstacleWidth) = true.
Proof. vm_compute. reflexivity. Qed.

Lemma basic_update_on_track rnd g : on_track g -> on_track (state_of (update rnd g)).
Proof.
  intros (k & Hk & Hx).
  pose proof (basic_update_fields rnd g) as H. revert H.
  generalize (state_of (update rnd g)) as u.
  intros u (_ & _ & Hx' & _). rewrite Hx in Hx'.
  destruct (Nat.eq_dec k 225) as [->|Hne].
  - exists 0%nat. split; [lia|]. now rewrite Hx', basic_obstacle_recycled.
  - exists (S k). split; [lia|]. rewrite Hx', basic_obstacle_on_screen by lia. reflexivity.
Qed.

Lemma basic_on_track_set_animationFrameId v g :
  on_track (set_animationFrameId v g) <-> on_track g.
Proof. reflexivity. Qed.

Lemma basic_gameLoop_on_track rnd handle g :
  on_track g -> on_track (state_of (gameLoop rnd handle g)).
Proof.
  intros H. destruct (gameRunning g) eqn:Hrun; rewrite basic_gameLoop_state, Hrun; [|exact H].
  apply basic_on_track_set_animationFrameId. now apply basic_update_on_track.
Qed.

Lemma basic_dispatch_on_track e g : on_track g -> on_track (state_of (dispatch e g)).
Proof.
  intros H. destruct e as [rnd handle| |rnd0 rnd handle|o|r|]; cbn [dispatch].
  - now apply basic_gameLoop_on_track.
  - rewrite jump_state. now destruct (gameRunning g).
  - rewrite basic_startGame_state. apply basic_gameLoop_on_track.
    exists 0%nat. split; [lia|]. now rewrite basic_resetRound_state.
  - now destruct o.
  - exact H.
  - exact H.
Qed.

Lemma basic_track_bounds k :
  (k <= 225)%nat ->
  (- CONFIG.obstacleWidth <=? obstacleAfter k) = true /\
  (obstacleAfter k <=? CONFIG.canvasWidth) = true.
Proof.
  intros Hk.
  assert (H : forallb (fun k => (- CONFIG.obstacleWidth <=? obstacleAfter k)
                                && (obstacleAfter k <=? CONFIG.canvasWidth))
                (seq 0 226) = true) by (vm_compute; reflexivity).
  rewrite forallb_forall in H. specialize (H k).
  rewrite in_seq in H. apply andb_true_iff, H. lia.
Qed.

Lemma basic_track_overlap k :
  (k <= 225)%nat ->
  gt (CONFIG.birdX + CONFIG.birdWidth) (obstacleAfter k)
  && lt CONFIG.birdX (obstacleAfter k + CONFIG.obstacleWidth)
  = (161 <=? k)%nat && (k <=? 199)%nat.
Proof.
  intros Hk.
  assert (H : forallb (fun k => Bool.eqb
                         (gt (CONFIG.birdX + CONFIG.birdWidth) (obstacleAfter k)
                          && lt CONFIG.birdX (obstacleAfter k + CONFIG.obstacleWidth))
                         ((161 <=? k)%nat && (k <=? 199)%nat))
                (seq 0 226) = true) by (vm_compute; reflexivity).
  rewrite forallb_forall in H. specialize (H k).
  rewrite in_seq in H. apply eqb_prop, H. lia.
Qed.

(** X15. In every session of [game.js] the obstacle is at one of the 226
    places [canvasWidth - k * obstacleSpeed], [k <= 225], hence never left
    of [-obstacleWidth] nor right of [canvasWidth].  Its column overlaps
    the bird's at the 39 places [k = 161, ..., 199] and nowhere else: only
    there can the obstacle end the game. *)
Theorem basic_obstacleX_stays_on_track (rnd0 : float) (es : list event) :
  let g := session rnd0 es in
  (exists k, (k <= 225)%nat /\ obstacleX g = obstacleAfter k /\
     (gt (CONFIG.birdX + CONFIG.birdWidth) (obstacleX g)
      && lt CONFIG.birdX (obstacleX g + CONFIG.obstacleWidth)
      = (161 <=? k)%nat && (k <=? 199)%nat) /\
     ((k < 161)%nat \/ (199 < k)%nat -> hitObstacle g = false)) /\
  (- CONFIG.obstacleWidth <=? obstacleX g) = true /\
  (obstacleX g <=? CONFIG.canvasWidth) = true.
Proof.
  intros g.
  assert (H : on_track g).
  { unfold g, session. apply basic_run_invariant_all; [exact basic_dispatch_on_track|].
    exists 0%nat. split; [lia|]. reflexivity. }
  destruct H as (k & Hk & Hx). split.
  - exists k. split; [exact Hk|]. split; [exact Hx|].
    pose proof (basic_track_overlap k Hk) as Ho. rewrite <- Hx in Ho.
    split; [exact Ho|]. intros Hout. unfold hitObstacle. cbv zeta. rewrite Ho.
    replace ((161 <=? k)%nat && (k <=? 199)%nat) with false; [reflexivity|].
    symmetry. apply andb_false_iff.
    destruct Hout as [Hlt|Hgt]; [left; apply Nat.leb_gt|right; apply Nat.leb_gt]; lia.
  - rewrite Hx. now apply basic_track_bounds.
Qed.

(** *** The bird's velocity *)

Lemma basic_velocity_settles v0 :
  v0 = 0 \/ v0 = - CONFIG.jumpStrength ->
  Math_min (velocityAfter v0 161 + CONFIG.gravity) CONFIG.maxVelocity = velocityAfter v0 161.
Proof. intros [->| ->]; vm_compute; reflexivity. Qed.

Lemma basic_velocity_track_bounds v0 k :
  v0 = 0 \/ v0 = - CONFIG.jumpStrength ->
  (k <= 161)%nat ->
  (- CONFIG.jumpStrength <=? velocityAfter v0 k) = true /\
  (velocityAfter v0 k <=? CONFIG.maxVelocity) = true.
Proof.
  intros Hv Hk.
  assert (H : forall v0, v0 = 0 \/ v0 = - CONFIG.jumpStrength ->
              forallb (fun k => (- CONFIG.jumpStrength <=? velocityAfter v0 k)
                                && (velocityAfter v0 k <=? CONFIG.maxVelocity))
                (seq 0 162) = true)
    by (intros ? [->| ->]; vm_compute; reflexivity).
  specialize (H v0 Hv). rewrite forallb_forall in H. specialize (H k).
  rewrite in_seq in H. apply andb_true_iff, H. lia.
Qed.

Lemma basic_update_velocity_on_track rnd g :
  velocity_on_track g -> velocity_on_track (state_of (update rnd g)).
Proof.
  intros (k & Hk & Hv).
  pose proof (basic_update_fields rnd g) as H. revert H.
  generalize (state_of (update rnd g)) as u.
  intros u (Hv' & _).
  destruct (Nat.eq_dec k 161) as [->|Hne].
  - exists 161%nat. split; [lia|]. rewrite Hv'.
    destruct Hv as [Hv|Hv]; rewrite Hv; [left|right]; apply basic_velocity_settles; auto.
  - exists (S k). split; [lia|]. rewrite Hv'.
    destruct Hv as [Hv|Hv]; rewrite Hv; [left|right]; reflexivity.
Qed.

Lemma basic_velocity_on_track_set_animationFrameId v g :
  velocity_on_track (set_animationFrameId v g) <-> velocity_on_track g.
Proof. reflexivity. Qed.

Lemma basic_gameLoop_velocity_on_track rnd handle g :
  velocity_on_track g -> velocity_on_track (state_of (gameLoop rnd handle g)).
Proof.
  intros H.
  destruct (gameRunning g) eqn:Hrun; rewrite basic_gameLoop_state, Hrun; [|exact H].
  apply basic_velocity_on_track_set_animationFrameId.
  now apply basic_update_velocity_on_track.
Qed.

Lemma basic_dispatch_velocity_on_track e g :
  velocity_on_track g -> velocity_on_track (state_of (dispatch e g)).
Proof.
  intros H. destruct e as [rnd handle| |rnd0 rnd handle|o|r|]; cbn [dispatch].
  - now apply basic_gameLoop_velocity_on_track.
  - rewrite jump_state. destruct (gameRunning g); [|exact H].
    exists 0%nat. split; [lia|]. right. reflexivity.
  - rewrite basic_startGame_state. apply basic_gameLoop_velocity_on_track.
    rewrite basic_resetRound_state. exists 0%nat. split; [lia|]. left. reflexivity.
  - now destruct o.
  - exact H.
  - exact H.
Qed.

(** X16. In every session of [game.js] the bird's velocity is what at most
    161 frames of gravity make of [0] (the velocity of a start) or of
    [-jumpStrength] (the velocity of a jump); so it never leaves the range
    from [-jumpStrength] to [maxVelocity], which it reaches 101 frames
    after a start and 161 frames after a jump and then keeps. *)
Theorem basic_birdVelocity_between_jump_and_max (rnd0 : float) (es : list event) :
  let g := session rnd0 es in
  (exists k, (k <= 161)%nat /\
     (birdVelocity g = velocityAfter 0 k \/
      birdVelocity g = velocityAfter (- CONFIG.jumpStrength) k)) /\
  ((- CONFIG.jumpStrength <=? birdVelocity g) = true /\
   (birdVelocity g <=? CONFIG.maxVelocity) = true) /\
  (velocityAfter 0 101 = CONFIG.maxVelocity /\
   velocityAfter (- CONFIG.jumpStrength) 161 = CONFIG.maxVelocity /\
   Math_min (CONFIG.maxVelocity + CONFIG.gravity) CONFIG.maxVelocity = CONFIG.maxVelocity).
Proof.
  intros g.
  assert (H : velocity_on_track g).
  { unfold g, session. apply basic_run_invariant_all; [exact basic_dispatch_velocity_on_track|].
    exists 0%nat. split; [lia|]. left. reflexivity. }
  split; [exact H|]. split.
  - destruct H as (k & Hk & [-> | ->]); apply basic_velocity_track_bounds; auto.
  - repeat split; vm_compute; reflexivity.
Qed.

(** *** The gap *)

Lemma basic_in_unit_interval_spec r :
  in_unit_interval r = true -> (0 <=? r) = true /\ (r <? 1) = true.
Proof. unfold in_unit_interval. apply andb_true_iff. Qed.

Lemma basic_update_gap_top_ok rnd g :
  in_unit_interval rnd = true -> gap_top_ok g -> gap_top_ok (state_of (update rnd g)).
Proof.
  intros Hr (Hgap & Hlo & Hhi). apply basic_in_unit_interval_spec in Hr.
  destruct Hr as [H0 H1].
  pose proof (basic_update_fields rnd g) as H. revert H.
  generalize (state_of (update rnd g)) as u.
  intros u (_ & _ & _ & Hh & Hg & _).
  unfold gap_top_ok. rewrite Hh, Hg, Hgap.
  split; [reflexivity|].
  destruct (lt (obstacleX g - CONFIG.obstacleSpeed) (- CONFIG.obstacleWidth)).
  - exact (gap_top_range rnd H0 H1).
  - split; assumption.
Qed.

Lemma basic_gap_top_ok_set_animationFrameId v g :
  gap_top_ok (set_animationFrameId v g) <-> gap_top_ok g.
Proof. reflexivity. Qed.

Lemma basic_gameLoop_gap_top_ok rnd handle g :
  in_unit_interval rnd = true -> gap_top_ok g ->
  gap_top_ok (state_of (gameLoop rnd handle g)).
Proof.
  intros Hr H.
  destruct (gameRunning g) eqn:Hrun; rewrite basic_gameLoop_state, Hrun; [|exact H].
  apply basic_gap_top_ok_set_animationFrameId. now apply basic_update_gap_top_ok.
Qed.

Lemma basic_resetRound_gap_top_ok rnd g :
  in_unit_interval rnd = true -> gap g = CONFIG.gapSize ->
  gap_top_ok (state_of (resetRound rnd g)).
Proof.
  intros Hr Hgap. apply basic_in_unit_interval_spec in Hr. destruct Hr as [H0 H1].
  rewrite basic_resetRound_state. unfold gap_top_ok. cbn [gap obstacleHeight]. rewrite Hgap.
  split; [reflexivity|]. exact (gap_top_range rnd H0 H1).
Qed.

Lemma basic_dispatch_gap_top_ok e g :
  random_ok e = true -> gap_top_ok g -> gap_top_ok (state_of (dispatch e g)).
Proof.
  intros He H.
  destruct e as [rnd handle| |rnd0 rnd handle|o|r|]; cbn [dispatch random_ok] in *.
  - now apply basic_gameLoop_gap_top_ok.
  - rewrite jump_state. now destruct (gameRunning g).
  - apply andb_true_iff in He. destruct He as [He0 He].
    rewrite basic_startGame_state. apply basic_gameLoop_gap_top_ok; [exact He|].
    apply basic_resetRound_gap_top_ok; [exact He0|]. apply H.
  - now destruct o.
  - exact H.
  - exact H.
Qed.

Lemma basic_session_gap_top_ok rnd0 es :
  in_unit_interval rnd0 = true -> forallb random_ok es = true ->
  gap_top_ok (session rnd0 es).
Proof.
  intros Hr Hes. unfold session.
  apply (basic_run_invariant gap_top_ok random_ok basic_dispatch_gap_top_ok); [exact Hes|].
  apply basic_in_unit_interval_spec in Hr. destruct Hr as [H0 H1].
  rewrite basic_constructor_state. split; [reflexivity|]. exact (gap_top_range rnd0 H0 H1).
Qed.

(** *** The bird and the obstacle *)

Lemma basic_update_clear_of_obstacle rnd g :
  gameRunning g = true -> clear_of_obstacle (state_of (update rnd g)).
Proof.
  intros Hrun.
  pose proof (basic_update_fields rnd g) as H. revert H.
  generalize (state_of (update rnd g)) as u.
  intros u (_ & _ & _ & _ & _ & _ & _ & Hr) Hrun'.
  rewrite Hr in Hrun'.
  destruct (hitGroundOrCeiling u); [discriminate|].
  destruct (hitObstacle u); [discriminate|reflexivity].
Qed.

Lemma basic_clear_of_obstacle_set_animationFrameId v g :
  clear_of_obstacle (set_animationFrameId v g) <-> clear_of_obstacle g.
Proof. reflexivity. Qed.

Lemma basic_gameLoop_clear_of_obstacle rnd handle g :
  clear_of_obstacle g -> clear_of_obstacle (state_of (gameLoop rnd handle g)).
Proof.
  intros H.
  destruct (gameRunning g) eqn:Hrun; rewrite basic_gameLoop_state, Hrun; [|exact H].
  apply basic_clear_of_obstacle_set_animationFrameId.
  now apply basic_update_clear_of_obstacle.
Qed.

Lemma basic_dispatch_clear_of_obstacle e g :
  clear_of_obstacle g -> clear_of_obstacle (state_of (dispatch e g)).
Proof.
  intros H. destruct e as [rnd handle| |rnd0 rnd handle|o|r|]; cbn [dispatch].
  - now apply basic_gameLoop_clear_of_obstacle.
  - rewrite jump_state. destruct (gameRunning g) eqn:Hrun; [|exact H].
    intros _. exact (H Hrun).
  - rewrite basic_startGame_state. apply basic_gameLoop_clear_of_obstacle.
    intros _. rewrite basic_resetRound_state. unfold hitObstacle. cbn [obstacleX birdY].
    reflexivity.
  - now destruct o.
  - exact H.
  - exact H.
Qed.

Lemma basic_session_clear_of_obstacle rnd0 es : clear_of_obstacle (session rnd0 es).
Proof.
  unfold session. apply basic_run_invariant_all; [exact basic_dispatch_clear_of_obstacle|].
  intros H. discriminate H.
Qed.

Lemma basic_session_flight_invariant rnd0 es : flight_invariant (session rnd0 es).
Proof.
  unfold session. apply basic_run_invariant_all; [exact basic_dispatch_flight_invariant|].
  split; [reflexivity|]. intros H. discriminate H.
Qed.

Lemma basic_gap_top_finite h :
  (50 <=? h) = true -> (h <=? 400) = true -> SFis_finite (Prim2SF h) = true.
Proof.
  intros H0 H1. rewrite FloatAxioms.leb_spec in H0, H1.
  destruct (Prim2SF h) as [s|[|]| |s m e]; try reflexivity.
  - vm_compute in H0. discriminate.
  - vm_compute in H1. discriminate.
  - vm_compute in H0. discriminate.
Qed.

(** X17. In every session of [game.js] with [Math.random()] in [0, 1) the
    gap keeps its size, its top lies between [50] and
    [canvasHeight - gapSize - 50], and a running game has the bird clear
    of the obstacle: when the bird's column overlaps the obstacle's, the
    bird is inside the gap.  A step after which the bird is in the column
    but not in the gap ends the game. *)
Theorem basic_running_bird_is_inside_the_gap (rnd0 : float) (es : list event) :
  in_unit_interval rnd0 = true -> forallb random_ok es = true ->
  let g := session rnd0 es in
  (gap g = CONFIG.gapSize /\
   (50 <=? obstacleHeight g) = true /\
   (obstacleHeight g <=? CONFIG.canvasHeight - CONFIG.gapSize - 50) = true) /\
  (gameRunning g = true ->
   gt (CONFIG.birdX + CONFIG.birdWidth) (obstacleX g) = true ->
   lt CONFIG.birdX (obstacleX g + CONFIG.obstacleWidth) = true ->
   (obstacleHeight g <=? birdY g) = true /\
   (birdY g + CONFIG.birdHeight <=? obstacleHeight g + gap g) = true) /\
  (forall rnd, hitObstacle (state_of (update rnd g)) = true ->
               gameRunning (state_of (update rnd g)) = false).
Proof.
  intros Hr Hes g.
  pose proof (basic_session_gap_top_ok rnd0 es Hr Hes) as Hok. fold g in Hok.
  split; [exact Hok|]. destruct Hok as (Hgap & Hlo & Hhi). split.
  - intros Hrun Hleft Hright.
    pose proof (basic_session_clear_of_obstacle rnd0 es Hrun) as Hclear.
    destruct (basic_session_flight_invariant rnd0 es) as [_ Hb]. specialize (Hb Hrun).
    fold g in Hclear, Hb. destruct Hb as [Hy0 Hy1].
    unfold hitObstacle in Hclear. cbv zeta in Hclear.
    rewrite Hleft, Hright in Hclear. cbn [andb] in Hclear.
    apply orb_false_iff in Hclear. destruct Hclear as [Htop Hbottom].
    unfold lt, gt in Htop, Hbottom.
    pose proof (leb_not_nan _ _ Hy0) as [_ Ny].
    pose proof (leb_not_nan _ _ Hy1) as [Nyb _].
    pose proof (leb_not_nan _ _ Hlo) as [_ Nh].
    split.
    + now apply ltb_false_leb.
    + apply ltb_false_leb; [|exact Nyb|exact Hbottom].
      rewrite Hgap. apply add_not_nan_r; [|reflexivity].
      now apply basic_gap_top_finite.
  - intros rnd Hhit.
    pose proof (basic_update_fields rnd g) as H. revert H Hhit.
    generalize (state_of (update rnd g)) as u.
    intros u (_ & _ & _ & _ & _ & _ & _ & Hrun) Hhit.
    rewrite Hrun, Hhit, orb_true_r. reflexivity.
Qed.

(** *** The player's total *)

Lemma basic_dispatch_ogpPoints e g :
  ogpPoints (state_of (dispatch e g))
  = match e with PointsFetched response => response | _ => ogpPoints g end.
Proof.
  destruct e as [rnd handle| |rnd0 rnd handle|o|r|]; cbn [dispatch].
  - destruct (gameRunning g) eqn:Hrun; rewrite basic_gameLoop_state, Hrun; [|reflexivity].
    pose proof (basic_update_fields rnd g) as H. revert H.
    generalize (state_of (update rnd g)) as u.
    intros u (_ & _ & _ & _ & _ & _ & Hp & _). exact Hp.
  - rewrite jump_state. now destruct (gameRunning g).
  - rewrite basic_startGame_state, basic_gameLoop_state, basic_resetRound_state.
    cbn [gameRunning].
    pose proof (basic_update_fields rnd (state_of (resetRound rnd0 g))) as H.
    rewrite basic_resetRound_state in H. revert H.
    generalize (state_of (update rnd
                  {| birdY := CONFIG.birdInitialY; birdVelocity := 0;
                     obstacleX := CONFIG.canvasWidth; gap := gap g;
                     obstacleHeight := rnd0 * (CONFIG.canvasHeight - gap g - 100) + 50;
                     score := 0; ogpPoints := ogpPoints g; gameRunning := true;
                     animationFrameId := animationFrameId g |})) as u.
    intros u (_ & _ & _ & _ & _ & _ & Hp & _). exact Hp.
  - now destruct o.
  - reflexivity.
  - reflexivity.
Qed.

Lemma ogpPoints_of_run es : forall g,
  ogpPoints (state_of (run es g)) = last_total es (ogpPoints g).
Proof.
  induction es as [|e es IH]; intros g; [reflexivity|].
  rewrite basic_run_cons, IH, basic_dispatch_ogpPoints. unfold last_total. cbn [fold_left].
  now destruct e.
Qed.

(** X18. [gameState.ogpPoints] is written by one handler only, the one that
    receives the answer to [getPoints]: whatever else happens in between
    (frames, jumps, rounds started and ended), it holds the total of the
    last answer, or its old value if there was none. *)
Theorem ogpPoints_is_the_last_reported_total (es : list event) (g : gameState) :
  ogpPoints (state_of (run es g)) = last_total es (ogpPoints g).
Proof. apply ogpPoints_of_run. Qed.

(** *** After the game is over *)

Lemma basic_set_ogpPoints_same g : set_ogpPoints (ogpPoints g) g = g.
Proof. now destruct g. Qed.

Lemma basic_dispatch_game_over e g :
  gameRunning g = false -> is_restart e = false ->
  state_of (dispatch e g)
  = set_ogpPoints
      (match e with PointsFetched response => response | _ => ogpPoints g end) g /\
  Forall is_rewards_output (log_of (dispatch e g)).
Proof.
  intros Hrun He. destruct e as [rnd handle| |rnd0 rnd handle|o|r|]; cbn [dispatch].
  - rewrite basic_gameLoop_state, basic_gameLoop_log, Hrun, basic_set_ogpPoints_same.
    split; [reflexivity|constructor].
  - rewrite jump_state, jump_log, Hrun, basic_set_ogpPoints_same.
    split; [reflexivity|constructor].
  - discriminate He.
  - rewrite basic_set_ogpPoints_same.
    destruct o; (split; [reflexivity|]); repeat constructor.
  - split; [reflexivity|]. repeat constructor.
  - rewrite basic_set_ogpPoints_same. split; [reflexivity|]. repeat constructor.
Qed.

(** X19. Once the game is over in [game.js] it stays as it is until
    [startGame]: frame callbacks, jumps and the handlers of the rewards
    promises leave every field but [ogpPoints] unchanged, draw nothing and
    request no frame; all they do is write to the console, ask for the
    total and show it. *)
Theorem basic_game_over_is_absorbing (es : list event) (g : gameState) :
  gameRunning g = false -> existsb is_restart es = false ->
  state_of (run es g) = set_ogpPoints (last_total es (ogpPoints g)) g /\
  Forall is_rewards_output (log_of (run es g)).
Proof.
  revert g. induction es as [|e es IH]; intros g Hrun Hes.
  - split; [symmetry; apply basic_set_ogpPoints_same|constructor].
  - cbn [existsb] in Hes. apply orb_false_iff in Hes. destruct Hes as [He Hes].
    destruct (basic_dispatch_game_over e g Hrun He) as [Hs Hl].
    rewrite basic_run_cons, basic_log_of_run_cons, Hs.
    destruct (IH (set_ogpPoints
                    match e with PointsFetched response => response | _ => ogpPoints g end g)
                 Hrun Hes) as [IHs IHl].
    split.
    + rewrite IHs. unfold last_total. cbn [fold_left ogpPoints set_ogpPoints].
      now destruct g.
    + apply Forall_app. split; assumption.
Qed.

(** *** Starting a round, and the frame that ends the game *)

(** X20. [startGame] of [game.js] starts every round from the same state,
    whatever state it is called in: only [gap] and [ogpPoints] are kept.
    It hides the screens, runs the first frame, draws it and requests the
    next frame; it cancels no frame and calls no collaborator. *)
Theorem basic_startGame_starts_afresh
    (rnd0 rnd : float) (handle : Z) (g : gameState) :
  let first :=
    {| birdY := CONFIG.birdInitialY + CONFIG.gravity;
       birdVelocity := CONFIG.gravity;
       obstacleX := CONFIG.canvasWidth - CONFIG.obstacleSpeed;
       gap := gap g;
       obstacleHeight := rnd0 * (CONFIG.canvasHeight - gap g - 100) + 50;
       score := 0;
       ogpPoints := ogpPoints g;
       gameRunning := true;
       animationFrameId := animationFrameId g |} in
  state_of (startGame rnd0 rnd handle g) = set_animationFrameId (Some handle) first /\
  log_of (startGame rnd0 rnd handle g)
  = [DomHideScreens; Render first; RequestAnimationFrame].
Proof.
  destruct g as [y v x gp h sc pts run id].
  vm_compute. split; reflexivity.
Qed.

Lemma basic_cancel_calls_app l1 l2 :
  cancel_calls (l1 ++ l2) = cancel_calls l1 ++ cancel_calls l2.
Proof. apply flat_map_app. Qed.

Lemma basic_cancel_calls_endGame g :
  cancel_calls (log_of (endGame g))
  = match animationFrameId g with
    | Some id => if Z.eqb id 0 then [] else [id]
    | None => []
    end.
Proof.
  rewrite basic_endGame_log. unfold cancel_calls. rewrite !flat_map_app.
  destruct (animationFrameId g) as [id|]; cbn [truthy_handle].
  - destruct (Z.eqb id 0), (gt (score g) 0); reflexivity.
  - destruct (gt (score g) 0); reflexivity.
Qed.

Lemma basic_update_cancel_calls rnd g :
  gameRunning g = true ->
  cancel_calls (log_of (update rnd g))
  = if gameRunning (state_of (update rnd g)) then []
    else match animationFrameId g with
         | Some id => if Z.eqb id 0 then [] else [id]
         | None => []
         end.
Proof.
  intros Hrun.
  rewrite basic_update_log, basic_update_state.
  pose proof (basic_beforeCollisionCheck_fields rnd g) as Hb. cbv zeta in Hb.
  destruct Hb as (_ & _ & _ & _ & _ & _ & _ & Hr & Hid).
  rewrite Hrun in Hr. revert Hr Hid.
  generalize (beforeCollisionCheck rnd g) as b. intros b Hr Hid.
  rewrite basic_checkCollisions_log.
  pose proof (basic_checkCollisions_fields b) as Hc. cbv zeta in Hc.
  destruct Hc as (_ & _ & _ & _ & _ & _ & _ & Hg).
  rewrite Hg, Hr.
  destruct (hitGroundOrCeiling b || hitObstacle b); [|reflexivity].
  now rewrite basic_cancel_calls_endGame, Hid.
Qed.

(** X21. The frame in which the game of [game.js] ends is carried out to its
    end: [endGame] cancels the handle that the previous frame stored (if
    it is not [null] or [0]), then [gameLoop] still draws the final state
    and requests one more frame, whose handle the state keeps.  That last
    callback finds the game over and does nothing. *)
Theorem basic_game_over_frame_requests_one_more
    (rnd : float) (handle : Z) (g : gameState) :
  gameRunning g = true ->
  gameRunning (state_of (update rnd g)) = false ->
  let r := gameLoop rnd handle g in
  gameRunning (state_of r) = false /\
  animationFrameId (state_of r) = Some handle /\
  log_of r
  = log_of (update rnd g) ++ [Render (state_of (update rnd g)); RequestAnimationFrame] /\
  cancel_calls (log_of r)
  = match animationFrameId g with
    | Some id => if Z.eqb id 0 then [] else [id]
    | None => []
    end /\
  forall rnd' handle', gameLoop rnd' handle' (state_of r) = (tt, state_of r, []).
Proof.
  intros Hrun Hover r.
  assert (Hs : state_of r = set_animationFrameId (Some handle) (state_of (update rnd g))).
  { unfold r. now rewrite basic_gameLoop_state, Hrun. }
  assert (Hl : log_of r
               = log_of (update rnd g)
                 ++ [Render (state_of (update rnd g)); RequestAnimationFrame]).
  { unfold r. now rewrite basic_gameLoop_log, Hrun. }
  pose proof (basic_update_cancel_calls rnd g Hrun) as Hc. rewrite Hover in Hc.
  rewrite Hl, basic_cancel_calls_app, Hc, Hs. clear Hs Hl Hc r.
  revert Hover. generalize (state_of (update rnd g)) as u. intros u Hover.
  repeat split.
  - exact Hover.
  - cbn [cancel_calls flat_map app]. apply app_nil_r.
  - intros rnd' handle'. unfold gameLoop, branch.
    cbn [gameRunning set_animationFrameId]. rewrite Hover. reflexivity.
Qed.

(** X22. The game-over screen of [game.js] shows the total as it was
    before the save: in the frame that ends the game [endGame] writes the
    final score and the total to the page, the total being the one of the
    last answer to [getPoints] so far, and only then calls [saveScore] (if
    the score is positive); the points of the round reach the displayed
    total with a later answer. *)
Theorem game_over_shows_the_total_before_the_save
    (es : list event) (g0 : gameState) (rnd : float) (handle : Z) :
  let g := state_of (run es g0) in
  let u := state_of (update rnd g) in
  gameRunning g = true -> gameRunning u = false ->
  exists cancelled,
    log_of (gameLoop rnd handle g)
    = cancelled
      ++ [DomFinalScore (score u);
          DomOgpPoints (last_total es (ogpPoints g0));
          DomShowGameOverScreen]
      ++ (if gt (score u) 0 then [OgpSaveScore (score u)] else [])
      ++ [Render u; RequestAnimationFrame] /\
    Forall (fun e => exists id, e = CancelAnimationFrame id) cancelled.
Proof.
  intros g u Hrun Hover.
  pose proof (ogpPoints_of_run es g0) as Hp. fold g in Hp.
  rewrite basic_gameLoop_log, Hrun. fold u.
  rewrite basic_update_log.
  pose proof (basic_beforeCollisionCheck_fields rnd g) as Hb. cbv zeta in Hb.
  destruct Hb as (_ & _ & _ & _ & _ & _ & Hpts & Hr & _).
  pose proof (basic_update_state rnd g) as Hu. fold u in Hu.
  rewrite Hrun in Hr. rewrite Hp in Hpts. revert Hu Hr Hpts.
  generalize (beforeCollisionCheck rnd g) as b. intros b Hu Hr Hpts.
  pose proof (basic_checkCollisions_fields b) as Hc. cbv zeta in Hc.
  destruct Hc as (_ & _ & _ & _ & _ & Hs & _ & Hg).
  rewrite <- Hu in Hs, Hg. rewrite Hover, Hr in Hg.
  rewrite basic_checkCollisions_log.
  destruct (hitGroundOrCeiling b || hitObstacle b); [|discriminate Hg].
  rewrite basic_endGame_log, Hs, Hpts.
  exists (if truthy_handle (animationFrameId b)
          then match animationFrameId b with
               | Some id => [CancelAnimationFrame id]
               | None => []
               end
          else []).
  split.
  - now rewrite <- !app_assoc.
  - destruct (truthy_handle (animationFrameId b)); [|constructor].
    destruct (animationFrameId b) as [id|]; [|constructor].
    constructor; [now exists id|constructor].
Qed.

(** *** What is drawn *)

Lemma add_zero_finite h : SFis_finite (Prim2SF h) = true -> is_neg_zero h = false -> 0 + h = h.
Proof.
  intros Hf Hz. apply Prim2SF_inj. rewrite add_spec, Prim2SF_zero.
  unfold is_neg_zero in Hz. rewrite classify_spec in Hz.
  destruct (Prim2SF h) as [[|]|s| |s m e]; try discriminate Hf; try reflexivity.
  discriminate Hz.
Qed.

Lemma gap_top_not_zero h : (50 <=? h) = true -> is_neg_zero h = false.
Proof.
  intros H. rewrite FloatAxioms.leb_spec in H.
  destruct (Prim2SF h) as [[|]|s| |s m e] eqn:E.
  - vm_compute in H. discriminate H.
  - vm_compute in H. discriminate H.
  - unfold is_neg_zero. rewrite classify_spec, E. now destruct s.
  - discriminate H.
  - exact (proj2 (finite_not_zero h s m e E)).
Qed.

(** X23. What [render] of [game.js] draws for a running game is consistent
    with the collision test: in every session with [Math.random()] in
    [0, 1), the rectangle filled for the bird lies within the height of the
    cleared canvas and has no point in common with either of the two
    rectangles filled for the obstacle. *)
Theorem drawn_bird_is_clear_of_drawn_obstacle (rnd0 : float) (es : list event) :
  in_unit_interval rnd0 = true -> forallb random_ok es = true ->
  let g := session rnd0 es in
  gameRunning g = true ->
  exists canvas bird top bottom,
    cleared (render_calls g) = [canvas] /\
    filled (render_calls g) = [bird; top; bottom] /\
    within_height bird canvas = true /\
    overlap bird top = false /\
    overlap bird bottom = false.
Proof.
  intros Hr Hes g Hrun.
  pose proof (basic_session_clear_of_obstacle rnd0 es Hrun) as Hclear.
  destruct (basic_session_gap_top_ok rnd0 es Hr Hes) as (Hgap & Hlo & Hhi).
  destruct (basic_session_flight_invariant rnd0 es) as [_ Hb]. specialize (Hb Hrun).
  fold g in Hclear, Hgap, Hlo, Hhi, Hb. destruct Hb as [Hy0 Hy1].
  eexists _, _, _, _. split; [reflexivity|]. split; [reflexivity|].
  unfold within_height, overlap. cbn [rx ry rw rh].
  assert (Hz : 0 + obstacleHeight g = obstacleHeight g).
  { apply add_zero_finite; [now apply basic_gap_top_finite|now apply gap_top_not_zero]. }
  rewrite Hz.
  change (0 + CONFIG.canvasHeight) with CONFIG.canvasHeight.
  unfold hitObstacle in Hclear. cbv zeta in Hclear.
  change (gt ?a ?b) with (lt b a) in Hclear.
  split; [now rewrite Hy0, Hy1|].
  destruct (lt (obstacleX g) (CONFIG.birdX + CONFIG.birdWidth)) eqn:Hleft;
    [|split; now rewrite andb_false_r].
  destruct (lt CONFIG.birdX (obstacleX g + CONFIG.obstacleWidth)) eqn:Hright;
    [|split; reflexivity].
  cbn [andb] in Hclear. apply orb_false_iff in Hclear. destruct Hclear as [Htop Hbottom].
  split.
  - now rewrite Htop.
  - rewrite Hbottom. now rewrite andb_false_r.
Qed.

(** *** Instances at concrete sessions *)

(** One jump after 50 frames takes the bird into the gap of the first
    obstacle: 162 frames into the round the obstacle is at [x = 76], over
    the bird's column, and the bird is between the gap's edges. *)
Lemma basic_running_bird_is_inside_the_gap_witness :
  let es := StartButton 0.5 0.5 1
            :: repeat (FrameTick 0.5 1) 49 ++ JumpInput :: repeat (FrameTick 0.5 1) 112 in
  let g := session 0.5 es in
  gameRunning g = true /\
  obstacleX g = 76 /\
  (obstacleHeight g <=? birdY g) = true /\
  (birdY g + CONFIG.birdHeight <=? obstacleHeight g + gap g) = true.
Proof.
  intros es g.
  assert (Hrun : gameRunning g = true) by (vm_compute; reflexivity).
  assert (Hx : obstacleX g = 76) by (vm_compute; reflexivity).
  split; [exact Hrun|]. split; [exact Hx|].
  apply (proj1 (proj2 (basic_running_bird_is_inside_the_gap 0.5 es eq_refl eq_refl))).
  - exact Hrun.
  - fold g. rewrite Hx. reflexivity.
  - fold g. rewrite Hx. reflexivity.
Defined.

Lemma basic_game_over_is_absorbing_witness :
  let es := [FrameTick 0.5 1; JumpInput; SaveSettled Resolved; PointsFetched 42;
             FrameTick 0.5 2] in
  state_of (run es initialGameState) = set_ogpPoints 42 initialGameState /\
  Forall is_rewards_output (log_of (run es initialGameState)).
Proof.
  apply (basic_game_over_is_absorbing
           [FrameTick 0.5 1; JumpInput; SaveSettled Resolved; PointsFetched 42;
            FrameTick 0.5 2]
           initialGameState); reflexivity.
Defined.

Lemma basic_game_over_frame_requests_one_more_witness :
  let g := set_birdY 569.99
             (set_animationFrameId (Some 7%Z) (state_of (resetRound 0.5 initialGameState))) in
  let r := gameLoop 0.5 8 g in
  gameRunning (state_of r) = false /\
  animationFrameId (state_of r) = Some 8%Z /\
  cancel_calls (log_of r) = [7%Z].
Proof.
  intros g r.
  assert (Hrun : gameRunning g = true) by reflexivity.
  assert (Hover : gameRunning (state_of (update 0.5 g)) = false) by (vm_compute; reflexivity).
  destruct (basic_game_over_frame_requests_one_more 0.5 8 g Hrun Hover)
    as (H1 & H2 & _ & H4 & _).
  split; [exact H1|]. split; [exact H2|exact H4].
Defined.

Lemma drawn_bird_is_clear_of_drawn_obstacle_witness :
  let es := StartButton 0.5 0.5 1
            :: repeat (FrameTick 0.5 1) 49 ++ JumpInput :: repeat (FrameTick 0.5 1) 112 in
  let g := session 0.5 es in
  gameRunning g = true /\
  exists canvas bird top bottom,
    cleared (render_calls g) = [canvas] /\
    filled (render_calls g) = [bird; top; bottom] /\
    within_height bird canvas = true /\
    overlap bird top = false /\
    overlap bird bottom = false.
Proof.
  intros es g.
  assert (Hrun : gameRunning g = true) by (vm_compute; reflexivity).
  split; [exact Hrun|].
  exact (drawn_bird_is_clear_of_drawn_obstacle 0.5 es eq_refl eq_refl Hrun).
Defined.

(** The bird falls to the ground in a round that started after the SDK
    had reported a total of 42. *)
Lemma game_over_shows_the_total_before_the_save_witness :
  let es := PointsFetched 42 :: StartButton 0.5 0.5 1 :: repeat (FrameTick 0.5 2) 102 in
  let g := state_of (run es initialGameState) in
  gameRunning g = true /\
  In (DomOgpPoints 42) (log_of (gameLoop 0.5 3 g)).
Proof.
  intros es g.
  assert (Hrun : gameRunning g = true) by (vm_compute; reflexivity).
  assert (Hover : gameRunning (state_of (update 0.5 g)) = false) by (vm_compute; reflexivity).
  split; [exact Hrun|].
  destruct (game_over_shows_the_total_before_the_save es initialGameState 0.5 3 Hrun Hover)
    as (cancelled & Hlog & _).
  fold g in Hlog. rewrite Hlog. apply in_or_app. right. right. left. reflexivity.
Defined.

End BasicSessionFacts.

(** ** The plain variant and its rewards manager *)

Module BasicSdkFacts.

Import JS Basic BasicFacts BasicSdk.

Lemma basic_load_manager_ok f o : manager_ok (fst (page_load f o)).
Proof.
  unfold manager_ok.
  destruct f, o as [[[| |]|]|]; cbn; intros H; first [reflexivity|discriminate H].
Qed.

Lemma basic_saveScore_guarded m p :
  manager_ok m ->
  saveScore m p
  = (Returned, if isInitialized m && negb (p <=? 0) then [SdkSavePoints p] else []).
Proof.
  intros Hm. unfold saveScore. unfold manager_ok in Hm.
  destruct (isInitialized m); cbn [negb orb andb]; [|reflexivity].
  destruct (p <=? 0); cbn [negb]; [reflexivity|].
  now rewrite Hm.
Qed.

Lemma updateTotalOgpPoints_guarded m :
  manager_ok m ->
  updateTotalOgpPoints m = (Returned, if isInitialized m then [SdkGetPoints] else []).
Proof.
  intros Hm. unfold updateTotalOgpPoints. unfold manager_ok in Hm.
  destruct (isInitialized m); cbn [negb]; [|reflexivity].
  now rewrite Hm.
Qed.

Lemma basic_lift_and_then (m0 : M unit) (x : X) g :
  (lift m0 >> x) g
  = (completion_of (x (state_of (m0 g))),
     final_state (x (state_of (m0 g))),
     map Game (log_of (m0 g)) ++ actions_of (x (state_of (m0 g)))).
Proof.
  unfold and_then, lift, completion_of, final_state, actions_of.
  now destruct (x (state_of (m0 g))) as [[c g2] l2].
Qed.

Lemma basic_result_eta (r : completion * gameState * list action) :
  r = (completion_of r, final_state r, actions_of r).
Proof. now destruct r as [[c g] l]. Qed.

Lemma basic_lift_silent_and_then (m0 : M unit) (x : X) g :
  log_of (m0 g) = [] -> (lift m0 >> x) g = x (state_of (m0 g)).
Proof.
  intros H. rewrite basic_lift_and_then, H. cbn [map app]. symmetry.
  apply basic_result_eta.
Qed.

Lemma basic_and_then_returned (x1 x2 : X) g g1 l1 :
  x1 g = (Returned, g1, l1) ->
  (x1 >> x2) g = (completion_of (x2 g1), final_state (x2 g1), l1 ++ actions_of (x2 g1)).
Proof.
  intros H. unfold and_then. rewrite H.
  unfold completion_of, final_state, actions_of. now destruct (x2 g1) as [[c g2] l2].
Qed.

Lemma basic_expand_app m l1 l2 : expand m (l1 ++ l2) = expand m l1 ++ expand m l2.
Proof. apply flat_map_app. Qed.

Lemma basic_endGame_with_manager m g :
  manager_ok m ->
  endGame m g
  = (Returned, state_of (Basic.endGame g), expand m (log_of (Basic.endGame g))).
Proof.
  intros Hm. rewrite basic_endGame_state, basic_endGame_log.
  unfold endGame. rewrite !basic_lift_and_then.
  unfold when, on_manager. rewrite !basic_state_of_modify.
  destruct g as [y v x gp h sc pts run [id|]].
  - unfold branch. cbn [animationFrameId set_gameRunning truthy_handle].
    destruct (Z.eqb id 0); cbn [negb]; basic_unfold;
      destruct (gt sc 0); cbn; rewrite ?(basic_saveScore_guarded m sc Hm);
      cbn [fst snd]; rewrite ?app_nil_r; reflexivity.
  - unfold branch. cbn [animationFrameId set_gameRunning truthy_handle].
    basic_unfold. destruct (gt sc 0); cbn; rewrite ?(basic_saveScore_guarded m sc Hm);
      cbn [fst snd]; rewrite ?app_nil_r; reflexivity.
Qed.

Lemma basic_checkCollisions_with_manager m g :
  manager_ok m ->
  checkCollisions m g
  = (Returned, state_of (Basic.checkCollisions g),
     expand m (log_of (Basic.checkCollisions g))).
Proof.
  intros Hm. rewrite basic_checkCollisions_state, basic_checkCollisions_log.
  unfold checkCollisions, when.
  destruct (hitGroundOrCeiling g); cbn [orb].
  - now apply basic_endGame_with_manager.
  - destruct (hitObstacle g); [now apply basic_endGame_with_manager|reflexivity].
Qed.

Lemma basic_update_with_manager m rnd g :
  manager_ok m ->
  update m rnd g
  = (Returned, state_of (Basic.update rnd g), expand m (log_of (Basic.update rnd g))).
Proof.
  intros Hm. rewrite basic_update_state, basic_update_log.
  unfold update, beforeCollisionCheck.
  rewrite !basic_lift_silent_and_then;
    try reflexivity; try apply basic_obstaclePassed_log.
  rewrite !basic_state_of_seq.
  now apply basic_checkCollisions_with_manager.
Qed.

Lemma basic_gameLoop_with_manager m rnd handle g :
  manager_ok m ->
  gameLoop m rnd handle g
  = (Returned, state_of (Basic.gameLoop rnd handle g),
     expand m (log_of (Basic.gameLoop rnd handle g))).
Proof.
  intros Hm. rewrite basic_gameLoop_state, basic_gameLoop_log.
  unfold gameLoop, when.
  destruct (gameRunning g) eqn:Hrun; cbn [negb]; [|reflexivity].
  rewrite (basic_and_then_returned _ _ g (state_of (Basic.update rnd g))
             (expand m (log_of (Basic.update rnd g))))
    by now apply basic_update_with_manager.
  generalize (state_of (Basic.update rnd g)) as u.
  generalize (log_of (Basic.update rnd g)) as l. intros l u.
  rewrite !basic_lift_and_then.
  unfold completion_of, final_state, actions_of, lift. cbn [fst snd].
  rewrite basic_expand_app. reflexivity.
Qed.

Lemma basic_positive_not_below_zero p : gt p 0 = true -> (p <=? 0) = false.
Proof.
  unfold gt. intros H. destruct (p <=? 0) eqn:E; [|reflexivity].
  apply leb_ltb_false in E. congruence.
Qed.

Lemma basic_savePoints_calls_app l1 l2 :
  savePoints_calls (l1 ++ l2) = savePoints_calls l1 ++ savePoints_calls l2.
Proof. apply flat_map_app. Qed.

Lemma basic_savePoints_calls_expand m l :
  manager_ok m ->
  savePoints_calls (expand m l)
  = flat_map (fun p => if isInitialized m && negb (p <=? 0) then [p] else [])
      (saveScore_calls l).
Proof.
  intros Hm. induction l as [|e l IH]; [reflexivity|].
  change (expand m (e :: l)) with (manager_calls m e ++ expand m l).
  rewrite basic_savePoints_calls_app, IH.
  destruct e; try reflexivity.
  cbn [manager_calls saveScore_calls flat_map app].
  rewrite (basic_saveScore_guarded m points Hm).
  cbn [snd]. now destruct (isInitialized m && negb (points <=? 0)).
Qed.

Lemma basic_gameLoop_saveScore_calls rnd handle g :
  saveScore_calls (log_of (Basic.gameLoop rnd handle g))
  = if gameRunning g && negb (gameRunning (state_of (Basic.gameLoop rnd handle g)))
    then (if gt (score (state_of (Basic.gameLoop rnd handle g))) 0
          then [score (state_of (Basic.gameLoop rnd handle g))] else [])
    else [].
Proof.
  rewrite basic_gameLoop_log, basic_gameLoop_state.
  destruct (gameRunning g) eqn:Hrun; [|reflexivity].
  unfold saveScore_calls at 1. rewrite flat_map_app.
  fold (saveScore_calls (log_of (Basic.update rnd g))).
  rewrite (basic_update_saveScore_calls rnd g Hrun).
  generalize (state_of (Basic.update rnd g)) as u. intros u.
  cbn [andb gameRunning score set_animationFrameId flat_map app].
  now rewrite app_nil_r.
Qed.

(** *** The properties *)

(** X24. In [game.js] every method of the manager that the game or the SDK
    reaches is guarded: however the initialization goes, [isInitialized]
    is true only once the promise of [ogp.init] has resolved, and then the
    SDK object exists.  So neither [saveScore] nor [updateTotalOgpPoints]
    throws; [saveScore] calls [ogp.savePoints] when the manager is
    initialized and [points <= 0] is false, [updateTotalOgpPoints] calls
    [ogp.getPoints] when the manager is initialized, and otherwise they
    call nothing.  During the initialization the total is asked for once,
    and only if the listeners could be set up. *)
Theorem manager_of_game_js_is_guarded
    (f : sdk_failure) (o : option init_outcome) (points : float) :
  let m := fst (page_load f o) in
  (isInitialized m = true <->
   init_chained f = true /\ exists lf, o = Some (InitResolved lf)) /\
  (isInitialized m = true -> ogp m = Some sdk_object) /\
  saveScore m points
  = (Returned, if isInitialized m && negb (points <=? 0) then [SdkSavePoints points] else [])
  /\
  updateTotalOgpPoints m = (Returned, if isInitialized m then [SdkGetPoints] else []) /\
  (In SdkGetPoints (snd (page_load f o)) <->
   init_chained f = true /\ o = Some (InitResolved NoListenerFailure)).
Proof.
  intros m. split; [|split; [|split; [|split]]].
  - unfold m. destruct f, o as [[lf|]|]; cbn; split;
      try (intros H; discriminate H);
      try (intros [H _]; discriminate H);
      try (intros [_ [b' H]]; discriminate H);
      try (intros _; split; [reflexivity|now exists lf]);
      try (intros _; reflexivity).
  - apply basic_load_manager_ok.
  - apply basic_saveScore_guarded, basic_load_manager_ok.
  - apply updateTotalOgpPoints_guarded, basic_load_manager_ok.
  - destruct f, o as [[[| |]|]|]; cbn; split; intros H;
      first [ tauto
            | destruct H as [H1 H2]; first [discriminate H1 | discriminate H2]
            | repeat (destruct H as [H|H]; try discriminate H); contradiction ].
Qed.

(** X25. In [game.js] a frame never throws, with or without the SDK:
    [gameLoop] with the manager returns, leaves the state that the game
    without its manager leaves, and makes the same calls in the same
    order, [saveScore] replaced by what the manager does on it. *)
Theorem basic_frame_never_throws
    (f : sdk_failure) (o : option init_outcome)
    (rnd : float) (handle : Z) (g : gameState) :
  let m := fst (page_load f o) in
  gameLoop m rnd handle g
  = (Returned, state_of (Basic.gameLoop rnd handle g),
     expand m (log_of (Basic.gameLoop rnd handle g))).
Proof. intros m. apply basic_gameLoop_with_manager, basic_load_manager_ok. Qed.

(** X26. In [game.js] the SDK's [savePoints] is called in the frame that
    ends the game, once and with the final score, if the manager is
    initialized and the score is positive; in every other frame, and at a
    game end with an uninitialized manager or a score of 0, it is not
    called. *)
Theorem basic_savePoints_once_when_initialized
    (f : sdk_failure) (o : option init_outcome)
    (rnd : float) (handle : Z) (g : gameState) :
  let m := fst (page_load f o) in
  let r := gameLoop m rnd handle g in
  savePoints_calls (actions_of r)
  = if gameRunning g && negb (gameRunning (final_state r))
       && isInitialized m && gt (score (final_state r)) 0
    then [score (final_state r)]
    else [].
Proof.
  intros m r. unfold r.
  pose proof (basic_load_manager_ok f o) as Hm. fold m in Hm.
  rewrite (basic_gameLoop_with_manager m rnd handle g Hm).
  unfold final_state, actions_of. cbn [fst snd].
  rewrite (basic_savePoints_calls_expand m _ Hm), basic_gameLoop_saveScore_calls.
  generalize (state_of (Basic.gameLoop rnd handle g)) as g'. intros g'.
  destruct (gameRunning g && negb (gameRunning g')); cbn [andb]; [|reflexivity].
  destruct (gt (score g') 0) eqn:Hpos.
  - cbn [flat_map]. rewrite (basic_positive_not_below_zero _ Hpos), app_nil_r.
    now destruct (isInitialized m).
  - now destruct (isInitialized m).
Qed.

End BasicSdkFacts.
